(** * Table generator for Unicode normalization ([scripts/unicode.py])

    A shallow embedding of the table compiler: the multiplicative hash and
    the minimal perfect hash construction, the recursive decomposition
    resolver, the canonical composition builder, the standardized-variant
    loader, the stream-safe tables and the ingestion of the derived
    normalization properties, followed by the properties proved of them. *)

From Stdlib Require Import ZArith Lia Ascii String.
From stdpp Require Import base numbers option list sorting gmap sets strings.

Local Open Scope Z_scope.

(** ** Outcomes of the script's procedures

    The script aborts on a failed [assert], on a missing dictionary key, on
    an empty [max], on an unparseable number and on [exit(1)]. The recursive
    generator is run with a bound on its recursion depth: [OutOfFuel] is
    the outcome of a run that exceeds it, which the interpreter ends with
    [RecursionError]. *)

Inductive exn : Type :=
  | AssertionError
  | KeyError
  | ValueError
  | SystemExit.

Inductive outcome (A : Type) : Type :=
  | Ret (a : A)
  | Raise (e : exn)
  | OutOfFuel.

Arguments Ret {A} a.
Arguments Raise {A} e.
Arguments OutOfFuel {A}.

#[global] Instance outcome_ret : MRet outcome := fun A a => Ret a.

#[global] Instance outcome_bind : MBind outcome := fun A B k m =>
  match m with
  | Ret a => k a
  | Raise e => Raise e
  | OutOfFuel => OutOfFuel
  end.

Definition assert (b : bool) : outcome unit :=
  if b then Ret tt else Raise AssertionError.

(** ** Hangul constants *)

Definition S_BASE : Z := 0xAC00.
Definition L_COUNT : Z := 19.
Definition V_COUNT : Z := 21.
Definition T_COUNT : Z := 28.
Definition S_COUNT : Z := L_COUNT * V_COUNT * T_COUNT.

Definition is_hangul (char_int : Z) : bool :=
  (S_BASE <=? char_int) && (char_int <? S_BASE + S_COUNT).

(** [range(lo, hi)] *)
Fixpoint range_from (lo : Z) (count : nat) : list Z :=
  match count with
  | O => []
  | S count' => lo :: range_from (lo + 1) count'
  end.

Definition range (lo hi : Z) : list Z := range_from lo (Z.to_nat (hi - lo)).

(** A loop whose body may abort. *)
Fixpoint foldM {A B : Type} (f : A -> B -> outcome A) (a : A) (l : list B) : outcome A :=
  match l with
  | [] => Ret a
  | x :: l' => a' ← f a x; foldM f a' l'
  end.

(** ** The hash engine *)

Module Hash.

Definition mask_32 : Z := 0xffffffff.
Definition C1 : Z := 2654435769.
Definition C2 : Z := 0x31415926.

Definition my_hash (x salt n : Z) : Z :=
  let y := Z.land ((x + salt) * C1) mask_32 in
  let y := Z.lxor y (Z.land (x * C2) mask_32) in
  Z.shiftr (y * n) 32.

Arguments my_hash : simpl never.

(** Python compares the tuples [(len(buckets[h]), h)] lexicographically. *)
Definition tuple_le (a b : Z * Z) : Prop :=
  a.1 < b.1 \/ (a.1 = b.1 /\ a.2 <= b.2).

#[global] Instance tuple_le_dec (a b : Z * Z) : Decision (tuple_le a b).
Proof. unfold tuple_le. apply _. Defined.

(** [buckets[h].append(key)] with [h = my_hash(key, 0, n)]. The index is
    always in range (lemma [my_hash_range]), so the update is never the
    out-of-range one. *)
Definition add_key (n : Z) (buckets : list (list Z)) (key : Z) : list (list Z) :=
  let h := my_hash key 0 n in
  alter (fun b => b ++ [key]) (Z.to_nat h) buckets.

Definition fill_buckets (d : list Z) (n : Z) : list (list Z) :=
  foldl (add_key n) (replicate (Z.to_nat n) []) d.

(** [bsorted = [(len(buckets[h]), h) for h in range(n)]] followed by
    [bsorted.sort(reverse = True)]: the tuples are pairwise different, so
    the outcome is the one list that descends in the lexicographic order. *)
Definition bucket_sizes (buckets : list (list Z)) (n : Z) : list (Z * Z) :=
  (fun h => (Z.of_nat (length (buckets !!! Z.to_nat h)), h)) <$> range 0 n.

Definition bsorted_of (buckets : list (list Z)) (n : Z) : list (Z * Z) :=
  merge_sort (flip tuple_le) (bucket_sizes buckets n).

Record mph_state : Type := MphState {
  claimed : list bool;
  salts : list Z;
  keys : list Z
}.

(** [claimed[rehash] = True; keys[rehash] = key] *)
Definition place (salt n : Z) (st : mph_state) (key : Z) : mph_state :=
  let rehash := my_hash key salt n in
  {| claimed := <[Z.to_nat rehash := true]> (claimed st);
     salts := salts st;
     keys := <[Z.to_nat rehash := key]> (keys st) |}.

(** The loop [for salt in range(1, 32768)] over the salts still to try;
    the state is returned unchanged when the loop runs out. *)
Fixpoint salt_loop (candidates : list Z) (bucket : list Z) (bucket_size h n : Z)
    (st : mph_state) : mph_state :=
  match candidates with
  | [] => st
  | salt :: rest =>
      let rehashes := (fun key => my_hash key salt n) <$> bucket in
      if forallb (fun hash => negb (claimed st !!! Z.to_nat hash)) rehashes then
        if Z.of_nat (size (list_to_set rehashes : gset Z)) <? bucket_size
        then salt_loop rest bucket bucket_size h n st
        else
          foldl (place salt n)
            {| claimed := claimed st;
               salts := <[Z.to_nat h := salt]> (salts st);
               keys := keys st |}
            bucket
      else salt_loop rest bucket bucket_size h n st
  end.

Definition salt_range : list Z := range 1 32768.

Arguments salt_range : simpl never.

(** The loop [for (bucket_size, h) in bsorted]. *)
Fixpoint process (bsorted : list (Z * Z)) (buckets : list (list Z)) (n : Z)
    (st : mph_state) : outcome mph_state :=
  match bsorted with
  | [] => Ret st
  | (bucket_size, h) :: rest =>
      if bucket_size =? 0 then Ret st
      else
        let st' := salt_loop salt_range (buckets !!! Z.to_nat h) bucket_size h n st in
        if salts st' !!! Z.to_nat h =? 0 then Raise SystemExit
        else process rest buckets n st'
  end.

Definition init_state (n : Z) : mph_state :=
  {| claimed := replicate (Z.to_nat n) false;
     salts := replicate (Z.to_nat n) 0;
     keys := replicate (Z.to_nat n) 0 |}.

(** [d] is the sequence of keys in the order the script iterates them. *)
Definition minimal_perfect_hash (d : list Z) : outcome (list Z * list Z) :=
  let n := Z.of_nat (length d) in
  let buckets := fill_buckets d n in
  let bsorted := bsorted_of buckets n in
  st ← process bsorted buckets n (init_state n);
  Ret (salts st, keys st).

End Hash.


(** ** Text

    A Python [str] is modelled by a Rocq [string]; its characters are the
    code points below 256. *)

Module Text.

(** [str.isspace] on the code points below 256. *)
Definition is_space (a : ascii) : bool :=
  let n := nat_of_ascii a in
  ((9 <=? n) && (n <=? 13) || (28 <=? n) && (n <=? 32)
   || (n =? 0x85) || (n =? 0xA0))%nat.

Fixpoint lstrip (s : string) : string :=
  match s with
  | String a s' => if is_space a then lstrip s' else s
  | EmptyString => EmptyString
  end.

Fixpoint rstrip (s : string) : string :=
  match s with
  | String a s' =>
      match rstrip s' with
      | EmptyString => if is_space a then EmptyString else String a EmptyString
      | r => String a r
      end
  | EmptyString => EmptyString
  end.

(** [s.strip()] *)
Definition strip (s : string) : string := rstrip (lstrip s).

(** [s.split(sep)] for a one-character separator: never empty. *)
Fixpoint split (sep : ascii) (s : string) : list string :=
  match s with
  | EmptyString => [EmptyString]
  | String a s' =>
      if Ascii.eqb a sep then EmptyString :: split sep s'
      else
        match split sep s' with
        | piece :: pieces => String a piece :: pieces
        | [] => [String a EmptyString]
        end
  end.

(** [s.split()]: the maximal runs of characters that are not spaces. *)
Fixpoint split_ws_go (cur : string) (s : string) : list string :=
  match s with
  | EmptyString => if String.eqb cur EmptyString then [] else [cur]
  | String a s' =>
      if is_space a
      then (if String.eqb cur EmptyString then [] else [cur]) ++ split_ws_go EmptyString s'
      else split_ws_go (cur +:+ String a EmptyString) s'
  end.

Definition split_ws (s : string) : list string := split_ws_go EmptyString s.

(** [s.partition(sep)]: the text before the first [sep] and the text after
    it; the whole text and the empty text when [sep] does not occur. *)
Fixpoint partition (sep : string) (s : string) : string * string :=
  if String.prefix sep s
  then (EmptyString, String.substring (String.length sep) (String.length s - String.length sep) s)
  else
    match s with
    | EmptyString => (EmptyString, EmptyString)
    | String a s' => let '(before, after) := partition sep s' in (String a before, after)
    end.

End Text.

(** ** Ingestion of DerivedNormalizationProps.txt *)

Module NormProps.

Definition record : Type := string * string * option string.

(** The body of the loop over the lines: [props] is the
    [defaultdict(list)]. *)
Definition norm_props_step (props : gmap string (list record)) (line : string)
    : outcome (gmap string (list record)) :=
  let prop_data := (Text.partition "#" line).1 in
  let prop_pieces := Text.split ";" prop_data in
  if (length prop_pieces <? 2)%nat then Ret props
  else
    _ ← assert (length prop_pieces <=? 3)%nat;
    let '(low, high) := Text.partition ".." (Text.strip (prop_pieces !!! 0%nat)) in
    let prop := Text.strip (prop_pieces !!! 1%nat) in
    let data :=
      if (length prop_pieces =? 3)%nat
      then Some (Text.strip (prop_pieces !!! 2%nat)) else None in
    Ret (<[prop := default [] (props !! prop) ++ [(low, high, data)]]> props).

(** [lines] is the fetched text after [splitlines()]. *)
Definition _load_norm_props (lines : list string) : outcome (gmap string (list record)) :=
  foldM norm_props_step ∅ lines.

End NormProps.

(** ** The tables computed by [UnicodeData] *)

Module UCD.

(** [x in d] for a dictionary [d]. *)
Definition contains {V : Type} (d : gmap Z V) (x : Z) : bool :=
  bool_decide (x ∈ dom d).

(** [d[x]], which raises [KeyError] on a missing key. *)
Definition getitem {K : Type} `{Countable K} {V : Type} (d : gmap K V) (x : K) : outcome V :=
  match d !! x with
  | Some v => Ret v
  | None => Raise KeyError
  end.

(** *** The decomposition resolver *)

(** The two nested loops of [_decompose] over a raw decomposition: the
    elements yielded for each member, in order. *)
Fixpoint expand (rec : Z -> outcome (list Z)) (decomp : list Z) : outcome (list Z) :=
  match decomp with
  | [] => Ret []
  | decomposed_ch :: rest =>
      l ← rec decomposed_ch;
      ls ← expand rec rest;
      Ret (l ++ ls)
  end.

(** [list(_decompose(char_int, compatible))], with a bound [fuel] on the
    depth of the recursion. *)
Fixpoint _decompose (fuel : nat) (canon_decomp compat_decomp : gmap Z (list Z))
    (char_int : Z) (compatible : bool) : outcome (list Z) :=
  match fuel with
  | O => OutOfFuel
  | S fuel' =>
      if char_int <=? 0x7f then Ret [char_int]
      else
        _ ← assert (negb (is_hangul char_int));
        match canon_decomp !! char_int with
        | Some decomp =>
            expand (fun d => _decompose fuel' canon_decomp compat_decomp d compatible) decomp
        | None =>
            if compatible && contains compat_decomp char_int then
              decomp ← getitem compat_decomp char_int;
              expand (fun d => _decompose fuel' canon_decomp compat_decomp d compatible) decomp
            else Ret [char_int]
        end
  end.

(** [max(d.keys())] *)
Definition max_key {V : Type} (d : gmap Z V) : outcome Z :=
  match elements (dom d) with
  | [] => Raise ValueError
  | k :: ks => Ret (foldl Z.max k ks)
  end.

(** [len(l) == 1 and l[0] == char_int] *)
Definition is_self (l : list Z) (char_int : Z) : bool :=
  match l with
  | [x] => x =? char_int
  | _ => false
  end.

Definition tables : Type := gmap Z (list Z) * gmap Z (list Z).

(** The body of the loop over [range(0, end_codepoint + 1)]. *)
Definition decomp_step (fuel : nat) (canon_decomp compat_decomp : gmap Z (list Z))
    (t : tables) (char_int : Z) : outcome tables :=
  if is_hangul char_int then Ret t
  else
    canon ← _decompose fuel canon_decomp compat_decomp char_int false;
    let canon_fully_decomp :=
      if negb (is_self canon char_int) then <[char_int := canon]> t.1 else t.1 in
    compat ← _decompose fuel canon_decomp compat_decomp char_int true;
    let compat_fully_decomp :=
      if negb (is_self compat char_int) then <[char_int := compat]> t.2 else t.2 in
    Ret (canon_fully_decomp, compat_fully_decomp).

(** The two tables before the post-pass. *)
Definition fully_decomposed_loop (fuel : nat) (canon_decomp compat_decomp : gmap Z (list Z))
    : outcome tables :=
  m1 ← max_key canon_decomp;
  m2 ← max_key compat_decomp;
  let end_codepoint := Z.max m1 m2 in
  foldM (decomp_step fuel canon_decomp compat_decomp) (∅, ∅) (range 0 (end_codepoint + 1)).

(** The loop over [set(canon_fully_decomp) & set(compat_fully_decomp)]: the
    members of the intersection are visited in some order, and the outcome
    does not depend on it. *)
Definition dedup_step (canon_fully_decomp : gmap Z (list Z))
    (compat_fully_decomp : gmap Z (list Z)) (ch : Z) : gmap Z (list Z) :=
  if bool_decide (canon_fully_decomp !!! ch = compat_fully_decomp !!! ch)
  then delete ch compat_fully_decomp else compat_fully_decomp.

Definition dedup (canon_fully_decomp compat_fully_decomp : gmap Z (list Z)) : gmap Z (list Z) :=
  foldl (dedup_step canon_fully_decomp) compat_fully_decomp
    (elements (dom canon_fully_decomp ∩ dom compat_fully_decomp)).

(** The post-pass: the assertion on the key sets, then the removal of the
    entries that agree. *)
Definition dedup_pass (t : tables) : outcome tables :=
  _ ← assert (bool_decide (dom t.1 ⊆ dom t.2));
  Ret (t.1, dedup t.1 t.2).

Definition _compute_fully_decomposed (fuel : nat) (canon_decomp compat_decomp : gmap Z (list Z))
    : outcome tables :=
  t ← fully_decomposed_loop fuel canon_decomp compat_decomp;
  dedup_pass t.

(** *** The stream-safe tables *)

(** The counting loop, which stops at the first member that is not in
    [combining_classes]. *)
Fixpoint count_nonstarters (combining_classes : gmap Z string) (decomposed : list Z) : Z :=
  match decomposed with
  | [] => 0
  | d :: rest =>
      if negb (contains combining_classes d) then 0
      else 1 + count_nonstarters combining_classes rest
  end.

(** [compat_fully_decomp.get(c) or canon_fully_decomp[c]]: an absent entry
    and an empty list are both false. *)
Definition representative (canon_fully_decomp compat_fully_decomp : gmap Z (list Z)) (c : Z)
    : outcome (list Z) :=
  match compat_fully_decomp !! c with
  | Some (x :: l) => Ret (x :: l)
  | _ => getitem canon_fully_decomp c
  end.

Definition ss_tables : Type := gmap Z Z * gmap Z Z.

Definition stream_safe_step (canon_fully_decomp compat_fully_decomp : gmap Z (list Z))
    (combining_classes : gmap Z string) (t : ss_tables) (c : Z) : outcome ss_tables :=
  decomposed ← representative canon_fully_decomp compat_fully_decomp c;
  let num_leading := count_nonstarters combining_classes decomposed in
  let num_trailing := count_nonstarters combining_classes (reverse decomposed) in
  let leading_nonstarters := if 0 <? num_leading then <[c := num_leading]> t.1 else t.1 in
  let trailing_nonstarters := if 0 <? num_trailing then <[c := num_trailing]> t.2 else t.2 in
  Ret (leading_nonstarters, trailing_nonstarters).

(** The members of the union of the two key sets are visited in some
    order; every member writes its own entries only. *)
Definition _compute_stream_safe_tables (canon_fully_decomp compat_fully_decomp : gmap Z (list Z))
    (combining_classes : gmap Z string) : outcome ss_tables :=
  foldM (stream_safe_step canon_fully_decomp compat_fully_decomp combining_classes) (∅, ∅)
    (elements (dom canon_fully_decomp ∪ dom compat_fully_decomp)).

(** *** The canonical composition table and the standardized variants *)

Section parsing.

(** [int16 s] stands for Python's [int(s, 16)]; it raises [ValueError] on
    text it does not accept. *)
Variable int16 : string -> outcome Z.

(** [(int(low, 16), int(high or low, 16))] *)
Definition parse_exclusion (r : NormProps.record) : outcome (Z * Z) :=
  let '(low, high, _) := r in
  lo ← int16 low;
  hi ← int16 (if String.eqb high "" then low else high);
  Ret (lo, hi).

Definition excluded (comp_exclusions : list (Z * Z)) (char_int : Z) : bool :=
  existsb (fun '(lo, hi) => (lo <=? char_int) && (char_int <=? hi)) comp_exclusions.

(** The body of the loop over [canon_decomp.items()]. *)
Definition comp_step (comp_exclusions : list (Z * Z)) (canon_comp : gmap (Z * Z) Z)
    (item : Z * list Z) : outcome (gmap (Z * Z) Z) :=
  let '(char_int, decomp) := item in
  if excluded comp_exclusions char_int then Ret canon_comp
  else
    _ ← assert (length decomp =? 2)%nat;
    let d0 := decomp !!! 0%nat in
    let d1 := decomp !!! 1%nat in
    _ ← assert (negb (bool_decide ((d0, d1) ∈ dom canon_comp)));
    Ret (<[(d0, d1) := char_int]> canon_comp).

(** [items] is [canon_decomp.items()] in the order the dictionary yields
    them. *)
Definition _compute_canonical_comp (norm_props : gmap string (list NormProps.record))
    (items : list (Z * list Z)) : outcome (gmap (Z * Z) Z) :=
  comp_exclusions ←
    mapM parse_exclusion (default [] (norm_props !! "Full_Composition_Exclusion"%string));
  foldM (comp_step comp_exclusions) ∅ items.

(** The two asserts on a member of a variation sequence. *)
Definition check_part (canon_decomp compat_decomp : gmap Z (list Z)) (_ : unit) (c : Z)
    : outcome unit :=
  _ ← assert (negb (contains canon_decomp c));
  assert (negb (contains compat_decomp c)).

(** The body of the loop over the lines of StandardizedVariants.txt; the
    state is [(svar_decomp, svar_fully_decomp)]. *)
Definition svar_step (name_to_char_int : gmap string Z) (combining_classes : gmap Z string)
    (canon_decomp compat_decomp : gmap Z (list Z)) (t : tables) (line : string)
    : outcome tables :=
  let strip_comments := Text.strip (Text.split "#" line !!! 0%nat) in
  if String.eqb strip_comments "" then Ret t
  else
    let pieces := Text.split ";" strip_comments in
    _ ← assert (length pieces =? 3)%nat;
    let variation_sequence := pieces !!! 0%nat in
    let description := Text.strip (pieces !!! 1%nat) in
    let differences := pieces !!! 2%nat in
    if negb (String.eqb differences "") then Ret t
    else
      match name_to_char_int !! description with
      | None => Ret t
      | Some char_int =>
          _ ← assert (negb (contains combining_classes char_int));
          _ ← assert (negb (contains compat_decomp char_int));
          decomp ← getitem canon_decomp char_int;
          _ ← assert (length decomp =? 1)%nat;
          _ ← assert (negb (is_hangul char_int));
          standardized_variant_parts ← mapM int16 (Text.split_ws variation_sequence);
          _ ← foldM (check_part canon_decomp compat_decomp) tt standardized_variant_parts;
          Ret (<[char_int := standardized_variant_parts]> t.1,
               <[char_int := standardized_variant_parts]> t.2)
      end.

(** [svar_decomp] and [svar_fully_decomp] start empty. *)
Definition _load_standardized_variants (name_to_char_int : gmap string Z)
    (combining_classes : gmap Z string) (canon_decomp compat_decomp : gmap Z (list Z))
    (lines : list string) : outcome tables :=
  foldM (svar_step name_to_char_int combining_classes canon_decomp compat_decomp) (∅, ∅) lines.

End parsing.

(** The value of a text made of hexadecimal digits only, as [int(s, 16)]
    reads it; used to run the loaders on concrete text. *)
Definition hex_digit (a : ascii) : option Z :=
  let n := Z.of_nat (nat_of_ascii a) in
  if (48 <=? n) && (n <=? 57) then Some (n - 48)
  else if (65 <=? n) && (n <=? 70) then Some (n - 55)
  else if (97 <=? n) && (n <=? 102) then Some (n - 87)
  else None.

Fixpoint hex_go (acc : Z) (s : string) : outcome Z :=
  match s with
  | EmptyString => Ret acc
  | String a s' =>
      match hex_digit a with
      | Some v => hex_go (16 * acc + v) s'
      | None => Raise ValueError
      end
  end.

Definition hex_int (s : string) : outcome Z :=
  match s with
  | EmptyString => Raise ValueError
  | _ => hex_go 0 s
  end.

End UCD.

(** ** Notions used to state the properties *)

(** The number of fields of a line of DerivedNormalizationProps.txt once
    its comment is removed. *)
Definition field_count (line : string) : nat :=
  length (Text.split ";" (Text.partition "#" line).1).

(** The sentence of the specification on the parity of the multipliers. *)
Definition spec_constants_odd : Prop := Z.odd Hash.C1 = true /\ Z.odd Hash.C2 = true.

(** The sentence of the specification on malformed records: a line whose
    field count is neither 2 nor 3 makes the ingestion fail. *)
Definition spec_rejects_unexpected_field_count (lines : list string) : Prop :=
  forall line, line ∈ lines -> field_count line <> 2%nat -> field_count line <> 3%nat ->
    exists e, NormProps._load_norm_props lines = Raise e.

(** The sentence of the specification on the order of the buckets: of two
    buckets with the same occupancy, the one with the smaller index comes
    first. *)
Definition spec_ties_ascending (bsorted : list (Z * Z)) : Prop :=
  forall (i j : nat) (size h h' : Z),
    bsorted !! i = Some (size, h) -> bsorted !! j = Some (size, h') -> (i < j)%nat -> h < h'.

(** The buckets that the loop of [minimal_perfect_hash] reaches: those
    before the first empty one. *)
Fixpoint nonempty_prefix (bsorted : list (Z * Z)) : list (Z * Z) :=
  match bsorted with
  | [] => []
  | (bucket_size, h) :: rest =>
      if bucket_size =? 0 then [] else (bucket_size, h) :: nonempty_prefix rest
  end.

(** The test that [salt_loop] makes of a salt: no rehash of the bucket is
    claimed, and the rehashes are at least [bucket_size] different slots. *)
Definition accepted (st : Hash.mph_state) (bucket : list Z) (bucket_size n salt : Z) : Prop :=
  Forall (fun key => Hash.claimed st !!! Z.to_nat (Hash.my_hash key salt n) = false) bucket /\
  bucket_size <= Z.of_nat (size (list_to_set ((fun key => Hash.my_hash key salt n) <$> bucket) : gset Z)).

(** Bucket [h] has been given a salt: the salt is recorded, lies in
    [[1, 32768)], and sends every key of the bucket to a claimed slot that
    holds the key. *)
Definition placed (buckets : list (list Z)) (n : Z) (st : Hash.mph_state) (h : Z) : Prop :=
  exists salt,
    Hash.salts st !! Z.to_nat h = Some salt /\ 1 <= salt < 32768 /\
    NoDup (buckets !!! Z.to_nat h) /\
    forall key, key ∈ buckets !!! Z.to_nat h ->
      Hash.claimed st !! Z.to_nat (Hash.my_hash key salt n) = Some true /\
      Hash.keys st !! Z.to_nat (Hash.my_hash key salt n) = Some key.

(** The invariant of the loop over the buckets; [done] holds of the
    buckets handled so far. *)
Record mph_inv (buckets : list (list Z)) (n : Z) (st : Hash.mph_state) (done : Z -> Prop)
    : Prop := MphInv {
  inv_claimed : length (Hash.claimed st) = Z.to_nat n;
  inv_salts : length (Hash.salts st) = Z.to_nat n;
  inv_keys : length (Hash.keys st) = Z.to_nat n;
  inv_range : forall h, done h -> 0 <= h < n;
  inv_done : forall h, done h -> placed buckets n st h;
  inv_todo : forall h, 0 <= h < n -> ~ done h -> Hash.salts st !! Z.to_nat h = Some 0
}.

(** [list(_decompose(c, compatible))] returns [l], at some depth of
    recursion. *)
Definition decomposes (canon_decomp compat_decomp : gmap Z (list Z)) (compatible : bool)
    (c : Z) (l : list Z) : Prop :=
  exists fuel, UCD._decompose fuel canon_decomp compat_decomp c compatible = Ret l.

(** [l] is the concatenation, in order, of the recursive decompositions of
    the members of [decomp]. *)
Definition expands (canon_decomp compat_decomp : gmap Z (list Z)) (compatible : bool)
    (decomp : list Z) (l : list Z) : Prop :=
  exists ls,
    Forall2 (decomposes canon_decomp compat_decomp compatible) decomp ls /\ l = concat ls.

(** The table [m] after the loop body has handled [c] with result [l]. *)
Definition record_entry (m : gmap Z (list Z)) (c : Z) (l : list Z) : gmap Z (list Z) :=
  if negb (UCD.is_self l c) then <[c := l]> m else m.

(** A non-starter is a codepoint with an entry in [combining_classes], the
    table of the combining classes other than 0. *)
Definition nonstarter (combining_classes : gmap Z string) (d : Z) : Prop :=
  is_Some (combining_classes !! d).

(** [k] is the length of the longest run of non-starters at the start of
    [l]. *)
Definition leading_run (combining_classes : gmap Z string) (l : list Z) (k : nat) : Prop :=
  (k <= length l)%nat /\
  (forall (i : nat) d, (i < k)%nat -> l !! i = Some d -> nonstarter combining_classes d) /\
  (forall d, l !! k = Some d -> ~ nonstarter combining_classes d).

(** [k] is the length of the longest run of non-starters at the end of
    [l]. *)
Definition trailing_run (combining_classes : gmap Z string) (l : list Z) (k : nat) : Prop :=
  (k <= length l)%nat /\
  (forall (i : nat) d, (length l - k <= i)%nat -> l !! i = Some d ->
     nonstarter combining_classes d) /\
  (forall d, (k < length l)%nat -> l !! (length l - k - 1)%nat = Some d ->
     ~ nonstarter combining_classes d).

(** The expansion that stands for [c]: its entry in the compatibility
    table if there is one, otherwise its entry in the canonical table. *)
Definition spec_representative (canon_fully_decomp compat_fully_decomp : gmap Z (list Z))
    (c : Z) : option (list Z) :=
  match compat_fully_decomp !! c with
  | Some l => Some l
  | None => canon_fully_decomp !! c
  end.

(** The entry of a sparse table of counts: absent for the count 0. *)
Definition sparse_entry (k : nat) : option Z :=
  if decide (k = 0%nat) then None else Some (Z.of_nat k).

(** The sentence of the specification on the Hangul syllables, for the
    composition table, whose keys are pairs of codepoints: no member of a
    key is a Hangul syllable. *)
Definition spec_comp_keys_not_hangul (canon_comp : gmap (Z * Z) Z) : Prop :=
  forall c1 c2, is_Some (canon_comp !! (c1, c2)) -> is_hangul c1 = false /\ is_hangul c2 = false.

(** [d] is a member of the raw decomposition that [_decompose] reads for
    [c]: the canonical one when [c] has one, else, in compatibility mode,
    the compatibility one. *)
Definition raw_member (canon_decomp compat_decomp : gmap Z (list Z)) (compatible : bool)
    (c d : Z) : Prop :=
  0x7f < c /\
  exists decomp, d ∈ decomp /\
    (canon_decomp !! c = Some decomp \/
     (canon_decomp !! c = None /\ compatible = true /\ compat_decomp !! c = Some decomp)).

(** ** The generated tables

    The [gen_*] procedures print Rust source. They are modelled by the data
    they print, in the order they print it: a number or a tuple stands for
    its printed form. A dictionary handed to [minimal_perfect_hash] gives
    its keys in some order, here the one of [map_to_list]; the outcome of
    the construction does not depend on that order. *)

Module Emit.

Definition dict_keys {V : Type} (d : gmap Z V) : list Z := (map_to_list d).*1.

(** [gen_mph_data]: the salts, then [kv_callback(k)] for the keys [k] in
    the order of their slots. *)
Definition gen_mph_data {V : Type} (d : list Z) (kv_callback : Z -> outcome V)
    : outcome (list Z * list V) :=
  r ← Hash.minimal_perfect_hash d;
  kv ← mapM kv_callback r.2;
  Ret (r.1, kv).

(** [int10 s] stands for Python's [int(s)] on a string. *)
Definition gen_combining_class (int10 : string -> outcome Z)
    (combining_classes : gmap Z string) : outcome (list Z * list Z) :=
  gen_mph_data (dict_keys combining_classes)
    (fun k =>
       cc ← UCD.getitem combining_classes k;
       class ← int10 cc;
       Ret (Z.lor class (Z.shiftl k 8))).

(** The body of the first loop of [gen_composition_table]. *)
Definition table_step (table : gmap Z Z) (item : Z * Z * Z) : gmap Z Z :=
  let '(c1, c2, c3) := item in
  if (c1 <? 0x10000) && (c2 <? 0x10000)
  then <[Z.lor (Z.shiftl c1 16) c2 := c3]> table
  else table.

(** Python's order on the tuples [((c1, c2), c3)]. *)
Definition item_le (a b : Z * Z * Z) : Prop :=
  a.1.1 < b.1.1 \/
  (a.1.1 = b.1.1 /\ (a.1.2 < b.1.2 \/ (a.1.2 = b.1.2 /\ a.2 <= b.2))).

#[global] Instance item_le_dec (a b : Z * Z * Z) : Decision (item_le a b).
Proof. unfold item_le. apply _. Defined.

Definition is_astral (item : Z * Z * Z) : bool :=
  (0x10000 <=? item.1.1) && (0x10000 <=? item.1.2).

(** [items] is [canon_comp.items()] in the order the dictionary yields
    them. The result: the salts and the entries [(k, table[k])] of the hash
    table, then the arms of [composition_table_astral]. *)
Definition gen_composition_table (items : list (Z * Z * Z))
    : outcome (list Z * list (Z * Z) * list (Z * Z * Z)) :=
  let table := foldl table_step ∅ items in
  _ ← Hash.minimal_perfect_hash (dict_keys table);
  r ← gen_mph_data (dict_keys table) (fun k => c3 ← UCD.getitem table k; Ret (k, c3));
  let astral := filter (fun item => is_astral item = true) (merge_sort item_le items) in
  Ret (r.1, r.2, astral).

(** One hash table [(k, table[k])] for each of the three tables. *)
Definition gen_decomposition_tables (canon_decomp compat_decomp svar_decomp : gmap Z (list Z))
    : outcome (list (list Z * list (Z * list Z))) :=
  mapM (fun table : gmap Z (list Z) =>
          gen_mph_data (dict_keys table) (fun k => l ← UCD.getitem table k; Ret (k, l)))
    [canon_decomp; compat_decomp; svar_decomp].

Definition gen_combining_mark (general_category_mark : list Z) : outcome (list Z * list Z) :=
  gen_mph_data general_category_mark (fun k => Ret k).

(** The arms [(char, num_leading)] of the [match], sorted, then the hash
    table of [int(trailing[k]) | (k << 8)]. *)
Definition gen_stream_safe (leading trailing : gmap Z Z)
    : outcome (list (Z * Z) * (list Z * list Z)) :=
  let arms := merge_sort Hash.tuple_le (map_to_list leading) in
  r ← gen_mph_data (dict_keys trailing)
         (fun k => v ← UCD.getitem trailing k; Ret (Z.lor v (Z.shiftl k 8)));
  Ret (arms, r).

End Emit.

(** The lookup that the hash tables are generated for: the salt of the
    first-level bucket of [x], then the entry in the slot that this salt
    gives. *)
Definition mph_lookup {V : Type} (salt : list Z) (kv : list V) (x : Z) : option V :=
  let n := Z.of_nat (length salt) in
  kv !! Z.to_nat (Hash.my_hash x (salt !!! Z.to_nat (Hash.my_hash x 0 n)) n).

(** The value of a text made of decimal digits only, as [int(s)] reads it;
    used to run [gen_combining_class] on concrete text. *)
Fixpoint dec_go (acc : Z) (s : string) : outcome Z :=
  match s with
  | EmptyString => Ret acc
  | String a s' =>
      let n := Z.of_nat (nat_of_ascii a) in
      if (48 <=? n) && (n <=? 57) then dec_go (10 * acc + (n - 48)) s'
      else Raise ValueError
  end.

Definition dec_int (s : string) : outcome Z :=
  match s with
  | EmptyString => Raise ValueError
  | _ => dec_go 0 s
  end.

(** The record that a line of DerivedNormalizationProps.txt contributes,
    with the property it is filed under; none for a line with fewer than
    two fields. *)
Definition norm_record (line : string) : option (string * NormProps.record) :=
  let prop_pieces := Text.split ";" (Text.partition "#" line).1 in
  if (length prop_pieces <? 2)%nat then None
  else
    let '(low, high) := Text.partition ".." (Text.strip (prop_pieces !!! 0%nat)) in
    let data :=
      if (length prop_pieces =? 3)%nat
      then Some (Text.strip (prop_pieces !!! 2%nat)) else None in
    Some (Text.strip (prop_pieces !!! 1%nat), (low, high, data)).

(** The records filed under [prop], in the order of the lines. *)
Definition records_of (prop : string) (lines : list string) : list NormProps.record :=
  omap (fun line =>
          match norm_record line with
          | Some (p, r) => if String.eqb p prop then Some r else None
          | None => None
          end) lines.

(** ** Ingestion of UnicodeData.txt *)

Module UnicodeDataTxt.

Definition expanded_categories : gmap string (list string) :=
  list_to_map
    [("Lu", ["LC"; "L"]); ("Ll", ["LC"; "L"]); ("Lt", ["LC"; "L"]);
     ("Lm", ["L"]); ("Lo", ["L"]);
     ("Mn", ["M"]); ("Mc", ["M"]); ("Me", ["M"]);
     ("Nd", ["N"]); ("Nl", ["N"]); ("No", ["No"]);
     ("Pc", ["P"]); ("Pd", ["P"]); ("Ps", ["P"]); ("Pe", ["P"]);
     ("Pi", ["P"]); ("Pf", ["P"]); ("Po", ["P"]);
     ("Sm", ["S"]); ("Sc", ["S"]); ("Sk", ["S"]); ("So", ["S"]);
     ("Zs", ["Z"]); ("Zl", ["Z"]); ("Zp", ["Z"]);
     ("Cc", ["C"]); ("Cf", ["C"]); ("Cs", ["C"]); ("Co", ["C"]); ("Cn", ["C"])]%string.

(** The attributes that [_load_unicode_data] sets. *)
Record unicode_data : Type := UnicodeData {
  name_to_char_int : gmap string Z;
  combining_classes : gmap Z string;
  compat_decomp : gmap Z (list Z);
  canon_decomp : gmap Z (list Z);
  general_category_mark : list Z
}.

Section parsing.

(** [int16 s] stands for Python's [int(s, 16)]. *)
Variable int16 : string -> outcome Z.

(** [category == 'M' or 'M' in expanded_categories.get(category, [])] *)
Definition is_mark (category : string) : bool :=
  String.eqb category "M"
  || bool_decide ("M"%string ∈ default [] (expanded_categories !! category)).

(** The body of the loop over the lines. *)
Definition unicode_data_step (data : unicode_data) (line : string) : outcome unicode_data :=
  let pieces := Text.split ";" line in
  _ ← assert (length pieces =? 15)%nat;
  let char := pieces !!! 0%nat in
  let category := pieces !!! 2%nat in
  let cc := pieces !!! 3%nat in
  let decomp := pieces !!! 5%nat in
  char_int ← int16 char;
  let name := Text.strip (pieces !!! 1%nat) in
  let names := <[name := char_int]> (name_to_char_int data) in
  let classes :=
    if negb (String.eqb cc "0") then <[char_int := cc]> (combining_classes data)
    else combining_classes data in
  decomps ←
    (if String.prefix "<" decomp then
       l ← mapM int16 (tail (Text.split_ws decomp));
       Ret (<[char_int := l]> (compat_decomp data), canon_decomp data)
     else if negb (String.eqb decomp "") then
       l ← mapM int16 (Text.split_ws decomp);
       Ret (compat_decomp data, <[char_int := l]> (canon_decomp data))
     else Ret (compat_decomp data, canon_decomp data));
  let marks :=
    if is_mark category then general_category_mark data ++ [char_int]
    else general_category_mark data in
  Ret {| name_to_char_int := names; combining_classes := classes;
         compat_decomp := decomps.1; canon_decomp := decomps.2;
         general_category_mark := marks |}.

(** [lines] is the fetched text after [splitlines()]. *)
Definition _load_unicode_data (lines : list string) : outcome unicode_data :=
  foldM unicode_data_step
    {| name_to_char_int := ∅; combining_classes := ∅; compat_decomp := ∅;
       canon_decomp := ∅; general_category_mark := [] |}
    lines.

End parsing.

End UnicodeDataTxt.

(** The fields of a line of UnicodeData.txt. *)
Definition field (i : nat) (line : string) : string := Text.split ";" line !!! i.

(** The line is one of the codepoint [c]. *)
Definition line_of (int16 : string -> outcome Z) (c : Z) (line : string) : Prop :=
  int16 (field 0 line) = Ret c.

(** The decomposition that a line gives, of the canonical kind ([false])
    or of the compatibility kind ([true]): the decomposition field, when
    it is not empty, read as hexadecimal numbers, without its first word
    when it starts with [<]. *)
Definition line_decomposition (int16 : string -> outcome Z) (compatible : bool)
    (line : string) (l : list Z) : Prop :=
  let decomp := field 5 line in
  if compatible then
    String.prefix "<" decomp = true /\ mapM int16 (tail (Text.split_ws decomp)) = Ret l
  else
    String.prefix "<" decomp = false /\ decomp <> ""%string /\
    mapM int16 (Text.split_ws decomp) = Ret l.

(** The raw table of the canonical ([false]) or compatibility ([true])
    kind. *)
Definition raw_table (compatible : bool) (data : UnicodeDataTxt.unicode_data)
    : gmap Z (list Z) :=
  if compatible then UnicodeDataTxt.compat_decomp data else UnicodeDataTxt.canon_decomp data.

(** Three lines of UnicodeData.txt, used to run the loader. *)
Definition sample_lines : list string :=
  ["00C0;LATIN CAPITAL LETTER A WITH GRAVE;Lu;0;L;0041 0300;;;;N;LATIN CAPITAL LETTER A GRAVE;;;00E0;";
   "0300;COMBINING GRAVE ACCENT;Mn;230;NSM;;;;;N;NON-SPACING GRAVE;;;;";
   "00A0;NO-BREAK SPACE;Zs;0;CS;<noBreak> 0020;;;;N;NON-BREAKING SPACE;;;;"]%string.

(** No two lines are of the same codepoint. *)
Definition distinct_codepoints (int16 : string -> outcome Z) (lines : list string) : Prop :=
  forall (i j : nat) line line' c,
    lines !! i = Some line -> lines !! j = Some line' ->
    line_of int16 c line -> line_of int16 c line' -> i = j.

(** The records of [Full_Composition_Exclusion]; the table of properties
    is a [defaultdict], so a missing property gives no record. *)
Definition exclusion_records (norm_props : gmap string (list NormProps.record))
    : list NormProps.record :=
  default [] (norm_props !! "Full_Composition_Exclusion"%string).

(** The interval that a record [(low, high, _)] stands for: from [low] to
    [high], or the single codepoint [low] when the record has no upper
    end. *)
Definition record_interval (int16 : string -> outcome Z) (r : NormProps.record)
    (lo hi : Z) : Prop :=
  int16 r.1.1 = Ret lo /\
  (if decide (r.1.2 = ""%string) then hi = lo else int16 r.1.2 = Ret hi).

(** [c] lies outside every interval of [Full_Composition_Exclusion]. *)
Definition outside_exclusions (int16 : string -> outcome Z)
    (norm_props : gmap string (list NormProps.record)) (c : Z) : Prop :=
  forall r lo hi,
    r ∈ exclusion_records norm_props -> record_interval int16 r lo hi -> ~ (lo <= c <= hi).

(** The sentence of the specification on the construction of the
    composition table: the table is built, and it has an entry for exactly
    the codepoints outside the intervals whose canonical decomposition has
    two elements. *)
Definition spec_composition_table_built (int16 : string -> outcome Z)
    (norm_props : gmap string (list NormProps.record)) (canon_decomp : gmap Z (list Z))
    : Prop :=
  exists canon_comp,
    UCD._compute_canonical_comp int16 norm_props (map_to_list canon_decomp) = Ret canon_comp /\
    forall c1 c2 c3,
      canon_comp !! (c1, c2) = Some c3 <->
      canon_decomp !! c3 = Some [c1; c2] /\ outside_exclusions int16 norm_props c3.

(** The expansion that the stream-safe tables are computed from: the entry
    of the compatibility table when there is one and it is not empty, and
    the entry of the canonical table otherwise. *)
Definition used_expansion (canon_fully_decomp compat_fully_decomp : gmap Z (list Z))
    (c : Z) : option (list Z) :=
  match compat_fully_decomp !! c with
  | Some [] | None => canon_fully_decomp !! c
  | Some expansion => Some expansion
  end.

(** The sentence of the specification on the stream-safe tables: they are
    computed, and the counts of every codepoint of either table are those
    of its compatibility entry if it has one, of its canonical entry
    otherwise. *)
Definition spec_stream_safe_tables (canon_fully_decomp compat_fully_decomp : gmap Z (list Z))
    (combining_classes : gmap Z string) : Prop :=
  exists leading trailing,
    UCD._compute_stream_safe_tables canon_fully_decomp compat_fully_decomp combining_classes
    = Ret (leading, trailing) /\
    forall c, c ∈ dom canon_fully_decomp ∪ dom compat_fully_decomp ->
      exists expansion num_leading num_trailing,
        spec_representative canon_fully_decomp compat_fully_decomp c = Some expansion /\
        leading_run combining_classes expansion num_leading /\
        trailing_run combining_classes expansion num_trailing /\
        leading !! c = sparse_entry num_leading /\
        trailing !! c = sparse_entry num_trailing.

(** * Properties *)

Import Hash.

(** ** The mixing function *)

Lemma mask_32_ones : mask_32 = Z.ones 32.
Proof. reflexivity. Qed.

Lemma lxor_land_mask (a b m : Z) :
  Z.lxor (Z.land a m) (Z.land b m) = Z.land (Z.lxor a b) m.
Proof.
  apply Z.bits_inj'. intros k _.
  rewrite !Z.lxor_spec, !Z.land_spec, Z.lxor_spec.
  by destruct (Z.testbit a k), (Z.testbit b k), (Z.testbit m k).
Qed.

Lemma my_hash_mix (x salt : Z) :
  Z.lxor (Z.land ((x + salt) * C1) mask_32) (Z.land (x * C2) mask_32)
  = Z.lxor ((x + salt) * C1) (x * C2) mod 2 ^ 32.
Proof. by rewrite lxor_land_mask, mask_32_ones, Z.land_ones by lia. Qed.

Lemma my_hash_range (x salt n : Z) : 0 < n -> 0 <= my_hash x salt n < n.
Proof.
  intros Hn. unfold my_hash. rewrite my_hash_mix.
  pose proof (Z.mod_pos_bound (Z.lxor ((x + salt) * C1) (x * C2)) (2 ^ 32)) as Hy.
  set (y := _ mod _) in *.
  rewrite Z.shiftr_div_pow2 by lia.
  split.
  - apply Z.div_pos; nia.
  - apply Z.div_lt_upper_bound; nia.
Qed.

(** C6, as stated, fails: the multiplier [C2 = 0x31415926] is even, so the
    two constants are not both odd. *)
Lemma my_hash_constants_not_both_odd : ~ spec_constants_odd.
Proof. intros [_ H]. vm_compute in H. discriminate. Qed.

(** C6, amended: [my_hash x s n] is [(y * n) >> 32] for the 32-bit value
    [y = (((x + s) * C1) xor (x * C2)) mod 2^32] with [C1 = 2654435769],
    which is odd, and [C2 = 0x31415926], which is even; for all
    non-negative [x] and [s] and every [n >= 1] the result lies in
    [[0, n)]. *)
Theorem my_hash_spec (x s n : Z) :
  0 <= x -> 0 <= s -> 1 <= n ->
  C1 = 2654435769 /\ C2 = 0x31415926 /\
  Z.odd C1 = true /\ Z.odd C2 = false /\
  (let y := Z.lxor ((x + s) * C1) (x * C2) mod 2 ^ 32 in
   0 <= y < 2 ^ 32 /\ my_hash x s n = Z.shiftr (y * n) 32) /\
  0 <= my_hash x s n < n.
Proof.
  intros _ _ Hn.
  split; [reflexivity|]. split; [reflexivity|].
  split; [reflexivity|]. split; [reflexivity|].
  split; [|apply my_hash_range; lia].
  split; [apply Z.mod_pos_bound; lia|].
  unfold my_hash. by rewrite my_hash_mix.
Qed.

Lemma my_hash_spec_witness :
  C1 = 2654435769 /\ C2 = 0x31415926 /\
  Z.odd C1 = true /\ Z.odd C2 = false /\
  (let y := Z.lxor ((100 + 3) * C1) (100 * C2) mod 2 ^ 32 in
   0 <= y < 2 ^ 32 /\ my_hash 100 3 4 = Z.shiftr (y * 4) 32) /\
  0 <= my_hash 100 3 4 < 4.
Proof. apply (my_hash_spec 100 3 4); lia. Defined.

(** ** Ingestion of the normalization properties *)

Import NormProps.

Lemma norm_props_step_skip props line :
  (field_count line < 2)%nat -> norm_props_step props line = Ret props.
Proof.
  intros H. unfold norm_props_step. fold (field_count line).
  by rewrite (proj2 (Nat.ltb_lt _ _) H).
Qed.

Lemma norm_props_step_fatal props line :
  (3 < field_count line)%nat -> norm_props_step props line = Raise AssertionError.
Proof.
  intros H. unfold norm_props_step. fold (field_count line).
  destruct (Nat.ltb_spec (field_count line) 2); [lia|].
  destruct (Nat.leb_spec (field_count line) 3); [lia|]. done.
Qed.

Lemma norm_props_step_accept props line :
  (field_count line <= 3)%nat -> exists props', norm_props_step props line = Ret props'.
Proof.
  intros H. unfold norm_props_step. fold (field_count line).
  destruct (Nat.ltb_spec (field_count line) 2); [by eexists|].
  destruct (Nat.leb_spec (field_count line) 3); [|lia].
  simpl. destruct (Text.partition _ _). by eexists.
Qed.

Lemma load_fatal props lines :
  Exists (fun line => (3 < field_count line)%nat) lines ->
  foldM norm_props_step props lines = Raise AssertionError.
Proof.
  intros H. revert props. induction H as [line lines H|line lines H IH]; intros props; simpl.
  - by rewrite norm_props_step_fatal.
  - destruct (le_lt_dec (field_count line) 3) as [Hle|Hlt].
    + destruct (norm_props_step_accept props line Hle) as [props' ->]. apply IH.
    + by rewrite norm_props_step_fatal.
Qed.

Lemma load_accept props lines :
  Forall (fun line => (field_count line <= 3)%nat) lines ->
  exists props', foldM norm_props_step props lines = Ret props'.
Proof.
  intros H. revert props. induction H as [|line lines H _ IH]; intros props; simpl.
  - by eexists.
  - destruct (norm_props_step_accept props line H) as [props' ->]. apply IH.
Qed.

Lemma load_skip props lines :
  foldM norm_props_step props lines
  = foldM norm_props_step props (filter (fun line => (2 <= field_count line)%nat) lines).
Proof.
  revert props. induction lines as [|line lines IH]; intros props; [done|].
  rewrite filter_cons. case_decide as Hc; simpl.
  - destruct (norm_props_step props line); simpl; auto.
  - rewrite norm_props_step_skip by lia. apply IH.
Qed.

(** C9, as stated, fails: a line with a single field, which is neither 2
    nor 3 fields, is dropped and the ingestion succeeds. *)
Lemma load_norm_props_one_field_skipped :
  ~ spec_rejects_unexpected_field_count ["0340"%string].
Proof.
  intros H. destruct (H "0340"%string) as [e He].
  - by apply list_elem_of_singleton.
  - vm_compute. lia.
  - vm_compute. lia.
  - vm_compute in He. discriminate.
Qed.

(** C9, amended: a line with more than three fields makes the ingestion of
    the normalization properties fail with an assertion error; when no line
    has more than three fields the ingestion succeeds; and the lines with
    fewer than two fields (blank lines, comments, text without a semicolon)
    are skipped, the result being that of the remaining lines. *)
Theorem load_norm_props_field_count (lines : list string) :
  (Exists (fun line => (3 < field_count line)%nat) lines ->
   _load_norm_props lines = Raise AssertionError) /\
  (Forall (fun line => (field_count line <= 3)%nat) lines ->
   exists props, _load_norm_props lines = Ret props) /\
  _load_norm_props lines
  = _load_norm_props (filter (fun line => (2 <= field_count line)%nat) lines).
Proof.
  split; [apply load_fatal|]. split; [apply load_accept|apply load_skip].
Qed.

Lemma load_norm_props_field_count_witness :
  _load_norm_props ["0340 ; NFC_QC; N # x"; "a;b;c;d"]%string = Raise AssertionError /\
  exists props,
    _load_norm_props ["# comment"; "0340..0341 ; Full_Composition_Exclusion"; "junk"]%string
    = Ret props.
Proof.
  split.
  - apply (proj1 (load_norm_props_field_count _)).
    apply Exists_cons_tl, Exists_cons_hd. vm_compute. lia.
  - apply (proj1 (proj2 (load_norm_props_field_count _))).
    repeat constructor; vm_compute; lia.
Defined.

(** ** The order of the buckets *)

Lemma elem_of_range_from (x lo : Z) (count : nat) :
  x ∈ range_from lo count <-> lo <= x < lo + Z.of_nat count.
Proof.
  revert lo. induction count as [|count IH]; intros lo; simpl.
  - rewrite elem_of_nil. lia.
  - rewrite elem_of_cons, IH. lia.
Qed.

Lemma elem_of_range (x lo hi : Z) : x ∈ range lo hi <-> lo <= x < hi.
Proof. unfold range. rewrite elem_of_range_from. lia. Qed.

Lemma NoDup_range_from (lo : Z) (count : nat) : NoDup (range_from lo count).
Proof.
  revert lo. induction count as [|count IH]; intros lo; simpl; constructor; auto.
  rewrite elem_of_range_from. lia.
Qed.

Lemma NoDup_range (lo hi : Z) : NoDup (range lo hi).
Proof. apply NoDup_range_from. Qed.

#[local] Instance flip_tuple_le_total : Total (flip tuple_le).
Proof. intros [a1 a2] [b1 b2]. unfold flip, tuple_le. simpl. lia. Qed.

#[local] Instance flip_tuple_le_trans : Transitive (flip tuple_le).
Proof. intros [a1 a2] [b1 b2] [c1 c2]. unfold flip, tuple_le. simpl. lia. Qed.

Lemma bucket_sizes_snd buckets n : (bucket_sizes buckets n).*2 = range 0 n.
Proof.
  unfold bucket_sizes. rewrite <- list_fmap_compose.
  rewrite <- (list_fmap_id (range 0 n)) at 2. by apply list_fmap_ext.
Qed.

Lemma bsorted_of_perm buckets n : bsorted_of buckets n ≡ₚ bucket_sizes buckets n.
Proof. apply merge_sort_Permutation. Qed.

Lemma bsorted_of_snd buckets n : (bsorted_of buckets n).*2 ≡ₚ range 0 n.
Proof. by rewrite bsorted_of_perm, bucket_sizes_snd. Qed.

Lemma bsorted_of_NoDup_snd buckets n : NoDup (bsorted_of buckets n).*2.
Proof. rewrite bsorted_of_snd. apply NoDup_range. Qed.

Lemma elem_of_bsorted_of buckets n size h :
  (size, h) ∈ bsorted_of buckets n <->
  0 <= h < n /\ size = Z.of_nat (length (buckets !!! Z.to_nat h)).
Proof.
  rewrite bsorted_of_perm. unfold bucket_sizes. rewrite list_elem_of_fmap.
  setoid_rewrite elem_of_range. split.
  - intros (h' & [= -> ->] & Hh). done.
  - intros [Hh ->]. by exists h.
Qed.

Lemma bsorted_of_sorted buckets n : StronglySorted (flip tuple_le) (bsorted_of buckets n).
Proof. apply StronglySorted_merge_sort; apply _. Qed.

Lemma StronglySorted_lookup {A} (R : relation A) (l : list A) (i j : nat) (a b : A) :
  StronglySorted R l -> l !! i = Some a -> l !! j = Some b -> (i < j)%nat -> R a b.
Proof.
  intros Hs. revert i j. induction Hs as [|x l Hs IH Hall]; intros i j Hi Hj Hij.
  - by rewrite lookup_nil in Hi.
  - destruct j as [|j]; [lia|]. destruct i as [|i]; simpl in *.
    + injection Hi as ->. rewrite Forall_forall in Hall.
      apply Hall. by eapply list_elem_of_lookup_2.
    + eapply IH; eauto. lia.
Qed.

Lemma bsorted_of_descending buckets n (i j : nat) (a b : Z * Z) :
  bsorted_of buckets n !! i = Some a -> bsorted_of buckets n !! j = Some b -> (i < j)%nat ->
  b.1 < a.1 \/ (b.1 = a.1 /\ b.2 < a.2).
Proof.
  intros Hi Hj Hij.
  pose proof (StronglySorted_lookup _ _ _ _ _ _ (bsorted_of_sorted buckets n) Hi Hj Hij) as Hle.
  assert (a.2 <> b.2) as Hne.
  { intros Heq. pose proof (bsorted_of_NoDup_snd buckets n) as Hnd.
    assert (i = j); [|lia].
    eapply NoDup_lookup; [exact Hnd| |]; rewrite list_lookup_fmap.
    - by rewrite Hi.
    - rewrite Hj. simpl. by rewrite Heq. }
  unfold flip, tuple_le in Hle. lia.
Qed.

Lemma process_cons size h bs buckets n st :
  process ((size, h) :: bs) buckets n st
  = if size =? 0 then Ret st
    else
      let st' := salt_loop salt_range (buckets !!! Z.to_nat h) size h n st in
      if salts st' !!! Z.to_nat h =? 0 then Raise SystemExit
      else process bs buckets n st'.
Proof. reflexivity. Qed.

Lemma process_nonempty_prefix bs buckets n st :
  process bs buckets n st = process (nonempty_prefix bs) buckets n st.
Proof.
  revert st. induction bs as [|[size h] bs IH]; intros st; [done|].
  rewrite process_cons. change (nonempty_prefix ((size, h) :: bs))
    with (if size =? 0 then [] else (size, h) :: nonempty_prefix bs).
  destruct (size =? 0) eqn:Hz; [done|]. rewrite process_cons, Hz.
  cbv zeta. destruct (salts _ !!! _ =? 0); [done|]. apply IH.
Qed.

Lemma nonempty_prefix_split (bs : list (Z * Z)) :
  StronglySorted (flip tuple_le) bs -> Forall (fun p => 0 <= p.1) bs ->
  exists back,
    bs = nonempty_prefix bs ++ back /\
    Forall (fun p => 0 < p.1) (nonempty_prefix bs) /\
    Forall (fun p => p.1 = 0) back.
Proof.
  induction 1 as [|[size h] bs Hs IH Hall]; intros Hpos.
  - exists []. repeat split; constructor.
  - apply Forall_cons in Hpos as [Hsize Hpos]. simpl in *.
    destruct (Z.eqb_spec size 0) as [->|Hne].
    + exists ((0, h) :: bs). repeat split; [constructor|].
      constructor; [done|].
      rewrite Forall_forall in Hall, Hpos. apply Forall_forall. intros [s' h'] Hin.
      specialize (Hall _ Hin). specialize (Hpos _ Hin).
      unfold flip, tuple_le in Hall. simpl in *. lia.
    + destruct (IH Hpos) as (back & Heq & Hfront & Hback).
      exists back. repeat split; [by rewrite <- app_comm_cons, <- Heq| |done].
      constructor; [simpl; lia|done].
Qed.

(** C5, as stated, fails: over the keys 5, 9, 100 and 257 the buckets 2
    and 0 both hold one key, and bucket 2 is processed before bucket 0. *)
Lemma bucket_ties_not_ascending :
  ~ spec_ties_ascending (bsorted_of (fill_buckets [5; 9; 100; 257] 4) 4).
Proof.
  intros H. specialize (H 1%nat 2%nat 1 2 0).
  assert (2 < 0); [|lia]. apply H; [by vm_compute..|lia].
Qed.

(** C5, amended: the buckets are taken in the order of [bsorted], which
    lists every bucket index of [[0, n)] once with its occupancy, by
    descending occupancy and, between buckets of equal occupancy, by
    descending bucket index; the nonempty buckets come before the empty
    ones, and the loop stops at the first empty bucket, so that it handles
    the nonempty buckets only. *)
Theorem bucket_processing_order (d : list Z) :
  let n := Z.of_nat (length d) in
  let buckets := fill_buckets d n in
  let bsorted := bsorted_of buckets n in
  (forall size h, (size, h) ∈ bsorted <->
     0 <= h < n /\ size = Z.of_nat (length (buckets !!! Z.to_nat h))) /\
  NoDup bsorted.*2 /\
  (forall (i j : nat) a b, bsorted !! i = Some a -> bsorted !! j = Some b -> (i < j)%nat ->
     b.1 < a.1 \/ (b.1 = a.1 /\ b.2 < a.2)) /\
  (exists back,
     bsorted = nonempty_prefix bsorted ++ back /\
     Forall (fun p => 0 < p.1) (nonempty_prefix bsorted) /\
     Forall (fun p => p.1 = 0) back) /\
  (forall st, process bsorted buckets n st = process (nonempty_prefix bsorted) buckets n st).
Proof.
  intros n buckets bsorted.
  split; [apply elem_of_bsorted_of|].
  split; [apply bsorted_of_NoDup_snd|].
  split; [apply bsorted_of_descending|].
  split; [|intros st; apply process_nonempty_prefix].
  apply nonempty_prefix_split; [apply bsorted_of_sorted|].
  apply Forall_forall. intros [size h] Hin.
  apply elem_of_bsorted_of in Hin as [_ ->]. simpl. lia.
Qed.

Lemma bucket_processing_order_witness :
  let bsorted := bsorted_of (fill_buckets [5; 9; 100; 257] 4) 4 in
  bsorted !! 1%nat = Some (1, 2) /\ bsorted !! 2%nat = Some (1, 0) /\
  ((1, 0).1 < (1, 2).1 \/ ((1, 0).1 = (1, 2).1 /\ (1, 0).2 < (1, 2).2)).
Proof.
  intros bsorted.
  split; [by vm_compute|]. split; [by vm_compute|].
  apply (proj1 (proj2 (proj2 (bucket_processing_order [5; 9; 100; 257]))) 1%nat 2%nat);
    [by vm_compute|by vm_compute|lia].
Defined.

(** ** The buckets *)

Local Abbreviation slot key salt n := (Z.to_nat (my_hash key salt n)).

Lemma foldl_add_key_lookup n d bs (h : nat) :
  foldl (add_key n) bs d !! h
  = (fun b => b ++ filter (fun k => slot k 0 n = h) d) <$> bs !! h.
Proof.
  revert bs. induction d as [|k d IH]; intros bs; simpl.
  - destruct (bs !! h); simpl; [|done]. by rewrite app_nil_r.
  - rewrite IH. unfold add_key. rewrite filter_cons.
    destruct (decide (slot k 0 n = h)) as [->|Hne].
    + rewrite list_lookup_alter_eq. destruct (bs !! _); simpl; [|done].
      by rewrite <- app_assoc.
    + by rewrite list_lookup_alter_ne.
Qed.

Lemma fill_buckets_lookup d n (h : nat) :
  (h < Z.to_nat n)%nat ->
  fill_buckets d n !!! h = filter (fun k => slot k 0 n = h) d.
Proof.
  intros Hh. apply list_lookup_total_correct. unfold fill_buckets.
  rewrite foldl_add_key_lookup, lookup_replicate_2 by done. done.
Qed.

Lemma elem_of_fill_buckets d n h key :
  0 <= h < n ->
  key ∈ fill_buckets d n !!! Z.to_nat h <-> key ∈ d /\ my_hash key 0 n = h.
Proof.
  intros Hh. rewrite fill_buckets_lookup by lia. rewrite list_elem_of_filter.
  pose proof (my_hash_range key 0 n). split; intros [? ?]; split; auto; lia.
Qed.

Lemma NoDup_classes {A B} `{EqDecision B} (f : A -> B) (l : list A) :
  (forall b, NoDup (filter (fun x => f x = b) l)) -> NoDup l.
Proof.
  induction l as [|x l IH]; intros H; constructor.
  - intros Hin. specialize (H (f x)). rewrite filter_cons_True in H by done.
    apply NoDup_cons in H as [Hx _]. apply Hx. by apply list_elem_of_filter.
  - apply IH. intros b. specialize (H b). rewrite filter_cons in H.
    case_decide; [by apply NoDup_cons in H as [_ ?]|done].
Qed.

(** ** Placing the keys of a bucket *)

Lemma foldl_place_frame salt n b st :
  let st' := foldl (place salt n) st b in
  salts st' = salts st /\
  length (claimed st') = length (claimed st) /\
  length (keys st') = length (keys st) /\
  forall i : nat, (forall key, key ∈ b -> slot key salt n <> i) ->
    claimed st' !! i = claimed st !! i /\ keys st' !! i = keys st !! i.
Proof.
  revert st. induction b as [|k b IH]; intros st.
  - cbn [foldl]. auto.
  - cbn [foldl]. destruct (IH (place salt n st k)) as (Hs & Hc & Hk & Hframe).
    cbv zeta. rewrite Hs, Hc, Hk. unfold place at 1 2 3. cbn [salts claimed keys].
    rewrite !length_insert.
    split; [reflexivity|]. split; [reflexivity|]. split; [reflexivity|].
    intros i Hi. destruct (Hframe i) as [Hc' Hk'].
    { intros key Hkey. apply Hi. by right. }
    rewrite Hc', Hk'. unfold place. cbn [salts claimed keys].
    assert (slot k salt n <> i) as Hne by (apply Hi; by left).
    by rewrite !list_lookup_insert_ne.
Qed.

Lemma foldl_place_keys salt n b st :
  NoDup ((fun key => slot key salt n) <$> b) ->
  (forall key, key ∈ b ->
     (slot key salt n < length (claimed st))%nat /\ (slot key salt n < length (keys st))%nat) ->
  forall key, key ∈ b ->
    claimed (foldl (place salt n) st b) !! slot key salt n = Some true /\
    keys (foldl (place salt n) st b) !! slot key salt n = Some key.
Proof.
  revert st. induction b as [|k b IH]; intros st Hnd Hlen key Hin.
  - by apply elem_of_nil in Hin.
  - cbn [foldl]. rewrite fmap_cons in Hnd. apply NoDup_cons in Hnd as [Hk Hnd].
    apply elem_of_cons in Hin as [->|Hin].
    + destruct (foldl_place_frame salt n b (place salt n st k)) as (_ & _ & _ & Hframe).
      destruct (Hframe (slot k salt n)) as [-> ->].
      * intros key Hkey Heq. apply Hk. apply list_elem_of_fmap. by exists key.
      * destruct (Hlen k) as [? ?]; [by left|].
        unfold place. cbn [salts claimed keys]. by rewrite !list_lookup_insert_eq.
    + apply IH; [done| |done]. intros key' Hkey'.
      unfold place. cbn [salts claimed keys]. rewrite !length_insert.
      apply Hlen. by right.
Qed.

(** ** The search for a salt *)

Lemma size_list_to_set_le (l : list Z) : (size (list_to_set l : gset Z) <= length l)%nat.
Proof.
  induction l as [|x l IH]; [done|].
  rewrite list_to_set_cons. cbn [length].
  pose proof (size_union_alt ({[x]} : gset Z) (list_to_set l)) as Hu.
  rewrite size_singleton in Hu.
  assert (list_to_set l ∖ {[x]} ⊆ (list_to_set l : gset Z)) as H'
    by (by apply subseteq_difference_l).
  apply subseteq_size in H'. lia.
Qed.

Lemma size_list_to_set_NoDup (l : list Z) :
  (length l <= size (list_to_set l : gset Z))%nat -> NoDup l.
Proof.
  induction l as [|x l IH]; intros Hsz; constructor.
  - intros Hin. rewrite list_to_set_cons in Hsz. cbn [length] in Hsz.
    assert ({[x]} ∪ list_to_set l = (list_to_set l : gset Z)) as Heq.
    { apply set_eq. intros y. rewrite elem_of_union, elem_of_singleton, elem_of_list_to_set.
      split; [by intros [->|?]|by right]. }
    rewrite Heq in Hsz. pose proof (size_list_to_set_le l). lia.
  - apply IH. rewrite list_to_set_cons in Hsz. cbn [length] in Hsz.
    pose proof (size_union_alt ({[x]} : gset Z) (list_to_set l)) as H1.
    rewrite size_singleton in H1.
    assert (list_to_set l ∖ {[x]} ⊆ (list_to_set l : gset Z)) as H2
      by (by apply subseteq_difference_l).
    apply subseteq_size in H2. lia.
Qed.

Lemma forallb_unclaimed st salt n bucket :
  forallb (fun hash => negb (claimed st !!! Z.to_nat hash))
    ((fun key => my_hash key salt n) <$> bucket) = true
  <-> Forall (fun key => claimed st !!! slot key salt n = false) bucket.
Proof.
  induction bucket as [|k b IH].
  - split; [constructor|done].
  - rewrite fmap_cons. cbn [forallb]. rewrite andb_true_iff, IH, Forall_cons.
    by rewrite negb_true_iff.
Qed.

Lemma salt_loop_cons salt rest bucket bucket_size h n st :
  salt_loop (salt :: rest) bucket bucket_size h n st
  = if forallb (fun hash => negb (claimed st !!! Z.to_nat hash))
         ((fun key => my_hash key salt n) <$> bucket)
    then
      if Z.of_nat (size (list_to_set ((fun key => my_hash key salt n) <$> bucket) : gset Z))
         <? bucket_size
      then salt_loop rest bucket bucket_size h n st
      else
        foldl (place salt n)
          {| claimed := claimed st; salts := <[Z.to_nat h := salt]> (salts st);
             keys := keys st |} bucket
    else salt_loop rest bucket bucket_size h n st.
Proof. reflexivity. Qed.

Lemma salt_loop_cases candidates bucket bucket_size h n st :
  (salt_loop candidates bucket bucket_size h n st = st /\
   forall salt, salt ∈ candidates -> ~ accepted st bucket bucket_size n salt) \/
  exists salt,
    salt ∈ candidates /\ accepted st bucket bucket_size n salt /\
    salt_loop candidates bucket bucket_size h n st
    = foldl (place salt n)
        {| claimed := claimed st; salts := <[Z.to_nat h := salt]> (salts st);
           keys := keys st |} bucket.
Proof.
  induction candidates as [|salt rest IH].
  - left. split; [done|]. intros salt Hin. by apply elem_of_nil in Hin.
  - rewrite salt_loop_cons.
    destruct (forallb _ _) eqn:Hfree.
    + destruct (Z.ltb_spec
        (Z.of_nat (size (list_to_set ((fun key => my_hash key salt n) <$> bucket) : gset Z)))
        bucket_size) as [Hlt|Hge].
      * destruct IH as [[Heq Hnone]|(s & Hin & Hacc & Heq)].
        -- left. split; [done|]. intros s [->|Hin]%elem_of_cons; [|by apply Hnone].
           intros [_ Hsz]. lia.
        -- right. exists s. split; [by right|done].
      * right. exists salt. split; [by left|]. split; [|done].
        split; [by apply forallb_unclaimed|done].
    + destruct IH as [[Heq Hnone]|(s & Hin & Hacc & Heq)].
      * left. split; [done|]. intros s [->|Hin]%elem_of_cons; [|by apply Hnone].
        intros [Hfree' _]. apply forallb_unclaimed in Hfree'. congruence.
      * right. exists s. split; [by right|done].
Qed.

(** ** The invariant of the construction *)

Lemma mph_inv_ext buckets n st (P Q : Z -> Prop) :
  (forall h, P h <-> Q h) -> mph_inv buckets n st P -> mph_inv buckets n st Q.
Proof.
  intros HPQ [Hc Hs Hk Hr Hd Ht]. constructor; try done.
  - intros h Hh. apply Hr. by apply HPQ.
  - intros h Hh. apply Hd. by apply HPQ.
  - intros h Hh Hn. apply Ht; [done|]. intros HP. apply Hn. by apply HPQ.
Qed.

Lemma mph_inv_init buckets n : mph_inv buckets n (init_state n) (fun _ => False).
Proof.
  constructor; unfold init_state; cbn [claimed salts keys];
    rewrite ?length_replicate; try done.
  intros h Hh _. apply lookup_replicate_2. lia.
Qed.

Lemma elem_of_salt_range salt : salt ∈ salt_range <-> 1 <= salt < 32768.
Proof. unfold salt_range. apply elem_of_range. Qed.

Lemma NoDup_slots salt n bucket :
  0 < n ->
  NoDup ((fun key => my_hash key salt n) <$> bucket) ->
  NoDup ((fun key => slot key salt n) <$> bucket).
Proof.
  intros Hn Hnd.
  change (fun key => slot key salt n) with (Z.to_nat ∘ (fun key => my_hash key salt n)).
  rewrite list_fmap_compose. apply NoDup_fmap_2_strong; [|done].
  intros x y [kx [-> _]]%list_elem_of_fmap [ky [-> _]]%list_elem_of_fmap Heq.
  pose proof (my_hash_range kx salt n Hn). pose proof (my_hash_range ky salt n Hn). lia.
Qed.

Lemma mph_inv_step buckets n st (done : Z -> Prop) h :
  0 < n -> mph_inv buckets n st done -> 0 <= h < n -> ~ done h ->
  (salts (salt_loop salt_range (buckets !!! Z.to_nat h)
            (Z.of_nat (length (buckets !!! Z.to_nat h))) h n st) !!! Z.to_nat h =? 0) = false ->
  mph_inv buckets n
    (salt_loop salt_range (buckets !!! Z.to_nat h)
       (Z.of_nat (length (buckets !!! Z.to_nat h))) h n st)
    (fun h' => done h' \/ h' = h).
Proof.
  intros Hn [Hc Hs Hk Hr Hd Ht] Hh Hnew Hsalt.
  set (bucket := buckets !!! Z.to_nat h) in *.
  destruct (salt_loop_cases salt_range bucket (Z.of_nat (length bucket)) h n st)
    as [[Heq _]|(salt & Hin & [Hfree Hsize] & Heq)]; rewrite Heq in *.
  { rewrite (list_lookup_total_correct _ _ _ (Ht h Hh Hnew)) in Hsalt. done. }
  clear Heq Hsalt. apply elem_of_salt_range in Hin.
  assert (NoDup ((fun key => my_hash key salt n) <$> bucket)) as Hnd.
  { apply size_list_to_set_NoDup. rewrite length_fmap. lia. }
  set (st1 := {| claimed := claimed st; salts := <[Z.to_nat h:=salt]> (salts st);
                 keys := keys st |}).
  destruct (foldl_place_frame salt n bucket st1) as (Hs' & Hc' & Hk' & Hframe).
  cbv zeta in Hs', Hc', Hk', Hframe.
  constructor.
  - by rewrite Hc'.
  - rewrite Hs'. unfold st1. cbn [salts]. by rewrite length_insert.
  - by rewrite Hk'.
  - intros h' [Hh'| ->]; auto.
  - intros h' [Hh'| ->].
    + destruct (Hd h' Hh') as (salt' & Hsalt' & Hrange' & Hnd' & Hkeys').
      exists salt'. split; [|split; [done|split; [done|]]].
      * rewrite Hs'. unfold st1. cbn [salts]. rewrite list_lookup_insert_ne; [done|].
        pose proof (Hr h' Hh'). intros Heq. apply Hnew.
        assert (h' = h) as <- by lia. done.
      * intros key Hkey. destruct (Hkeys' key Hkey) as [Hcl Hky].
        destruct (Hframe (slot key salt' n)) as [-> ->]; [|done].
        intros key2 Hkey2 Heq2. rewrite Forall_forall in Hfree.
        specialize (Hfree key2 Hkey2). rewrite Heq2 in Hfree.
        rewrite (list_lookup_total_correct _ _ _ Hcl) in Hfree. done.
    + exists salt. split; [|split; [done|split]].
      * rewrite Hs'. unfold st1. cbn [salts]. apply list_lookup_insert_eq. lia.
      * by apply NoDup_fmap_1 in Hnd.
      * apply foldl_place_keys; [by apply NoDup_slots|].
        intros key _. unfold st1. cbn [claimed keys]. rewrite Hc, Hk.
        pose proof (my_hash_range key salt n Hn). lia.
  - intros h' Hh' Hnot. rewrite Hs'. unfold st1. cbn [salts].
    rewrite list_lookup_insert_ne.
    + apply Ht; [done|]. intros Hdone. apply Hnot. by left.
    + intros Heq. apply Hnot. right. lia.
Qed.

Lemma process_inv buckets n bs :
  0 < n ->
  forall st (done : Z -> Prop) st',
    mph_inv buckets n st done -> NoDup bs.*2 ->
    (forall size h, (size, h) ∈ bs ->
       0 <= h < n /\ size = Z.of_nat (length (buckets !!! Z.to_nat h)) /\ ~ done h) ->
    process bs buckets n st = Ret st' ->
    mph_inv buckets n st' (fun h => done h \/ h ∈ (nonempty_prefix bs).*2).
Proof.
  intros Hn. induction bs as [|[size h] bs IH]; intros st done st' Hinv Hnd Hbs Hrun.
  - injection Hrun as <-. eapply mph_inv_ext; [|exact Hinv].
    intros h. cbn. rewrite elem_of_nil. tauto.
  - rewrite process_cons in Hrun.
    change (nonempty_prefix ((size, h) :: bs))
      with (if size =? 0 then [] else (size, h) :: nonempty_prefix bs).
    destruct (Hbs size h) as (Hh & -> & Hnew); [by left|].
    rewrite fmap_cons in Hnd. apply NoDup_cons in Hnd as [Hfresh Hnd].
    destruct (_ =? 0) eqn:Hz in Hrun.
    + rewrite Hz. injection Hrun as <-. eapply mph_inv_ext; [|exact Hinv].
      intros h'. cbn. rewrite elem_of_nil. tauto.
    + rewrite Hz. cbv zeta in Hrun.
      destruct (salts _ !!! _ =? 0) eqn:Hsalt in Hrun; [done|].
      pose proof (mph_inv_step buckets n st done h Hn Hinv Hh Hnew Hsalt) as Hinv1.
      specialize (IH _ _ st' Hinv1 Hnd).
      eapply mph_inv_ext; [|apply IH; [|exact Hrun]].
      * intros h'. rewrite fmap_cons, elem_of_cons. cbn. tauto.
      * intros size' h' Hin. destruct (Hbs size' h') as (? & ? & ?); [by right|].
        split; [done|]. split; [done|]. intros [?| ->]; [done|].
        apply Hfresh. apply list_elem_of_fmap. by exists (size', h).
Qed.

Lemma elem_of_nonempty_prefix buckets n h :
  h ∈ (nonempty_prefix (bsorted_of buckets n)).*2
  <-> 0 <= h < n /\ buckets !!! Z.to_nat h <> [].
Proof.
  destruct (nonempty_prefix_split (bsorted_of buckets n)) as (back & Heq & Hfront & Hback).
  { apply bsorted_of_sorted. }
  { apply Forall_forall. intros [size h'] [_ ->]%elem_of_bsorted_of. cbn. lia. }
  rewrite Forall_forall in Hfront, Hback. split.
  - intros ([size h'] & -> & Hin)%list_elem_of_fmap. cbn.
    pose proof (Hfront _ Hin) as Hpos.
    assert ((size, h') ∈ bsorted_of buckets n) as Hin'.
    { rewrite Heq. apply elem_of_app. by left. }
    apply elem_of_bsorted_of in Hin' as [Hh ->]. split; [done|].
    intros Hnil. rewrite Hnil in Hpos. cbn in Hpos. lia.
  - intros [Hh Hne].
    assert ((Z.of_nat (length (buckets !!! Z.to_nat h)), h) ∈ bsorted_of buckets n) as Hin.
    { by apply elem_of_bsorted_of. }
    rewrite Heq in Hin. apply elem_of_app in Hin as [Hin|Hin].
    + apply list_elem_of_fmap. by eexists (_, h).
    + apply Hback in Hin. cbn in Hin. destruct (buckets !!! Z.to_nat h); [done|].
      cbn in Hin. lia.
Qed.

Lemma process_final buckets n st :
  0 < n ->
  process (bsorted_of buckets n) buckets n (init_state n) = Ret st ->
  mph_inv buckets n st (fun h => 0 <= h < n /\ buckets !!! Z.to_nat h <> []).
Proof.
  intros Hn Hrun.
  apply (mph_inv_ext _ _ _
    (fun h => False \/ h ∈ (nonempty_prefix (bsorted_of buckets n)).*2)).
  - intros h. rewrite elem_of_nonempty_prefix. tauto.
  - apply (process_inv buckets n (bsorted_of buckets n) Hn (init_state n) (fun _ => False));
      [apply mph_inv_init|apply bsorted_of_NoDup_snd| |exact Hrun].
    intros size h [Hh ->]%elem_of_bsorted_of. tauto.
Qed.

Lemma minimal_perfect_hash_run d ss ks :
  minimal_perfect_hash d = Ret (ss, ks) ->
  exists st,
    process (bsorted_of (fill_buckets d (Z.of_nat (length d))) (Z.of_nat (length d)))
      (fill_buckets d (Z.of_nat (length d))) (Z.of_nat (length d))
      (init_state (Z.of_nat (length d))) = Ret st /\
    ss = salts st /\ ks = keys st.
Proof.
  unfold minimal_perfect_hash. cbv zeta.
  destruct (process _ _ _ _) as [st| |]; [|done..].
  intros [= <- <-]. by exists st.
Qed.

(** ** The result of the construction *)

Section result.

Variable d : list Z.
Variable st : mph_state.

Let n : Z := Z.of_nat (length d).
Let buckets : list (list Z) := fill_buckets d n.

Hypothesis Hn : 0 < n.
Hypothesis Hinv : mph_inv buckets n st (fun h => 0 <= h < n /\ buckets !!! Z.to_nat h <> []).

Lemma result_lookup k :
  k ∈ d -> keys st !! slot k (salts st !!! Z.to_nat (my_hash k 0 n)) n = Some k.
Proof.
  intros Hk. pose proof (my_hash_range k 0 n Hn) as Hb.
  assert (k ∈ buckets !!! Z.to_nat (my_hash k 0 n)) as Hin.
  { by apply elem_of_fill_buckets. }
  destruct (inv_done _ _ _ _ Hinv (my_hash k 0 n)) as (salt & Hsalt & _ & _ & Hkeys).
  { split; [done|]. intros Hnil. rewrite Hnil in Hin. by apply elem_of_nil in Hin. }
  rewrite (list_lookup_total_correct _ _ _ Hsalt). by apply Hkeys.
Qed.

Lemma result_NoDup : NoDup d.
Proof.
  apply (NoDup_classes (fun k => slot k 0 n)). intros b.
  destruct (decide (b < Z.to_nat n)%nat) as [Hb|Hb].
  - rewrite <- (fill_buckets_lookup d n b Hb). fold buckets.
    destruct (buckets !!! b) as [|x l] eqn:Hbucket; [constructor|].
    destruct (inv_done _ _ _ _ Hinv (Z.of_nat b)) as (_ & _ & _ & Hnd & _).
    + rewrite Nat2Z.id, Hbucket. split; [lia|done].
    + by rewrite Nat2Z.id, Hbucket in Hnd.
  - destruct (filter _ d) as [|x l] eqn:Hf; [constructor|].
    assert (x ∈ filter (fun k => slot k 0 n = b) d) as Hx by (rewrite Hf; by left).
    apply list_elem_of_filter in Hx as [Hx _].
    pose proof (my_hash_range x 0 n Hn). lia.
Qed.

Lemma result_slot_lt k : (slot k (salts st !!! Z.to_nat (my_hash k 0 n)) n < length d)%nat.
Proof.
  pose proof (my_hash_range k (salts st !!! Z.to_nat (my_hash k 0 n)) n Hn).
  unfold n in *. lia.
Qed.

Lemma result_slots_perm :
  (fun k => slot k (salts st !!! Z.to_nat (my_hash k 0 n)) n) <$> d ≡ₚ seq 0 (length d).
Proof.
  apply submseteq_length_Permutation; [|by rewrite length_fmap, length_seq].
  apply NoDup_submseteq.
  - apply NoDup_fmap_2_strong; [|apply result_NoDup].
    intros x y Hx Hy Heq. apply result_lookup in Hx, Hy. rewrite Heq in Hx. congruence.
  - intros i (k & -> & _)%list_elem_of_fmap. apply elem_of_seq.
    pose proof (result_slot_lt k). lia.
Qed.

Lemma result_keys_perm : keys st ≡ₚ d.
Proof.
  assert (keys st = (fun i => keys st !!! i) <$> seq 0 (length d)) as ->.
  { apply list_eq. intros i. rewrite list_lookup_fmap.
    destruct (decide (i < length d)%nat) as [Hi|Hi].
    - rewrite lookup_seq_lt by done. cbn. apply list_lookup_lookup_total_lt.
      rewrite (inv_keys _ _ _ _ Hinv). unfold n. lia.
    - rewrite lookup_seq_ge by lia. cbn. apply lookup_ge_None.
      rewrite (inv_keys _ _ _ _ Hinv). unfold n. lia. }
  rewrite <- result_slots_perm, <- list_fmap_compose.
  match goal with |- ?f <$> d ≡ₚ d => assert (f <$> d = d) as Hid end; [|by rewrite Hid].
  rewrite <- (list_fmap_id d) at 2. apply list_fmap_ext.
  intros i k Hk. cbn. apply list_lookup_total_correct, result_lookup.
  by eapply list_elem_of_lookup_2.
Qed.

End result.

Lemma minimal_perfect_hash_inv d ss ks :
  d <> [] -> minimal_perfect_hash d = Ret (ss, ks) ->
  exists st,
    ss = salts st /\ ks = keys st /\
    mph_inv (fill_buckets d (Z.of_nat (length d))) (Z.of_nat (length d)) st
      (fun h => 0 <= h < Z.of_nat (length d) /\
                fill_buckets d (Z.of_nat (length d)) !!! Z.to_nat h <> []).
Proof.
  intros Hd Hrun. apply minimal_perfect_hash_run in Hrun as (st & Hrun & -> & ->).
  exists st. split; [done|]. split; [done|]. apply process_final; [|done].
  destruct d; [done|]. cbn [length]. lia.
Qed.

Lemma salt_loop_signal candidates bucket bucket_size h n st :
  Forall (fun salt => salt <> 0) candidates ->
  (Z.to_nat h < length (salts st))%nat -> salts st !!! Z.to_nat h = 0 ->
  salts (salt_loop candidates bucket bucket_size h n st) !!! Z.to_nat h = 0
  <-> forall salt, salt ∈ candidates -> ~ accepted st bucket bucket_size n salt.
Proof.
  intros Hnz Hlen Hzero.
  destruct (salt_loop_cases candidates bucket bucket_size h n st)
    as [[Heq Hnone]|(salt & Hin & Hacc & Heq)]; rewrite Heq.
  - done.
  - destruct (foldl_place_frame salt n bucket
      {| claimed := claimed st; salts := <[Z.to_nat h:=salt]> (salts st); keys := keys st |})
      as (Hs & _). cbv zeta in Hs. rewrite Hs. cbn [salts].
    rewrite list_lookup_total_insert_eq by done.
    rewrite Forall_forall in Hnz. split.
    + intros ->. by destruct (Hnz 0 Hin).
    + intros Hnone. by destruct (Hnone salt Hin).
Qed.

(** C1: when the construction succeeds on the keys [d], the arrays of salts
    and of keys both have as many entries as there are keys; every key [k]
    is found at the slot [my_hash k salts[my_hash k 0 n] n] of the array of
    keys; the array of keys is a rearrangement of [d], whose keys are
    pairwise different; and every slot below [n] holds exactly one key of
    [d], the one that is rehashed to it. *)
Theorem minimal_perfect_hash_correct (d ss ks : list Z) :
  minimal_perfect_hash d = Ret (ss, ks) ->
  let n := Z.of_nat (length d) in
  let rehash := fun k => Z.to_nat (my_hash k (ss !!! Z.to_nat (my_hash k 0 n)) n) in
  length ss = length d /\ length ks = length d /\
  (forall k, k ∈ d -> ks !! rehash k = Some k) /\
  ks ≡ₚ d /\ NoDup d /\
  (forall i : nat, (i < length d)%nat ->
     exists k, k ∈ d /\ ks !! i = Some k /\ rehash k = i /\
               forall k', k' ∈ d -> rehash k' = i -> k' = k).
Proof.
  intros Hrun n rehash.
  destruct d as [|k0 d0].
  { vm_compute in Hrun. injection Hrun as <- <-.
    repeat split; try done; try constructor.
    - intros k Hk. by apply elem_of_nil in Hk.
    - intros i Hi. cbn in Hi. lia. }
  set (d := k0 :: d0) in *.
  destruct (minimal_perfect_hash_inv d ss ks) as (st & -> & -> & Hinv); [done..|].
  assert (0 < n) as Hn by (unfold n, d; cbn [length]; lia).
  pose proof (result_lookup d st Hn Hinv) as Hlookup.
  pose proof (result_NoDup d st Hn Hinv) as Hnd.
  pose proof (result_keys_perm d st Hn Hinv) as Hperm.
  split; [rewrite (inv_salts _ _ _ _ Hinv); unfold n; lia|].
  split; [rewrite (inv_keys _ _ _ _ Hinv); unfold n; lia|].
  split; [exact Hlookup|]. split; [exact Hperm|]. split; [exact Hnd|].
  intros i Hi.
  destruct (lookup_lt_is_Some_2 (keys st) i) as [k Hk].
  { rewrite (inv_keys _ _ _ _ Hinv). unfold n. lia. }
  assert (k ∈ d) as Hin.
  { rewrite <- Hperm. by eapply list_elem_of_lookup_2. }
  assert (NoDup (keys st)) as Hndk by (by rewrite Hperm).
  exists k. split; [done|]. split; [done|]. split.
  - eapply NoDup_lookup; [exact Hndk| |exact Hk]. by apply Hlookup.
  - intros k' Hk' Heq.
    assert (keys st !! rehash k' = Some k') as Hk'' by (by apply Hlookup).
    rewrite Heq in Hk''. congruence.
Qed.

Lemma minimal_perfect_hash_correct_witness :
  minimal_perfect_hash [5; 9; 100; 257] = Ret ([3; 0; 2; 2], [100; 257; 5; 9]) /\
  [100; 257; 5; 9] ≡ₚ [5; 9; 100; 257].
Proof.
  assert (minimal_perfect_hash [5; 9; 100; 257] = Ret ([3; 0; 2; 2], [100; 257; 5; 9])) as H
    by (vm_compute; reflexivity).
  split; [exact H|].
  exact (proj1 (proj2 (proj2 (proj2
    (minimal_perfect_hash_correct [5; 9; 100; 257] [3; 0; 2; 2] [100; 257; 5; 9] H))))).
Defined.

(** C10: when the construction succeeds on a nonempty set of keys, every
    entry of the array of salts lies in [[0, 32768)]: the entry of a
    nonempty bucket lies between 1 and 32767, the entry of an empty bucket
    is 0; and a salt still 0 after the search over [range(1, 32768)] means
    that the search accepted no salt. *)
Theorem salts_fit_16_bits (d ss ks : list Z) :
  d <> [] -> minimal_perfect_hash d = Ret (ss, ks) ->
  let n := Z.of_nat (length d) in
  let buckets := fill_buckets d n in
  (forall salt, salt ∈ ss -> 0 <= salt < 32768) /\
  (forall h, 0 <= h < n -> buckets !!! Z.to_nat h <> [] -> 1 <= ss !!! Z.to_nat h <= 32767) /\
  (forall h, 0 <= h < n -> buckets !!! Z.to_nat h = [] -> ss !!! Z.to_nat h = 0) /\
  (forall st bucket bucket_size h,
     (Z.to_nat h < length (salts st))%nat -> salts st !!! Z.to_nat h = 0 ->
     salts (salt_loop salt_range bucket bucket_size h n st) !!! Z.to_nat h = 0
     <-> forall salt, salt ∈ salt_range -> ~ accepted st bucket bucket_size n salt).
Proof.
  intros Hd Hrun n buckets.
  destruct (minimal_perfect_hash_inv d ss ks Hd Hrun) as (st & -> & -> & Hinv).
  fold n buckets in Hinv.
  assert (forall h, 0 <= h < n -> buckets !!! Z.to_nat h <> [] ->
            1 <= salts st !!! Z.to_nat h <= 32767) as Hfull.
  { intros h Hh Hne. destruct (inv_done _ _ _ _ Hinv h) as (salt & Hsalt & Hr & _); [done|].
    rewrite (list_lookup_total_correct _ _ _ Hsalt). lia. }
  assert (forall h, 0 <= h < n -> buckets !!! Z.to_nat h = [] ->
            salts st !!! Z.to_nat h = 0) as Hempty.
  { intros h Hh He. apply list_lookup_total_correct, (inv_todo _ _ _ _ Hinv); [done|].
    intros [_ Hne]. done. }
  split; [|split; [exact Hfull|split; [exact Hempty|]]].
  - intros salt [i Hi]%list_elem_of_lookup.
    pose proof (lookup_lt_Some _ _ _ Hi) as Hlt. rewrite (inv_salts _ _ _ _ Hinv) in Hlt.
    apply list_lookup_total_correct in Hi. rewrite <- (Nat2Z.id i) in Hi.
    destruct (buckets !!! Z.to_nat (Z.of_nat i)) eqn:Hb.
    + rewrite Hempty in Hi by (done || lia). lia.
    + pose proof (Hfull (Z.of_nat i)) as Hf. rewrite Hb, Hi in Hf.
      assert (1 <= salt <= 32767); [apply Hf; (done || lia)|lia].
  - intros st' bucket bucket_size h Hlen Hzero. apply salt_loop_signal; [|done..].
    apply Forall_forall. intros salt Hin%elem_of_salt_range. lia.
Qed.

Lemma salts_fit_16_bits_witness :
  minimal_perfect_hash [5; 9; 100; 257] = Ret ([3; 0; 2; 2], [100; 257; 5; 9]) /\
  forall salt, salt ∈ [3; 0; 2; 2] -> 0 <= salt < 32768.
Proof.
  assert (minimal_perfect_hash [5; 9; 100; 257] = Ret ([3; 0; 2; 2], [100; 257; 5; 9])) as H
    by (vm_compute; reflexivity).
  split; [exact H|].
  refine (proj1 (salts_fit_16_bits [5; 9; 100; 257] [3; 0; 2; 2] [100; 257; 5; 9] _ H)).
  discriminate.
Defined.

(** ** The decomposition resolver *)

Import UCD.

Lemma contains_true {V} (d : gmap Z V) (x : Z) : contains d x = true <-> is_Some (d !! x).
Proof. unfold contains. rewrite bool_decide_eq_true. apply elem_of_dom. Qed.

Lemma contains_false {V} (d : gmap Z V) (x : Z) : contains d x = false <-> d !! x = None.
Proof. unfold contains. rewrite bool_decide_eq_false. apply not_elem_of_dom. Qed.

Lemma is_hangul_range c : is_hangul c = true <-> 0xAC00 <= c < 0xAC00 + 19 * 21 * 28.
Proof.
  unfold is_hangul, S_BASE, S_COUNT, L_COUNT, V_COUNT, T_COUNT.
  rewrite andb_true_iff, Z.leb_le, Z.ltb_lt. done.
Qed.

Lemma expand_Ret rec decomp l :
  expand rec decomp = Ret l
  <-> exists ls, Forall2 (fun d l' => rec d = Ret l') decomp ls /\ l = concat ls.
Proof.
  revert l. induction decomp as [|d decomp IH]; intros l; cbn [expand].
  - split.
    + intros [= <-]. exists []. split; [constructor|done].
    + intros (ls & Hall & ->). by inversion Hall.
  - split.
    + destruct (rec d) as [l1| |] eqn:Hd; [|done..]. cbn.
      destruct (expand rec decomp) as [l2| |] eqn:He; [|done..]. cbn.
      intros [= <-]. destruct (proj1 (IH l2) eq_refl) as (ls & Hall & ->).
      exists (l1 :: ls). split; [by constructor|done].
    + intros (ls & Hall & ->). inversion Hall as [|? l1 ? ls' Hd Hrest]; subst.
      rewrite Hd. cbn. rewrite (proj2 (IH (concat ls'))) by eauto. done.
Qed.

Lemma expand_mono (rec1 rec2 : Z -> outcome (list Z)) decomp :
  (forall d, rec1 d <> OutOfFuel -> rec2 d = rec1 d) ->
  expand rec1 decomp <> OutOfFuel -> expand rec2 decomp = expand rec1 decomp.
Proof.
  intros Hrec. induction decomp as [|d decomp IH]; cbn [expand]; [done|].
  intros Hne. destruct (rec1 d) as [l1| |] eqn:Hd; [| |done].
  - rewrite (Hrec d) by (rewrite Hd; done). rewrite Hd. cbn in *.
    destruct (expand rec1 decomp) as [l2| |] eqn:He; [| |done];
      rewrite IH by done; done.
  - rewrite (Hrec d) by (rewrite Hd; done). by rewrite Hd.
Qed.

Lemma decompose_S fuel cd cpd c compatible :
  _decompose (S fuel) cd cpd c compatible
  = if c <=? 0x7f then Ret [c]
    else
      _ ← assert (negb (is_hangul c));
      match cd !! c with
      | Some decomp => expand (fun d => _decompose fuel cd cpd d compatible) decomp
      | None =>
          if compatible && contains cpd c then
            decomp ← getitem cpd c;
            expand (fun d => _decompose fuel cd cpd d compatible) decomp
          else Ret [c]
      end.
Proof. reflexivity. Qed.

Lemma decompose_mono_S fuel cd cpd c compatible :
  _decompose fuel cd cpd c compatible <> OutOfFuel ->
  _decompose (S fuel) cd cpd c compatible = _decompose fuel cd cpd c compatible.
Proof.
  revert c. induction fuel as [|fuel IH]; intros c; [done|].
  rewrite (decompose_S (S fuel)), (decompose_S fuel).
  destruct (c <=? 0x7f); [done|].
  destruct (assert _) as [[]| |]; cbn; [|done..].
  destruct (cd !! c) as [decomp|].
  - apply expand_mono. intros d. apply IH.
  - destruct (compatible && contains cpd c); [|done].
    destruct (getitem cpd c) as [decomp| |]; cbn; [|done..].
    apply expand_mono. intros d. apply IH.
Qed.

Lemma decompose_mono fuel fuel' cd cpd c compatible :
  (fuel <= fuel')%nat ->
  _decompose fuel cd cpd c compatible <> OutOfFuel ->
  _decompose fuel' cd cpd c compatible = _decompose fuel cd cpd c compatible.
Proof.
  induction 1 as [|fuel' _ IH]; intros Hne; [done|].
  rewrite decompose_mono_S; [by apply IH|]. by rewrite IH.
Qed.

Lemma decomposes_common_fuel cd cpd compatible decomp ls :
  Forall2 (decomposes cd cpd compatible) decomp ls ->
  exists fuel, Forall2 (fun d l => _decompose fuel cd cpd d compatible = Ret l) decomp ls.
Proof.
  induction 1 as [|d l decomp ls [f1 Hd] _ [f2 IH]].
  - exists O. constructor.
  - exists (f1 `max` f2)%nat. constructor.
    + rewrite (decompose_mono f1) by (lia || by rewrite Hd). done.
    + eapply Forall2_impl; [exact IH|]. intros d' l' Hd'. cbn in Hd'.
      rewrite (decompose_mono f2) by (lia || by rewrite Hd'). done.
Qed.

Lemma decomposes_expand cd cpd compatible c decomp :
  (forall fuel, _decompose (S fuel) cd cpd c compatible
                = expand (fun d => _decompose fuel cd cpd d compatible) decomp) ->
  forall l, decomposes cd cpd compatible c l <-> expands cd cpd compatible decomp l.
Proof.
  intros Hstep l. split.
  - intros [[|fuel] Hrun]; [done|]. rewrite Hstep in Hrun.
    apply expand_Ret in Hrun as (ls & Hall & ->). exists ls. split; [|done].
    eapply Forall2_impl; [exact Hall|]. intros d l' Hd. by exists fuel.
  - intros (ls & Hall & ->). apply decomposes_common_fuel in Hall as [fuel Hall].
    exists (S fuel). rewrite Hstep. apply expand_Ret. by exists ls.
Qed.

Lemma decomposes_self cd cpd compatible c :
  (forall fuel, _decompose (S fuel) cd cpd c compatible = Ret [c]) ->
  forall l, decomposes cd cpd compatible c l <-> l = [c].
Proof.
  intros Hstep l. split.
  - intros [[|fuel] Hrun]; [done|]. rewrite Hstep in Hrun. by injection Hrun.
  - intros ->. exists 1%nat. apply Hstep.
Qed.

(** C2: [decompose c compatible] is [[c]] for every [c <= 0x7F], whatever
    [compatible] is; for a [c] above 0x7F outside the Hangul syllables, it
    is the in-order concatenation of the recursive decompositions of the
    members of the canonical decomposition of [c] when there is one, in
    both modes; otherwise, when [compatible] holds and [c] has a
    compatibility decomposition, the concatenation of the recursive
    decompositions of the members of that one; otherwise [[c]]. *)
Theorem decompose_spec (canon_decomp compat_decomp : gmap Z (list Z))
    (c : Z) (compatible : bool) :
  (c <= 0x7F -> forall l, decomposes canon_decomp compat_decomp compatible c l <-> l = [c]) /\
  (0x7F < c -> is_hangul c = false ->
   (forall decomp, canon_decomp !! c = Some decomp ->
      forall l, decomposes canon_decomp compat_decomp compatible c l
                <-> expands canon_decomp compat_decomp compatible decomp l) /\
   (canon_decomp !! c = None -> compatible = true ->
    forall decomp, compat_decomp !! c = Some decomp ->
      forall l, decomposes canon_decomp compat_decomp compatible c l
                <-> expands canon_decomp compat_decomp compatible decomp l) /\
   (canon_decomp !! c = None -> compatible = false \/ compat_decomp !! c = None ->
      forall l, decomposes canon_decomp compat_decomp compatible c l <-> l = [c])).
Proof.
  split.
  - intros Hc. apply decomposes_self. intros fuel. rewrite decompose_S.
    by rewrite (proj2 (Z.leb_le _ _) Hc).
  - intros Hc Hh.
    assert (forall fuel, _decompose (S fuel) canon_decomp compat_decomp c compatible
      = match canon_decomp !! c with
        | Some decomp =>
            expand (fun d => _decompose fuel canon_decomp compat_decomp d compatible) decomp
        | None =>
            if compatible && contains compat_decomp c then
              decomp ← getitem compat_decomp c;
              expand (fun d => _decompose fuel canon_decomp compat_decomp d compatible) decomp
            else Ret [c]
        end) as Hstep.
    { intros fuel. rewrite decompose_S.
      rewrite (proj2 (Z.leb_gt _ _) Hc), Hh. done. }
    split; [|split].
    + intros decomp Hcanon. apply decomposes_expand. intros fuel.
      by rewrite Hstep, Hcanon.
    + intros Hcanon -> decomp Hcompat. apply decomposes_expand. intros fuel.
      rewrite Hstep, Hcanon. unfold getitem.
      rewrite (proj2 (contains_true compat_decomp c)) by (by rewrite Hcompat).
      by rewrite Hcompat.
    + intros Hcanon Hno. apply decomposes_self. intros fuel.
      rewrite Hstep, Hcanon. destruct Hno as [->|Hno]; [done|].
      rewrite (proj2 (contains_false compat_decomp c) Hno).
      by rewrite andb_false_r.
Qed.

Lemma decompose_spec_witness :
  let canon_decomp : gmap Z (list Z) :=
    {[ 0x1EA6 := [0xC2; 0x300]; 0xC2 := [0x41; 0x302] ]} in
  let compat_decomp : gmap Z (list Z) := {[ 0xA0 := [0x20] ]} in
  decomposes canon_decomp compat_decomp false 0x1EA6 [0x41; 0x302; 0x300] /\
  decomposes canon_decomp compat_decomp true 0xA0 [0x20] /\
  decomposes canon_decomp compat_decomp false 0xA0 [0xA0] /\
  decomposes canon_decomp compat_decomp true 0x41 [0x41].
Proof.
  intros canon_decomp compat_decomp. repeat split.
  - apply (proj1 (proj2 (decompose_spec canon_decomp compat_decomp 0x1EA6 false)
             ltac:(lia) ltac:(reflexivity)) [0xC2; 0x300] ltac:(reflexivity)).
    exists [[0x41; 0x302]; [0x300]]. split; [|reflexivity].
    repeat constructor; exists 2%nat; reflexivity.
  - apply (proj1 (proj2 (proj2 (decompose_spec canon_decomp compat_decomp 0xA0 true)
             ltac:(lia) ltac:(reflexivity))) ltac:(reflexivity) ltac:(reflexivity)
             [0x20] ltac:(reflexivity)).
    exists [[0x20]]. split; [|reflexivity].
    repeat constructor; exists 1%nat; reflexivity.
  - apply (proj2 (proj2 (proj2 (decompose_spec canon_decomp compat_decomp 0xA0 false)
             ltac:(lia) ltac:(reflexivity))) ltac:(reflexivity) ltac:(by left)).
    reflexivity.
  - apply (proj1 (decompose_spec canon_decomp compat_decomp 0x41 true) ltac:(lia)).
    reflexivity.
Defined.

(** ** The canonical composition table *)

Lemma excluded_false comp_exclusions c :
  excluded comp_exclusions c = false
  <-> forall lo hi, (lo, hi) ∈ comp_exclusions -> ~ (lo <= c <= hi).
Proof.
  unfold excluded. induction comp_exclusions as [|[lo hi] cx IH]; cbn [existsb].
  - split; [|done]. intros _ lo hi Hin. by apply elem_of_nil in Hin.
  - rewrite orb_false_iff, IH, andb_false_iff, Z.leb_gt, Z.leb_gt. split.
    + intros [Hout Hrest] lo' hi' [[= -> ->]|Hin]%elem_of_cons; [lia|by apply Hrest].
    + intros Hall. split.
      * assert (~ (lo <= c <= hi)) by (apply Hall; by left). lia.
      * intros lo' hi' Hin. apply Hall. by right.
Qed.

Lemma comp_step_Ret (cx : list (Z * Z)) (m m' : gmap (Z * Z) Z) (c : Z) (decomp : list Z) :
  comp_step cx m (c, decomp) = Ret m' <->
  (excluded cx c = true /\ m' = m) \/
  (excluded cx c = false /\
   exists d0 d1, decomp = [d0; d1] /\ m !! (d0, d1) = None /\ m' = <[(d0, d1) := c]> m).
Proof.
  unfold comp_step. destruct (excluded cx c).
  - split; [intros [= <-]; by left|]. intros [[_ ->]|[? _]]; done.
  - destruct decomp as [|d0 [|d1 [|d2 decomp]]]; cbn;
      try (split; [done|intros [[? _]|(_ & ? & ? & ? & _)]; done]).
    destruct (decide ((d0, d1) ∈ dom m)) as [Hin|Hin].
    + rewrite bool_decide_eq_true_2 by done. cbn.
      split; [done|]. intros [[? _]|(_ & ? & ? & [= <- <-] & Hnone & _)]; [done|].
      by apply not_elem_of_dom in Hnone.
    + rewrite bool_decide_eq_false_2 by done. cbn. apply not_elem_of_dom in Hin. split.
      * intros [= <-]. right. split; [done|]. by exists d0, d1.
      * intros [[? _]|(_ & ? & ? & [= <- <-] & _ & ->)]; done.
Qed.

Lemma comp_step_outcome (cx : list (Z * Z)) (m : gmap (Z * Z) Z) (item : Z * list Z) :
  (exists m', comp_step cx m item = Ret m') \/ comp_step cx m item = Raise AssertionError.
Proof.
  destruct item as [c decomp]. unfold comp_step, assert.
  destruct (excluded cx c); [left; by eexists|].
  destruct (length decomp =? 2)%nat; cbn; [|by right].
  destruct (negb _); cbn; [left; by eexists|by right].
Qed.

Lemma comp_fold_outcome (cx : list (Z * Z)) (items : list (Z * list Z)) (m : gmap (Z * Z) Z) :
  (exists m', foldM (comp_step cx) m items = Ret m')
  \/ foldM (comp_step cx) m items = Raise AssertionError.
Proof.
  revert m. induction items as [|item items IH]; intros m; cbn [foldM]; [by left; eexists|].
  destruct (comp_step_outcome cx m item) as [[m1 ->]| ->]; cbn; [apply IH|by right].
Qed.

Lemma comp_fold_mono (cx : list (Z * Z)) (items : list (Z * list Z)) (m m' : gmap (Z * Z) Z) k v :
  foldM (comp_step cx) m items = Ret m' -> m !! k = Some v -> m' !! k = Some v.
Proof.
  revert m. induction items as [|[c decomp] items IH]; intros m Hrun Hk; cbn [foldM] in Hrun.
  - by injection Hrun as <-.
  - destruct (comp_step cx m (c, decomp)) as [m1| |] eqn:Hstep; [|done..].
    apply (IH m1 Hrun).
    apply comp_step_Ret in Hstep as [[_ ->]|(_ & d0 & d1 & _ & Hnone & ->)]; [done|].
    rewrite lookup_insert_ne; [done|]. intros <-. congruence.
Qed.

Lemma comp_fold_complete (cx : list (Z * Z)) (items : list (Z * list Z)) (m m' : gmap (Z * Z) Z) c decomp :
  foldM (comp_step cx) m items = Ret m' -> (c, decomp) ∈ items -> excluded cx c = false ->
  exists d0 d1, decomp = [d0; d1] /\ m' !! (d0, d1) = Some c.
Proof.
  revert m. induction items as [|item items IH]; intros m Hrun Hin Hex; cbn [foldM] in Hrun.
  - by apply elem_of_nil in Hin.
  - destruct (comp_step cx m item) as [m1| |] eqn:Hstep; [|done..]. cbn in Hrun.
    apply elem_of_cons in Hin as [<-|Hin]; [|by eapply IH].
    apply comp_step_Ret in Hstep as [[? _]|(_ & d0 & d1 & -> & _ & ->)]; [congruence|].
    exists d0, d1. split; [done|]. eapply comp_fold_mono; [exact Hrun|].
    apply lookup_insert_eq.
Qed.

Lemma comp_fold_sound (cx : list (Z * Z)) (items : list (Z * list Z)) (m m' : gmap (Z * Z) Z) c1 c2 c3 :
  foldM (comp_step cx) m items = Ret m' -> m' !! (c1, c2) = Some c3 ->
  m !! (c1, c2) = Some c3 \/ ((c3, [c1; c2]) ∈ items /\ excluded cx c3 = false).
Proof.
  revert m. induction items as [|[c decomp] items IH]; intros m Hrun Hk; cbn [foldM] in Hrun.
  - injection Hrun as <-. by left.
  - destruct (comp_step cx m (c, decomp)) as [m1| |] eqn:Hstep; [|done..]. cbn in Hrun.
    destruct (IH m1 Hrun Hk) as [Hm1|[Hin Hex]]; [|right; split; [by right|done]].
    apply comp_step_Ret in Hstep as [[_ ->]|(Hex & d0 & d1 & -> & _ & ->)]; [by left|].
    destruct (decide ((d0, d1) = (c1, c2))) as [[= -> ->]|Hne].
    + rewrite lookup_insert_eq in Hm1. injection Hm1 as ->. right. split; [by left|done].
    + rewrite lookup_insert_ne in Hm1 by done. by left.
Qed.

Lemma comp_fold_success (cx : list (Z * Z)) (items : list (Z * list Z)) (m : gmap (Z * Z) Z) :
  (forall c decomp, (c, decomp) ∈ items -> excluded cx c = false -> length decomp = 2%nat) ->
  (forall (i j : nat) c c' decomp,
     items !! i = Some (c, decomp) -> items !! j = Some (c', decomp) ->
     excluded cx c = false -> excluded cx c' = false -> i = j) ->
  (forall c d0 d1, (c, [d0; d1]) ∈ items -> excluded cx c = false -> m !! (d0, d1) = None) ->
  exists m', foldM (comp_step cx) m items = Ret m'.
Proof.
  revert m. induction items as [|[c decomp] items IH]; intros m Hlen Hinj Hfresh; cbn [foldM].
  - by eexists.
  - assert (forall c decomp, (c, decomp) ∈ items -> excluded cx c = false ->
              length decomp = 2%nat) as Hlen'.
    { intros c' decomp' Hin. apply Hlen. by right. }
    assert (forall (i j : nat) c c' decomp,
              items !! i = Some (c, decomp) -> items !! j = Some (c', decomp) ->
              excluded cx c = false -> excluded cx c' = false -> i = j) as Hinj'.
    { intros i j c1 c2 decomp' Hi Hj H1 H2.
      assert (S i = S j) by (by eapply Hinj). lia. }
    destruct (excluded cx c) eqn:Hex.
    + rewrite (proj2 (comp_step_Ret cx m m c decomp)) by (by left). cbn.
      apply IH; [done..|]. intros c' d0 d1 Hin. apply Hfresh. by right.
    + pose proof (Hlen c decomp ltac:(by left) Hex) as Hl.
      destruct decomp as [|d0 [|d1 [|d2 decomp]]]; try done.
      rewrite (proj2 (comp_step_Ret cx m (<[(d0, d1) := c]> m) c [d0; d1])); cbn.
      * apply IH; [done..|]. intros c' d0' d1' Hin Hex'.
        rewrite lookup_insert_ne; [apply (Hfresh c'); [by right|done]|].
        intros [= <- <-]. apply list_elem_of_lookup in Hin as [j Hj].
        by specialize (Hinj 0%nat (S j) c c' [d0; d1] eq_refl Hj Hex Hex').
      * right. split; [done|]. exists d0, d1. split; [done|]. split; [|done].
        apply (Hfresh c); [by left|done].
Qed.

(** The table for given intervals [comp_exclusions], as they come out of
    the records: it maps [(c1, c2)] to [c3] exactly when [[c1; c2]] is the
    canonical decomposition of [c3] and [c3] lies outside every interval;
    two codepoints outside the intervals with the same decomposition make
    the construction fail, as does a decomposition of another length
    outside the intervals; otherwise the table is built. *)
Lemma canonical_comp_intervals (int16 : string -> outcome Z)
    (norm_props : gmap string (list NormProps.record))
    (canon_decomp : gmap Z (list Z)) (items : list (Z * list Z))
    (comp_exclusions : list (Z * Z)) :
  items ≡ₚ map_to_list canon_decomp ->
  mapM (parse_exclusion int16)
    (default [] (norm_props !! "Full_Composition_Exclusion"%string)) = Ret comp_exclusions ->
  let result := _compute_canonical_comp int16 norm_props items in
  let outside := fun c => excluded comp_exclusions c = false in
  (forall c, outside c <-> forall lo hi, (lo, hi) ∈ comp_exclusions -> ~ (lo <= c <= hi)) /\
  (forall canon_comp, result = Ret canon_comp ->
     forall c1 c2 c3,
       canon_comp !! (c1, c2) = Some c3 <-> canon_decomp !! c3 = Some [c1; c2] /\ outside c3) /\
  (forall c c' decomp, c <> c' -> outside c -> outside c' ->
     canon_decomp !! c = Some decomp -> canon_decomp !! c' = Some decomp ->
     result = Raise AssertionError) /\
  ((exists canon_comp, result = Ret canon_comp) <->
   (forall c decomp, canon_decomp !! c = Some decomp -> outside c -> length decomp = 2%nat) /\
   (forall c c' decomp, outside c -> outside c' ->
      canon_decomp !! c = Some decomp -> canon_decomp !! c' = Some decomp -> c = c')) /\
  ((exists canon_comp, result = Ret canon_comp) \/ result = Raise AssertionError).
Proof.
  intros Hitems Hparse result outside.
  assert (result = foldM (comp_step comp_exclusions) ∅ items) as Hresult.
  { unfold result, _compute_canonical_comp. by rewrite Hparse. }
  assert (forall c decomp, (c, decomp) ∈ items <-> canon_decomp !! c = Some decomp) as Hin.
  { intros c decomp. rewrite Hitems. apply elem_of_map_to_list. }
  assert (NoDup items) as Hnd by (rewrite Hitems; apply NoDup_map_to_list).
  assert (forall canon_comp, result = Ret canon_comp ->
    forall c decomp, canon_decomp !! c = Some decomp -> outside c ->
      exists d0 d1, decomp = [d0; d1] /\ canon_comp !! (d0, d1) = Some c) as Hcomplete.
  { intros canon_comp Hrun c decomp Hc Hout. rewrite Hresult in Hrun.
    eapply comp_fold_complete; [exact Hrun| |exact Hout]. by apply Hin. }
  assert (forall c c' decomp, c <> c' -> outside c -> outside c' ->
     canon_decomp !! c = Some decomp -> canon_decomp !! c' = Some decomp ->
     result = Raise AssertionError) as Hdup.
  { intros c c' decomp Hne Hc Hc' Hd Hd'.
    destruct (comp_fold_outcome comp_exclusions items ∅) as [[m Hrun]|Hrun];
      rewrite <- Hresult in Hrun; [|done].
    destruct (Hcomplete m Hrun c decomp Hd Hc) as (d0 & d1 & -> & H1).
    destruct (Hcomplete m Hrun c' _ Hd' Hc') as (? & ? & [= <- <-] & H2). congruence. }
  split; [intros c; apply excluded_false|].
  split; [|split; [exact Hdup|split]].
  - intros canon_comp Hrun c1 c2 c3. split.
    + intros Hk. rewrite Hresult in Hrun.
      destruct (comp_fold_sound _ _ _ _ _ _ _ Hrun Hk) as [Hempty|[Hi Hex]]; [done|].
      split; [by apply Hin|done].
    + intros [Hd Hout]. destruct (Hcomplete _ Hrun _ _ Hd Hout) as (? & ? & [= <- <-] & ?).
      done.
  - split.
    + intros [canon_comp Hrun]. split.
      * intros c decomp Hd Hout. by destruct (Hcomplete _ Hrun _ _ Hd Hout) as (? & ? & -> & _).
      * intros c c' decomp Hc Hc' Hd Hd'. destruct (decide (c = c')) as [|Hne]; [done|].
        rewrite (Hdup c c' decomp) in Hrun; done.
    + intros [Hlen Hinj]. rewrite Hresult. apply comp_fold_success.
      * intros c decomp Hi. apply Hlen. by apply Hin.
      * intros i j c c' decomp Hi Hj Hc Hc'.
        assert (c = c') as <-.
        { eapply Hinj; [exact Hc|exact Hc'|apply Hin|apply Hin];
            by eapply list_elem_of_lookup_2. }
        by eapply NoDup_lookup.
      * done.
  - rewrite Hresult. apply comp_fold_outcome.
Qed.

Lemma bind_Ret {A B} (m : outcome A) (k : A -> outcome B) (b : B) :
  m ≫= k = Ret b -> exists a, m = Ret a /\ k a = Ret b.
Proof. destruct m as [a| |]; cbn; [|done..]. intros H. by exists a. Qed.

Lemma mapM_Ret {A B} (f : A -> outcome B) (l : list A) (k : list B) :
  mapM f l = Ret k <-> Forall2 (fun x y => f x = Ret y) l k.
Proof.
  revert k. induction l as [|x l IH]; intros k; cbn [mapM].
  - split; [intros [= <-]; constructor|by inversion 1].
  - destruct (f x) as [y| |] eqn:Hx; cbn.
    + destruct (mapM f l) as [k'| |] eqn:Hl; cbn.
      * split.
        -- intros [= <-]. constructor; [done|by apply IH].
        -- inversion 1 as [|? y' ? k'' Hy Hk]; subst. apply IH in Hk.
           injection Hk as <-. rewrite Hx in Hy. injection Hy as <-. done.
      * split; [done|]. inversion 1 as [|? y' ? k'' Hy Hk]; subst. by apply IH in Hk.
      * split; [done|]. inversion 1 as [|? y' ? k'' Hy Hk]; subst. by apply IH in Hk.
    + split; [done|]. inversion 1; congruence.
    + split; [done|]. inversion 1; congruence.
Qed.

Lemma parse_exclusion_interval int16 (r : NormProps.record) (lo hi : Z) :
  parse_exclusion int16 r = Ret (lo, hi) <-> record_interval int16 r lo hi.
Proof.
  destruct r as [[low high] data]. unfold parse_exclusion, record_interval. cbn [fst snd].
  destruct (String.eqb_spec high "") as [->|Hne].
  - rewrite decide_True by done. destruct (int16 low) as [v| |]; cbn; split.
    + by intros [= <- <-].
    + intros [[= <-] ->]. done.
    + done.
    + by intros [? _].
    + done.
    + by intros [? _].
  - rewrite decide_False by done.
    destruct (int16 low) as [v| |]; cbn; [|split; [done|by intros [? _]]..].
    destruct (int16 high) as [w| |]; cbn; split.
    + by intros [= <- <-].
    + by intros [[= <-] [= <-]].
    + done.
    + by intros [_ ?].
    + done.
    + by intros [_ ?].
Qed.

Lemma record_interval_det int16 r lo hi lo' hi' :
  record_interval int16 r lo hi -> record_interval int16 r lo' hi' -> lo = lo' /\ hi = hi'.
Proof.
  intros H1%parse_exclusion_interval H2%parse_exclusion_interval.
  rewrite H1 in H2. by injection H2.
Qed.

Lemma outside_excluded int16 norm_props (comp_exclusions : list (Z * Z)) :
  mapM (parse_exclusion int16) (exclusion_records norm_props) = Ret comp_exclusions ->
  forall c, excluded comp_exclusions c = false <-> outside_exclusions int16 norm_props c.
Proof.
  intros Hparse%mapM_Ret c. rewrite excluded_false. unfold outside_exclusions. split.
  - intros Hout r lo hi Hr Hiv.
    apply list_elem_of_lookup in Hr as [i Hi].
    destruct (Forall2_lookup_l _ _ _ _ _ Hparse Hi) as ([lo' hi'] & Hcx & Hiv').
    apply parse_exclusion_interval in Hiv'.
    destruct (record_interval_det _ _ _ _ _ _ Hiv Hiv') as [-> ->].
    apply Hout. by eapply list_elem_of_lookup_2.
  - intros Hout lo hi Hin. apply list_elem_of_lookup in Hin as [i Hi].
    destruct (Forall2_lookup_r _ _ _ _ _ Hparse Hi) as (r & Hr & Hiv).
    apply parse_exclusion_interval in Hiv.
    eapply Hout; [|exact Hiv]. by eapply list_elem_of_lookup_2.
Qed.

Lemma parse_exclusions_total int16 (records : list NormProps.record) :
  Forall (fun r => exists lo hi, record_interval int16 r lo hi) records ->
  exists comp_exclusions, mapM (parse_exclusion int16) records = Ret comp_exclusions.
Proof.
  induction 1 as [|r records (lo & hi & Hr) _ [cx IH]]; [by exists []|].
  exists ((lo, hi) :: cx). apply mapM_Ret. constructor.
  - by apply parse_exclusion_interval.
  - by apply mapM_Ret.
Qed.

(** C3, as stated, fails: a codepoint outside the intervals whose
    canonical decomposition has a single element is not passed over; the
    construction stops on its [assert], and no table is built. *)
Lemma canonical_comp_singleton_asserts :
  let canon_decomp : gmap Z (list Z) := {[ 0xC0 := [0x41; 0x300]; 0x340 := [0x300] ]} in
  _compute_canonical_comp hex_int ∅ (map_to_list canon_decomp) = Raise AssertionError /\
  ~ spec_composition_table_built hex_int ∅ canon_decomp.
Proof.
  intros canon_decomp.
  assert (_compute_canonical_comp hex_int ∅ (map_to_list canon_decomp)
          = Raise AssertionError) as Hrun by (vm_compute; reflexivity).
  split; [exact Hrun|]. intros (canon_comp & Hbuilt & _). congruence.
Qed.

(** C3, amended: the intervals are those of the records of
    [Full_Composition_Exclusion], [low] to [high] or [low] alone. When the
    table is built, every record is read, and the table maps [(c1, c2)] to
    [c3] exactly when [[c1; c2]] is the canonical decomposition of [c3] and
    [c3] lies outside every interval. With the records read, a codepoint
    outside the intervals whose decomposition has not two elements makes
    the construction fail on its [assert] (it is not passed over), and so
    do two codepoints outside the intervals with the same decomposition;
    otherwise the table is built. [items] is the content of [canon_decomp]
    in the order of iteration. *)
Theorem canonical_comp_spec (int16 : string -> outcome Z)
    (norm_props : gmap string (list NormProps.record))
    (canon_decomp : gmap Z (list Z)) (items : list (Z * list Z)) :
  items ≡ₚ map_to_list canon_decomp ->
  let result := _compute_canonical_comp int16 norm_props items in
  let outside := outside_exclusions int16 norm_props in
  let records_read :=
    Forall (fun r => exists lo hi, record_interval int16 r lo hi)
      (exclusion_records norm_props) in
  (forall canon_comp, result = Ret canon_comp ->
     records_read /\
     forall c1 c2 c3,
       canon_comp !! (c1, c2) = Some c3 <-> canon_decomp !! c3 = Some [c1; c2] /\ outside c3) /\
  (records_read ->
     (forall c decomp, canon_decomp !! c = Some decomp -> outside c ->
        length decomp <> 2%nat -> result = Raise AssertionError) /\
     (forall c c' decomp, c <> c' -> outside c -> outside c' ->
        canon_decomp !! c = Some decomp -> canon_decomp !! c' = Some decomp ->
        result = Raise AssertionError) /\
     ((exists canon_comp, result = Ret canon_comp) <->
      (forall c decomp, canon_decomp !! c = Some decomp -> outside c ->
         length decomp = 2%nat) /\
      (forall c c' decomp, outside c -> outside c' ->
         canon_decomp !! c = Some decomp -> canon_decomp !! c' = Some decomp -> c = c')) /\
     ((exists canon_comp, result = Ret canon_comp) \/ result = Raise AssertionError)).
Proof.
  intros Hitems result outside records_read.
  assert (forall cx,
    mapM (parse_exclusion int16) (exclusion_records norm_props) = Ret cx ->
    (forall c, excluded cx c = false <-> outside c) /\
    (forall canon_comp, result = Ret canon_comp ->
       forall c1 c2 c3,
         canon_comp !! (c1, c2) = Some c3 <->
         canon_decomp !! c3 = Some [c1; c2] /\ excluded cx c3 = false) /\
    (forall c c' decomp, c <> c' -> excluded cx c = false -> excluded cx c' = false ->
       canon_decomp !! c = Some decomp -> canon_decomp !! c' = Some decomp ->
       result = Raise AssertionError) /\
    ((exists canon_comp, result = Ret canon_comp) <->
     (forall c decomp, canon_decomp !! c = Some decomp -> excluded cx c = false ->
        length decomp = 2%nat) /\
     (forall c c' decomp, excluded cx c = false -> excluded cx c' = false ->
        canon_decomp !! c = Some decomp -> canon_decomp !! c' = Some decomp -> c = c')) /\
    ((exists canon_comp, result = Ret canon_comp) \/ result = Raise AssertionError)) as Hcx.
  { intros cx Hparse. split; [by apply outside_excluded|].
    exact (proj2 (canonical_comp_intervals int16 norm_props canon_decomp items cx
                    Hitems Hparse)). }
  split.
  - intros canon_comp Hrun.
    assert (exists cx, mapM (parse_exclusion int16) (exclusion_records norm_props) = Ret cx)
      as [cx Hparse].
    { unfold result, _compute_canonical_comp in Hrun.
      apply bind_Ret in Hrun as (cx & Hparse & _). by exists cx. }
    destruct (Hcx cx Hparse) as (Hout & Htable & _). split.
    + apply mapM_Ret in Hparse. apply Forall_forall. intros r Hr.
      apply list_elem_of_lookup in Hr as [i Hi].
      destruct (Forall2_lookup_l _ _ _ _ _ Hparse Hi) as ([lo hi] & _ & Hiv).
      exists lo, hi. by apply parse_exclusion_interval.
    + intros c1 c2 c3. rewrite (Htable canon_comp Hrun c1 c2 c3), (Hout c3). done.
  - intros Hread. destruct (parse_exclusions_total _ _ Hread) as [cx Hparse].
    destruct (Hcx cx Hparse) as (Hout & _ & Hdup & Hiff & Hcases).
    assert ((exists canon_comp, result = Ret canon_comp) <->
      (forall c decomp, canon_decomp !! c = Some decomp -> outside c ->
         length decomp = 2%nat) /\
      (forall c c' decomp, outside c -> outside c' ->
         canon_decomp !! c = Some decomp -> canon_decomp !! c' = Some decomp -> c = c'))
      as Hiff'.
    { rewrite Hiff. split; intros [Hlen Hinj]; split.
      - intros c decomp Hd Hc. apply (Hlen c decomp Hd). by apply Hout.
      - intros c c' decomp Hc Hc'. apply Hinj; by apply Hout.
      - intros c decomp Hd Hc. apply (Hlen c decomp Hd). by apply Hout.
      - intros c c' decomp Hc Hc'. apply Hinj; by apply Hout. }
    split; [|split; [|split; [exact Hiff'|exact Hcases]]].
    + intros c decomp Hd Hc Hlen.
      destruct Hcases as [Hok|Hfail]; [|done]. exfalso.
      apply Hiff' in Hok as [Hlen' _]. by apply (Hlen' c decomp) in Hd.
    + intros c c' decomp Hne Hc Hc'. apply Hdup; [done|by apply Hout..].
Qed.

Lemma canonical_comp_spec_witness :
  let norm_props : gmap string (list NormProps.record) :=
    {[ "Full_Composition_Exclusion"%string :=
         [("0340"%string, "0341"%string, None); ("0344"%string, ""%string, None)] ]} in
  let canon_decomp : gmap Z (list Z) :=
    {[ 0xC0 := [0x41; 0x300]; 0x340 := [0x300]; 0x341 := [0x301];
       0x344 := [0x308; 0x301] ]} in
  let canon_comp : gmap (Z * Z) Z := {[ (0x41, 0x300) := 0xC0 ]} in
  _compute_canonical_comp hex_int norm_props (map_to_list canon_decomp) = Ret canon_comp /\
  record_interval hex_int ("0340"%string, "0341"%string, None) 0x340 0x341 /\
  record_interval hex_int ("0344"%string, ""%string, None) 0x344 0x344 /\
  (canon_comp !! (0x308, 0x301) = Some 0x344 <->
   canon_decomp !! 0x344 = Some [0x308; 0x301] /\ outside_exclusions hex_int norm_props 0x344).
Proof.
  intros norm_props canon_decomp canon_comp.
  assert (_compute_canonical_comp hex_int norm_props (map_to_list canon_decomp)
          = Ret canon_comp) as Hrun by (vm_compute; reflexivity).
  split; [exact Hrun|]. split; [by vm_compute|]. split; [by vm_compute|].
  apply (proj1 (canonical_comp_spec hex_int norm_props canon_decomp
           (map_to_list canon_decomp) ltac:(reflexivity)) canon_comp Hrun).
Defined.

(** ** The fully decomposed tables *)

Lemma decomp_step_Ret fuel cd cpd (t t' : tables) c :
  decomp_step fuel cd cpd t c = Ret t' <->
  (is_hangul c = true /\ t' = t) \/
  (is_hangul c = false /\
   exists canon compat,
     _decompose fuel cd cpd c false = Ret canon /\
     _decompose fuel cd cpd c true = Ret compat /\
     t' = (record_entry t.1 c canon, record_entry t.2 c compat)).
Proof.
  unfold decomp_step. destruct (is_hangul c).
  - split; [intros [= <-]; by left|]. intros [[_ ->]|[? _]]; done.
  - destruct (_decompose fuel cd cpd c false) as [canon| |]; cbn;
      try (split; [done|intros [[? _]|(_ & ? & ? & ? & _)]; done]).
    destruct (_decompose fuel cd cpd c true) as [compat| |]; cbn;
      try (split; [done|intros [[? _]|(_ & ? & ? & _ & ? & _)]; done]).
    split.
    + intros [= <-]. right. split; [done|]. by exists canon, compat.
    + intros [[? _]|(_ & ? & ? & [= <-] & [= <-] & ->)]; done.
Qed.

Lemma record_entry_lookup (m : gmap Z (list Z)) c l c' :
  record_entry m c l !! c'
  = if decide (c = c') then (if is_self l c then m !! c' else Some l) else m !! c'.
Proof.
  unfold record_entry. destruct (is_self l c); cbn; case_decide; subst; try done.
  - by rewrite lookup_insert_eq.
  - by rewrite lookup_insert_ne.
Qed.

Lemma decomp_fold fuel cd cpd (l : list Z) (t t' : tables) :
  foldM (decomp_step fuel cd cpd) t l = Ret t' ->
  forall c,
    (c ∉ l -> t'.1 !! c = t.1 !! c /\ t'.2 !! c = t.2 !! c) /\
    (c ∈ l -> is_hangul c = true -> t'.1 !! c = t.1 !! c /\ t'.2 !! c = t.2 !! c) /\
    (c ∈ l -> is_hangul c = false ->
     exists canon compat,
       _decompose fuel cd cpd c false = Ret canon /\
       _decompose fuel cd cpd c true = Ret compat /\
       t'.1 !! c = (if is_self canon c then t.1 !! c else Some canon) /\
       t'.2 !! c = (if is_self compat c then t.2 !! c else Some compat)).
Proof.
  revert t. induction l as [|a l IH]; intros t Hrun c; cbn [foldM] in Hrun.
  - injection Hrun as <-. split; [done|]. split; intros Hin; by apply elem_of_nil in Hin.
  - destruct (decomp_step fuel cd cpd t a) as [t1| |] eqn:Hstep; [|done..]. cbn in Hrun.
    destruct (IH t1 Hrun c) as (Hout & Hhan & Hin).
    apply decomp_step_Ret in Hstep.
    destruct (decide (c ∈ l)) as [Hl|Hl].
    + (* handled again later: the later visit decides *)
      split; [intros Hc; destruct Hc; by right|].
      destruct Hstep as [[Ha ->]|(Ha & canon & compat & Hcanon & Hcompat & ->)].
      * split; [intros _; by apply Hhan|intros _; by apply Hin].
      * split.
        -- intros _ Hc. destruct (Hhan Hl Hc) as [-> ->]. cbn [fst snd].
           rewrite !record_entry_lookup. case_decide; [subst; congruence|done].
        -- intros _ Hc. destruct (Hin Hl Hc) as (canon' & compat' & H1 & H2 & -> & ->).
           exists canon', compat'. split; [done|]. split; [done|]. cbn [fst snd].
           rewrite !record_entry_lookup. case_decide; [subst|done].
           assert (canon' = canon) as -> by congruence.
           assert (compat' = compat) as -> by congruence.
           by destruct (is_self canon c), (is_self compat c).
    + destruct (Hout Hl) as [-> ->].
      destruct Hstep as [[Ha ->]|(Ha & canon & compat & Hcanon & Hcompat & ->)].
      * split; [done|]. split; [done|].
        intros [->|?]%elem_of_cons; [congruence|done].
      * cbn [fst snd]. rewrite !record_entry_lookup. split; [|split].
        -- intros Hc. case_decide; [subst; destruct Hc; by left|done].
        -- intros [->|?]%elem_of_cons; [congruence|done].
        -- intros [->|?]%elem_of_cons; [|done]. intros _.
           exists canon, compat. rewrite !decide_True by done. done.
Qed.

Lemma foldl_max_ge (ks : list Z) (k x : Z) :
  x <= k \/ (exists y, y ∈ ks /\ x <= y) -> x <= foldl Z.max k ks.
Proof.
  revert k. induction ks as [|a ks IH]; intros k; cbn [foldl].
  - intros [?|(y & Hin & _)]; [done|by apply elem_of_nil in Hin].
  - intros [?|(y & [->|Hin]%elem_of_cons & ?)]; apply IH.
    + left. lia.
    + left. lia.
    + right. by exists y.
Qed.

Lemma max_key_ge {V} (d : gmap Z V) m k : max_key d = Ret m -> is_Some (d !! k) -> k <= m.
Proof.
  unfold max_key. intros Hmax Hk. apply elem_of_dom, elem_of_elements in Hk.
  destruct (elements (dom d)) as [|k0 ks]; [done|]. injection Hmax as <-.
  apply foldl_max_ge. apply elem_of_cons in Hk as [->|Hk]; [by left|].
  right. by exists k.
Qed.

Lemma loop_spec fuel cd cpd cf cpf0 :
  fully_decomposed_loop fuel cd cpd = Ret (cf, cpf0) ->
  exists end_codepoint,
    (forall c, is_Some (cd !! c) \/ is_Some (cpd !! c) -> c <= end_codepoint) /\
    (forall c, 0 <= c <= end_codepoint -> is_hangul c = false ->
       exists canon compat,
         _decompose fuel cd cpd c false = Ret canon /\
         _decompose fuel cd cpd c true = Ret compat) /\
    (forall c l, cf !! c = Some l <->
       0 <= c <= end_codepoint /\ is_hangul c = false /\
       _decompose fuel cd cpd c false = Ret l /\ is_self l c = false) /\
    (forall c l, cpf0 !! c = Some l <->
       0 <= c <= end_codepoint /\ is_hangul c = false /\
       _decompose fuel cd cpd c true = Ret l /\ is_self l c = false).
Proof.
  unfold fully_decomposed_loop.
  destruct (max_key cd) as [m1| |] eqn:H1; [|done..]. cbn.
  destruct (max_key cpd) as [m2| |] eqn:H2; [|done..]. cbn.
  intros Hrun. exists (Z.max m1 m2).
  pose proof (decomp_fold _ _ _ _ _ _ Hrun) as Hfold. cbn [fst snd] in Hfold.
  assert (forall c, c ∈ range 0 (Z.max m1 m2 + 1) <-> 0 <= c <= Z.max m1 m2) as Hrange.
  { intros c. rewrite elem_of_range. lia. }
  split; [|split; [|split]].
  - intros c [Hc|Hc].
    + pose proof (max_key_ge _ _ _ H1 Hc). lia.
    + pose proof (max_key_ge _ _ _ H2 Hc). lia.
  - intros c Hc Hh. destruct (Hfold c) as (_ & _ & Hin).
    destruct (Hin (proj2 (Hrange c) Hc) Hh) as (canon & compat & ? & ? & _).
    by exists canon, compat.
  - intros c l. destruct (Hfold c) as (Hout & Hhan & Hin).
    destruct (decide (0 <= c <= Z.max m1 m2)) as [Hc|Hc].
    + apply Hrange in Hc as Hc'. destruct (is_hangul c) eqn:Hh.
      * destruct (Hhan Hc' eq_refl) as [-> _]. rewrite lookup_empty.
        split; [done|]. intros (_ & ? & _). congruence.
      * destruct (Hin Hc' eq_refl) as (canon & compat & Hcanon & _ & -> & _).
        rewrite lookup_empty. destruct (is_self canon c) eqn:Hs; split.
        -- done.
        -- intros (_ & _ & Hl & Hs'). congruence.
        -- intros [= <-]. done.
        -- intros (_ & _ & Hl & _). congruence.
    + destruct Hout as [-> _]; [by rewrite Hrange|]. rewrite lookup_empty.
      split; [done|]. by intros [? _].
  - intros c l. destruct (Hfold c) as (Hout & Hhan & Hin).
    destruct (decide (0 <= c <= Z.max m1 m2)) as [Hc|Hc].
    + apply Hrange in Hc as Hc'. destruct (is_hangul c) eqn:Hh.
      * destruct (Hhan Hc' eq_refl) as [_ ->]. rewrite lookup_empty.
        split; [done|]. intros (_ & ? & _). congruence.
      * destruct (Hin Hc' eq_refl) as (canon & compat & _ & Hcompat & _ & ->).
        rewrite lookup_empty. destruct (is_self compat c) eqn:Hs; split.
        -- done.
        -- intros (_ & _ & Hl & Hs'). congruence.
        -- intros [= <-]. done.
        -- intros (_ & _ & Hl & _). congruence.
    + destruct Hout as [_ ->]; [by rewrite Hrange|]. rewrite lookup_empty.
      split; [done|]. by intros [? _].
Qed.

(** *** The post-pass *)

Lemma dedup_fold_lookup (cf m : gmap Z (list Z)) (chs : list Z) c :
  NoDup chs ->
  foldl (dedup_step cf) m chs !! c
  = if decide (c ∈ chs /\ cf !!! c = m !!! c) then None else m !! c.
Proof.
  revert m. induction chs as [|a chs IH]; intros m Hnd; cbn [foldl].
  - rewrite decide_False; [done|]. intros [Hin _]. by apply elem_of_nil in Hin.
  - apply NoDup_cons in Hnd as [Ha Hnd]. rewrite IH by done.
    unfold dedup_step. destruct (decide (c = a)) as [->|Hne].
    + rewrite (decide_False (P := a ∈ chs /\ _)) by tauto.
      case_bool_decide as Heq.
      * rewrite lookup_delete_eq, decide_True; [done|]. split; [by left|done].
      * rewrite decide_False; [done|]. tauto.
    + assert ((if bool_decide (cf !!! a = m !!! a) then delete a m else m) !! c = m !! c)
        as Hsame.
      { case_bool_decide; [by rewrite lookup_delete_ne|done]. }
      assert ((if bool_decide (cf !!! a = m !!! a) then delete a m else m) !!! c = m !!! c)
        as Hsame'.
      { case_bool_decide; [|done]. by rewrite !lookup_total_alt, lookup_delete_ne. }
      rewrite Hsame, Hsame'. apply decide_ext. rewrite elem_of_cons.
      split; [intros [? ?]; split; [by right|done]|by intros [[?|?] ?]].
Qed.

Lemma dedup_lookup (cf cpf0 : gmap Z (list Z)) c l :
  dedup cf cpf0 !! c = Some l <-> cpf0 !! c = Some l /\ cf !! c <> Some l.
Proof.
  unfold dedup. rewrite dedup_fold_lookup by apply NoDup_elements.
  rewrite !lookup_total_alt.
  case_decide as Hc.
  - destruct Hc as [Hin Heq]. apply elem_of_elements, elem_of_intersection in Hin.
    destruct Hin as [[a Ha]%elem_of_dom [b Hb]%elem_of_dom].
    rewrite Ha, Hb in Heq |- *. cbn in Heq. subst.
    split; [done|]. by intros [? ?].
  - split; [|by intros [? _]]. intros Hl. split; [done|]. intros Hcf. apply Hc.
    rewrite Hl, Hcf. split; [|done].
    apply elem_of_elements, elem_of_intersection. split; apply elem_of_dom; eauto.
Qed.

Lemma dedup_pass_Ret (cf cpf0 : gmap Z (list Z)) :
  dom cf ⊆ dom cpf0 -> dedup_pass (cf, cpf0) = Ret (cf, dedup cf cpf0).
Proof. intros Hsub. unfold dedup_pass. cbn. by rewrite bool_decide_eq_true_2. Qed.

Lemma dedup_pass_Raise (cf cpf0 : gmap Z (list Z)) :
  ~ dom cf ⊆ dom cpf0 -> dedup_pass (cf, cpf0) = Raise AssertionError.
Proof. intros Hsub. unfold dedup_pass. cbn. by rewrite bool_decide_eq_false_2. Qed.

(** *** What a decomposition is made of *)

Lemma expand_elem rec decomp l x :
  expand rec decomp = Ret l -> x ∈ l ->
  exists d l', d ∈ decomp /\ rec d = Ret l' /\ x ∈ l'.
Proof.
  intros (ls & Hall & ->)%expand_Ret Hx.
  induction Hall as [|d l' decomp ls Hd Hall IH]; cbn in Hx.
  - by apply elem_of_nil in Hx.
  - apply elem_of_app in Hx as [Hx|Hx].
    + exists d, l'. split; [by left|done].
    + destruct (IH Hx) as (d' & l'' & ? & ? & ?). exists d', l''. split; [by right|done].
Qed.

(** The members of a decomposition decompose no further. *)
Lemma decompose_leaves fuel cd cpd c compatible l x :
  _decompose fuel cd cpd c compatible = Ret l -> x ∈ l ->
  x <= 0x7f \/
  (is_hangul x = false /\ cd !! x = None /\ (compatible = true -> cpd !! x = None)).
Proof.
  revert c l. induction fuel as [|fuel IH]; intros c l; [done|].
  rewrite decompose_S. destruct (Z.leb_spec c 0x7f) as [Hc|Hc].
  { intros [= <-] ->%list_elem_of_singleton. by left. }
  destruct (is_hangul c) eqn:Hh; cbn; [done|].
  destruct (cd !! c) as [decomp|] eqn:Hcanon.
  - intros Hrun Hx. destruct (expand_elem _ _ _ _ Hrun Hx) as (d & l' & _ & Hd & Hx').
    by eapply IH.
  - destruct (compatible && contains cpd c) eqn:Hcompat.
    + destruct (getitem cpd c) as [decomp| |]; cbn; [|done..].
      intros Hrun Hx. destruct (expand_elem _ _ _ _ Hrun Hx) as (d & l' & _ & Hd & Hx').
      by eapply IH.
    + intros [= <-] ->%list_elem_of_singleton. right. split; [done|]. split; [done|].
      intros ->. by apply contains_false.
Qed.

Lemma decompose_leaf fuel cd cpd c compatible :
  c <= 0x7f \/
  (is_hangul c = false /\ cd !! c = None /\ (compatible = true -> cpd !! c = None)) ->
  _decompose (S fuel) cd cpd c compatible = Ret [c].
Proof.
  rewrite decompose_S. intros [Hc|(Hh & Hcanon & Hcompat)].
  - by rewrite (proj2 (Z.leb_le _ _) Hc).
  - destruct (c <=? 0x7f); [done|]. rewrite Hh, Hcanon. cbn.
    destruct compatible; [|done].
    by rewrite (proj2 (contains_false cpd c) (Hcompat eq_refl)).
Qed.

Lemma is_self_true l c : is_self l c = true <-> l = [c].
Proof.
  destruct l as [|x [|y l]]; cbn; try (split; done).
  rewrite Z.eqb_eq. split; [by intros ->|by intros [= ->]].
Qed.

(** A codepoint that decomposes to itself in the compatibility mode does so
    in the canonical mode. *)
Lemma self_compat_self_canon fuel cd cpd c :
  _decompose fuel cd cpd c true = Ret [c] -> _decompose fuel cd cpd c false = Ret [c].
Proof.
  intros Hrun. destruct fuel as [|fuel]; [done|].
  apply decompose_leaf.
  destruct (decompose_leaves _ _ _ _ _ _ c Hrun) as [?|(? & ? & _)]; [by left|by left|].
  right. done.
Qed.

Lemma loop_subset fuel cd cpd cf cpf0 :
  fully_decomposed_loop fuel cd cpd = Ret (cf, cpf0) -> dom cf ⊆ dom cpf0.
Proof.
  intros (e & _ & Htotal & Hcf & Hcpf)%loop_spec c [l Hl]%elem_of_dom.
  apply Hcf in Hl as (Hc & Hh & Hcanon & Hself).
  destruct (Htotal c Hc Hh) as (canon & compat & _ & Hcompat).
  apply elem_of_dom. exists compat. apply Hcpf. split; [done|]. split; [done|].
  split; [done|]. destruct (is_self compat c) eqn:Hs; [|done].
  apply is_self_true in Hs as ->. apply self_compat_self_canon in Hcompat.
  rewrite Hcompat in Hcanon. injection Hcanon as <-. cbn in Hself.
  by rewrite Z.eqb_refl in Hself.
Qed.

(** C4: the post-pass fails when the keys of the canonical table are not
    all keys of the compatibility table; after the loop they are, and the
    post-pass then removes from the compatibility table the codepoints
    whose sequence is the same in both tables, leaving the other entries
    as they are: a codepoint stays in the compatibility table only if it
    has no canonical entry or its full compatibility decomposition differs
    from its full canonical decomposition. *)
Theorem fully_decomposed_dedup (fuel : nat) (canon_decomp compat_decomp : gmap Z (list Z)) :
  (forall cf cpf0 : gmap Z (list Z),
     ~ dom cf ⊆ dom cpf0 -> dedup_pass (cf, cpf0) = Raise AssertionError) /\
  (forall cf cpf : gmap Z (list Z),
     _compute_fully_decomposed fuel canon_decomp compat_decomp = Ret (cf, cpf) ->
     exists cpf0, fully_decomposed_loop fuel canon_decomp compat_decomp = Ret (cf, cpf0)) /\
  (forall cf cpf0 : gmap Z (list Z),
     fully_decomposed_loop fuel canon_decomp compat_decomp = Ret (cf, cpf0) ->
     dom cf ⊆ dom cpf0 /\
     exists cpf,
       _compute_fully_decomposed fuel canon_decomp compat_decomp = Ret (cf, cpf) /\
       (forall c l, cpf !! c = Some l <-> cpf0 !! c = Some l /\ cf !! c <> Some l) /\
       (forall c l, cpf !! c = Some l ->
          _decompose fuel canon_decomp compat_decomp c true = Ret l /\
          (cf !! c = None \/
           exists l', cf !! c = Some l' /\ l' <> l /\
                      _decompose fuel canon_decomp compat_decomp c false = Ret l'))).
Proof.
  split; [intros cf cpf0; apply dedup_pass_Raise|]. split.
  - intros cf cpf. unfold _compute_fully_decomposed.
    destruct (fully_decomposed_loop _ _ _) as [[cf' cpf0]| |]; cbn; [|done..].
    unfold dedup_pass. cbn. destruct (bool_decide _); cbn; [|done].
    intros [= <- <-]. by exists cpf0.
  - intros cf cpf0 Hloop. pose proof (loop_subset _ _ _ _ _ Hloop) as Hsub.
    split; [done|]. exists (dedup cf cpf0). split; [|split].
    + unfold _compute_fully_decomposed. rewrite Hloop. cbn. by apply dedup_pass_Ret.
    + apply dedup_lookup.
    + intros c l [Hcpf Hcf]%dedup_lookup.
      apply loop_spec in Hloop as (e & _ & _ & Hcf' & Hcpf').
      apply Hcpf' in Hcpf as (_ & _ & Hcompat & _). split; [done|].
      destruct (cf !! c) as [l'|] eqn:Hl'; [|by left]. right.
      exists l'. split; [done|]. split; [congruence|]. by apply Hcf' in Hl' as (_ & _ & ? & _).
Qed.

Lemma fully_decomposed_dedup_witness :
  let canon_decomp : gmap Z (list Z) :=
    {[ 0xC0 := [0x41; 0x300]; 0x1E9B := [0x17F; 0x307] ]} in
  let compat_decomp : gmap Z (list Z) := {[ 0x17F := [0x73] ]} in
  let cf : gmap Z (list Z) := {[ 0xC0 := [0x41; 0x300]; 0x1E9B := [0x17F; 0x307] ]} in
  let cpf0 : gmap Z (list Z) :=
    {[ 0xC0 := [0x41; 0x300]; 0x17F := [0x73]; 0x1E9B := [0x73; 0x307] ]} in
  fully_decomposed_loop 3 canon_decomp compat_decomp = Ret (cf, cpf0) /\
  _compute_fully_decomposed 3 canon_decomp compat_decomp
  = Ret (cf, {[ 0x17F := [0x73]; 0x1E9B := [0x73; 0x307] ]}) /\
  dom cf ⊆ dom cpf0.
Proof.
  intros canon_decomp compat_decomp cf cpf0.
  assert (fully_decomposed_loop 3 canon_decomp compat_decomp = Ret (cf, cpf0)) as Hloop
    by (vm_compute; reflexivity).
  split; [exact Hloop|]. split; [vm_compute; reflexivity|].
  exact (proj1 (proj2 (proj2 (fully_decomposed_dedup 3 canon_decomp compat_decomp))
                 cf cpf0 Hloop)).
Defined.

(** ** The stream-safe tables *)

Lemma count_nonstarters_nonneg cc l : 0 <= count_nonstarters cc l.
Proof. induction l as [|d l IH]; cbn; [done|]. destruct (negb _); lia. Qed.

Lemma count_nonstarters_leading cc l :
  leading_run cc l (Z.to_nat (count_nonstarters cc l)).
Proof.
  induction l as [|d l (Hlen & Hrun & Hstop)]; cbn [count_nonstarters].
  - split; [done|]. split; [intros i d Hi; cbn in Hi; lia|done].
  - pose proof (count_nonstarters_nonneg cc l) as Hpos.
    destruct (contains cc d) eqn:Hd; cbn [negb].
    + apply contains_true in Hd.
      replace (Z.to_nat (1 + count_nonstarters cc l))
        with (S (Z.to_nat (count_nonstarters cc l))) by lia.
      split; [cbn; lia|]. split.
      * intros [|i] d' Hi; cbn; [by intros [= <-]|]. apply Hrun. lia.
      * cbn. apply Hstop.
    + apply contains_false in Hd. split; [cbn; lia|]. split.
      * intros i d' Hi. cbn in Hi. lia.
      * cbn. intros d' [= <-] [? ?]. congruence.
Qed.

Lemma leading_run_unique cc l k k' : leading_run cc l k -> leading_run cc l k' -> k = k'.
Proof.
  intros (Hlen & Hrun & Hstop) (Hlen' & Hrun' & Hstop').
  destruct (Nat.lt_trichotomy k k') as [Hlt|[?|Hlt]]; [|done|].
  - destruct (lookup_lt_is_Some_2 l k) as [d Hd]; [lia|].
    destruct (Hstop d Hd). by eapply Hrun'.
  - destruct (lookup_lt_is_Some_2 l k') as [d Hd]; [lia|].
    destruct (Hstop' d Hd). by eapply Hrun.
Qed.

Lemma trailing_run_reverse cc l k : leading_run cc (reverse l) k <-> trailing_run cc l k.
Proof.
  unfold leading_run, trailing_run. rewrite length_reverse.
  split; intros (Hlen & Hrun & Hstop); (split; [done|]); split.
  - intros i d Hi Hd. pose proof (lookup_lt_Some _ _ _ Hd) as Hlt.
    apply (Hrun (length l - S i)%nat); [lia|].
    rewrite reverse_lookup by lia. rewrite <- Hd. f_equal. lia.
  - intros d Hk Hd. apply Hstop. rewrite reverse_lookup by lia. rewrite <- Hd. f_equal. lia.
  - intros i d Hi Hd. pose proof (lookup_lt_Some _ _ _ Hd) as Hlt.
    rewrite length_reverse in Hlt. rewrite reverse_lookup in Hd by done.
    eapply Hrun; [|exact Hd]. lia.
  - intros d Hd. pose proof (lookup_lt_Some _ _ _ Hd) as Hlt.
    rewrite length_reverse in Hlt. rewrite reverse_lookup in Hd by done.
    apply Hstop; [lia|]. rewrite <- Hd. f_equal. lia.
Qed.

Lemma stream_safe_step_Ret cf cpf cc (t t' : ss_tables) c :
  stream_safe_step cf cpf cc t c = Ret t' <->
  exists decomposed,
    representative cf cpf c = Ret decomposed /\
    t' = (let n := count_nonstarters cc decomposed in if 0 <? n then <[c := n]> t.1 else t.1,
          let n := count_nonstarters cc (reverse decomposed) in
          if 0 <? n then <[c := n]> t.2 else t.2).
Proof.
  unfold stream_safe_step.
  destruct (representative cf cpf c) as [decomposed| |]; cbn.
  - split; [intros [= <-]; by exists decomposed|]. by intros (? & [= <-] & ->).
  - split; [done|]. by intros (? & ? & _).
  - split; [done|]. by intros (? & ? & _).
Qed.

Lemma stream_safe_fold cf cpf cc (chs : list Z) (t t' : ss_tables) :
  NoDup chs ->
  foldM (stream_safe_step cf cpf cc) t chs = Ret t' ->
  forall c,
    (c ∉ chs -> t'.1 !! c = t.1 !! c /\ t'.2 !! c = t.2 !! c) /\
    (c ∈ chs ->
     exists decomposed,
       representative cf cpf c = Ret decomposed /\
       t'.1 !! c = (let n := count_nonstarters cc decomposed in
                    if 0 <? n then Some n else t.1 !! c) /\
       t'.2 !! c = (let n := count_nonstarters cc (reverse decomposed) in
                    if 0 <? n then Some n else t.2 !! c)).
Proof.
  revert t. induction chs as [|a chs IH]; intros t Hnd Hrun c; cbn [foldM] in Hrun.
  - injection Hrun as <-. split; [done|]. intros Hin. by apply elem_of_nil in Hin.
  - apply NoDup_cons in Hnd as [Ha Hnd].
    destruct (stream_safe_step cf cpf cc t a) as [t1| |] eqn:Hstep; [|done..]. cbn in Hrun.
    destruct (IH t1 Hnd Hrun c) as [Hout Hin].
    apply stream_safe_step_Ret in Hstep as (decomposed & Hrep & ->). cbn [fst snd] in *.
    split.
    + intros Hc. apply not_elem_of_cons in Hc as [Hne Hc].
      assert (a <> c) as Hne' by done.
      destruct (Hout Hc) as [-> ->]. cbv zeta.
      split;
        [destruct (0 <? count_nonstarters cc decomposed)
        |destruct (0 <? count_nonstarters cc (reverse decomposed))];
        by rewrite ?lookup_insert_ne by done.
    + intros [->|Hc]%elem_of_cons.
      * destruct (Hout Ha) as [-> ->]. exists decomposed. split; [done|]. cbv zeta.
        split;
          [destruct (0 <? count_nonstarters cc decomposed)
          |destruct (0 <? count_nonstarters cc (reverse decomposed))];
          by rewrite ?lookup_insert_eq.
      * destruct (Hin Hc) as (dec & Hdec & -> & ->). exists dec. split; [done|].
        assert (a <> c) by (intros ->; done). cbv zeta.
        split; destruct (0 <? count_nonstarters cc dec),
          (0 <? count_nonstarters cc (reverse dec)),
          (0 <? count_nonstarters cc decomposed),
          (0 <? count_nonstarters cc (reverse decomposed));
          by rewrite ?lookup_insert_ne by done.
Qed.

(** *** The compatibility decomposition continues the canonical one *)

Lemma expand_app rec l1 l2 r1 r2 :
  expand rec l1 = Ret r1 -> expand rec l2 = Ret r2 -> expand rec (l1 ++ l2) = Ret (r1 ++ r2).
Proof.
  revert r1. induction l1 as [|d l1 IH]; intros r1; cbn [expand app].
  - by intros [= <-] ->.
  - destruct (rec d) as [a| |]; cbn; [|done..].
    destruct (expand rec l1) as [b| |] eqn:Hb; cbn; [|done..].
    intros [= <-] H2. rewrite (IH b eq_refl H2). cbn. by rewrite app_assoc.
Qed.

Lemma expand_concat rec ls rs :
  Forall2 (fun l r => expand rec l = Ret r) ls rs ->
  expand rec (concat ls) = Ret (concat rs).
Proof.
  induction 1 as [|l r ls rs Hl _ IH]; cbn [concat]; [done|]. by apply expand_app.
Qed.

Lemma expand_nil rec l e : expand rec l = Ret [] -> e ∈ l -> rec e = Ret [].
Proof.
  induction l as [|d l IH]; cbn [expand]; intros Hrun Hin.
  - by apply elem_of_nil in Hin.
  - destruct (rec d) as [a| |] eqn:Hd; cbn in Hrun; [|done..].
    destruct (expand rec l) as [b| |] eqn:Hb; cbn in Hrun; [|done..].
    injection Hrun as Hab. apply app_eq_nil in Hab as [-> ->].
    apply elem_of_cons in Hin as [->|Hin]; [done|by apply IH].
Qed.

Lemma expand_singleton rec c l : rec c = Ret l -> expand rec [c] = Ret l.
Proof. intros H. cbn [expand]. rewrite H. cbn. by rewrite app_nil_r. Qed.

Lemma canon_then_compat fuel cd cpd c l l2 :
  _decompose fuel cd cpd c false = Ret l ->
  _decompose fuel cd cpd c true = Ret l2 ->
  expand (fun e => _decompose fuel cd cpd e true) l = Ret l2.
Proof.
  revert c l l2. induction fuel as [|fuel IH]; intros c l l2; [done|].
  intros Hcanon Hcompat. pose proof Hcompat as Hcompat'. revert Hcanon Hcompat.
  rewrite !decompose_S. destruct (c <=? 0x7f).
  { intros [= <-] [= <-]. by apply expand_singleton. }
  destruct (is_hangul c); cbn; [done|].
  destruct (cd !! c) as [decomp|].
  - intros (ls & Hls & ->)%expand_Ret (ls2 & Hls2 & ->)%expand_Ret.
    apply expand_concat. clear Hcompat'. revert ls2 Hls2.
    induction Hls as [|d ld decomp ls Hd _ IHls]; intros ls2 Hls2;
      inversion Hls2 as [|? ld2 ? ls2' Hd2 Hrest]; subst; constructor; [|by apply IHls].
    rewrite <- (IH d ld ld2 Hd Hd2). apply expand_mono.
    + intros e. apply decompose_mono_S.
    + by rewrite (IH d ld ld2 Hd Hd2).
  - intros [= <-] _. by apply expand_singleton.
Qed.

Lemma compute_fully_decomposed_Ret fuel cd cpd cf cpf :
  _compute_fully_decomposed fuel cd cpd = Ret (cf, cpf) ->
  exists cpf0, fully_decomposed_loop fuel cd cpd = Ret (cf, cpf0) /\ cpf = dedup cf cpf0.
Proof.
  unfold _compute_fully_decomposed.
  destruct (fully_decomposed_loop _ _ _) as [[cf' cpf0]| |]; cbn; [|done..].
  unfold dedup_pass. cbn. destruct (bool_decide _); cbn; [|done].
  intros [= <- <-]. by exists cpf0.
Qed.

Lemma stream_safe_total cf cpf cc t c :
  _compute_stream_safe_tables cf cpf cc = Ret t -> is_Some (cf !! c) \/ is_Some (cpf !! c) ->
  exists decomposed, representative cf cpf c = Ret decomposed.
Proof.
  intros Hrun Hc.
  destruct (stream_safe_fold _ _ _ _ _ _ (NoDup_elements _) Hrun c) as [_ Hin].
  destruct Hin as (decomposed & Hrep & _); [|by exists decomposed].
  apply elem_of_elements, elem_of_union. rewrite !elem_of_dom. done.
Qed.

(** In the tables that the script computes, no compatibility entry is the
    empty sequence when the stream-safe tables are built. *)
Lemma no_empty_compat fuel cd cpd cc cf cpf t :
  _compute_fully_decomposed fuel cd cpd = Ret (cf, cpf) ->
  _compute_stream_safe_tables cf cpf cc = Ret t ->
  forall c, cpf !! c <> Some [].
Proof.
  intros (cpf0 & Hloop & ->)%compute_fully_decomposed_Ret Hss.
  assert (forall x, dedup cf cpf0 !! x = Some [] -> cf !! x = None -> False) as Hkey.
  { intros x Hx Hcf. destruct (stream_safe_total _ _ _ _ x Hss) as [dec Hdec]; [by right|].
    unfold representative, getitem in Hdec. by rewrite Hx, Hcf in Hdec. }
  apply loop_spec in Hloop as (e & Hmax & _ & Hcf & Hcpf).
  intros c Hc. pose proof Hc as [Hc0 Hne]%dedup_lookup.
  destruct (cf !! c) as [l|] eqn:Hl; [|by eapply Hkey].
  apply Hcf in Hl as (_ & _ & Hcanon & _).
  apply Hcpf in Hc0 as (_ & _ & Hcompat & _).
  pose proof (canon_then_compat _ _ _ _ _ _ Hcanon Hcompat) as Hexp.
  destruct l as [|x l]; [done|].
  assert (_decompose fuel cd cpd x true = Ret []) as Hx.
  { apply (expand_nil _ _ x Hexp). by left. }
  destruct fuel as [|fuel]; [done|].
  destruct (decompose_leaves _ _ _ _ _ _ x Hcanon) as [Hascii|(Hh & Hcd & _)]; [by left| |].
  { rewrite decompose_leaf in Hx by (by left). done. }
  destruct (Z.le_gt_cases x 0x7f) as [Hascii|Hbig].
  { rewrite decompose_leaf in Hx by (by left). done. }
  assert (is_Some (cpd !! x)) as Hcpd.
  { destruct (cpd !! x) eqn:Hq; [done|].
    rewrite decompose_leaf in Hx; [done|]. right. done. }
  assert (0 <= x <= e) as Hrange by (split; [lia|apply Hmax; by right]).
  apply (Hkey x).
  - apply dedup_lookup. split; [by apply Hcpf|].
    intros (_ & _ & Hxc & _)%Hcf. rewrite decompose_leaf in Hxc; [done|]. right. done.
  - destruct (cf !! x) as [lx|] eqn:Hlx; [|done].
    apply Hcf in Hlx as (_ & _ & Hxc & Hself).
    rewrite decompose_leaf in Hxc by (right; done). injection Hxc as <-.
    cbn in Hself. by rewrite Z.eqb_refl in Hself.
Qed.

Lemma stream_safe_keys cf cpf cc (leading trailing : gmap Z Z) c :
  _compute_stream_safe_tables cf cpf cc = Ret (leading, trailing) ->
  c ∉ dom cf ∪ dom cpf -> leading !! c = None /\ trailing !! c = None.
Proof.
  intros Hss Hc.
  destruct (stream_safe_fold _ _ _ _ _ _ (NoDup_elements _) Hss c) as [Hout _].
  cbn [fst snd] in Hout. rewrite elem_of_elements in Hout.
  destruct (Hout Hc) as [-> ->]. by rewrite !lookup_empty.
Qed.

Lemma representative_spec fuel cd cpd cc cf cpf t c decomposed :
  _compute_fully_decomposed fuel cd cpd = Ret (cf, cpf) ->
  _compute_stream_safe_tables cf cpf cc = Ret t ->
  representative cf cpf c = Ret decomposed ->
  spec_representative cf cpf c = Some decomposed.
Proof.
  intros Hrun Hss. pose proof (no_empty_compat _ _ _ _ _ _ _ Hrun Hss c) as Hne.
  unfold representative, spec_representative, getitem.
  destruct (cpf !! c) as [[|x l]|]; [done|by intros [= <-]|].
  destruct (cf !! c); [by intros [= <-]|done].
Qed.

Lemma sparse_entry_lookup (n : Z) (o : option Z) :
  0 <= n -> o = None ->
  (if 0 <? n then Some n else o) = sparse_entry (Z.to_nat n).
Proof.
  intros Hn ->. unfold sparse_entry. destruct (Z.ltb_spec 0 n).
  - rewrite decide_False by lia. f_equal. lia.
  - rewrite decide_True by lia. done.
Qed.

Lemma representative_outcome cf cpf c :
  (exists decomposed, representative cf cpf c = Ret decomposed) \/
  (representative cf cpf c = Raise KeyError /\
   (cpf !! c = None \/ cpf !! c = Some []) /\ cf !! c = None).
Proof.
  unfold representative, getitem.
  destruct (cpf !! c) as [[|x l]|]; [| left; by eexists |];
    (destruct (cf !! c); [left; by eexists|right; auto]).
Qed.

Lemma stream_safe_step_outcome cf cpf cc t c :
  (exists t', stream_safe_step cf cpf cc t c = Ret t') \/
  (stream_safe_step cf cpf cc t c = Raise KeyError /\
   (cpf !! c = None \/ cpf !! c = Some []) /\ cf !! c = None).
Proof.
  unfold stream_safe_step.
  destruct (representative_outcome cf cpf c) as [[l ->]|(-> & ?)]; [left; by eexists|by right].
Qed.

Lemma foldM_Ret_all {A B} (f : A -> B -> outcome A) (l : list B) (a : A) :
  (forall a' x, x ∈ l -> exists a'', f a' x = Ret a'') -> exists a', foldM f a l = Ret a'.
Proof.
  revert a. induction l as [|x l IH]; intros a Hall; [by eexists|]. cbn [foldM].
  destruct (Hall a x) as [a' ->]; [left|]. cbn. apply IH.
  intros a'' y Hy. apply Hall. by right.
Qed.

Lemma foldM_Raise_step {A B} (f : A -> B -> outcome A) (l : list B) (a : A) x e :
  x ∈ l -> (forall a', f a' x = Raise e) ->
  (forall a' y, y ∈ l -> (exists a'', f a' y = Ret a'') \/ f a' y = Raise e) ->
  foldM f a l = Raise e.
Proof.
  revert a. induction l as [|y l IH]; intros a Hx Hfail Hall; [by apply elem_of_nil in Hx|].
  cbn [foldM]. destruct (Hall a y) as [[a' Hy]|Hy]; [left| |by rewrite Hy].
  rewrite Hy. cbn. apply elem_of_cons in Hx as [->|Hx].
  - rewrite Hfail in Hy. done.
  - apply IH; [done..|]. intros a'' z Hz. apply Hall. by right.
Qed.

Lemma representative_used cf cpf c expansion :
  representative cf cpf c = Ret expansion <-> used_expansion cf cpf c = Some expansion.
Proof.
  unfold representative, used_expansion, getitem.
  destruct (cpf !! c) as [[|x l]|]; [|split; by intros [= <-]|];
    (destruct (cf !! c); split; (done || by intros [= <-])).
Qed.

(** C8, as stated, fails: from the raw tables [0xC0 -> [0x41; 0x300]] and
    [0xA0 -> []] the fully decomposed tables are computed, the
    compatibility one with the empty entry of [0xA0]; the specification
    takes that entry as the expansion of [0xA0], with both counts 0, and
    gives [0xC0] the trailing count 1, but the code computes no table: it
    falls back on the canonical entry of [0xA0], which is missing. *)
Lemma stream_safe_empty_compat_entry :
  let canon_decomp : gmap Z (list Z) := {[ 0xC0 := [0x41; 0x300] ]} in
  let compat_decomp : gmap Z (list Z) := {[ 0xA0 := [] ]} in
  let combining_classes : gmap Z string := {[ 0x300 := "230"%string ]} in
  exists cf cpf,
    _compute_fully_decomposed 3 canon_decomp compat_decomp = Ret (cf, cpf) /\
    spec_representative cf cpf 0xA0 = Some [] /\
    _compute_stream_safe_tables cf cpf combining_classes = Raise KeyError /\
    ~ spec_stream_safe_tables cf cpf combining_classes.
Proof.
  intros canon_decomp compat_decomp combining_classes.
  exists {[ 0xC0 := [0x41; 0x300] ]}, {[ 0xA0 := [] ]}.
  split; [by vm_compute|]. split; [by vm_compute|].
  assert (_compute_stream_safe_tables {[ 0xC0 := [0x41; 0x300] ]} {[ 0xA0 := [] ]}
            combining_classes = Raise KeyError) as Hrun by (vm_compute; reflexivity).
  split; [exact Hrun|]. intros (leading & trailing & Hss & _). congruence.
Qed.

(** C8, amended: the expansion used for a codepoint is its entry in the
    compatibility table when there is one and it is not empty, and its
    entry in the canonical table otherwise. [_compute_stream_safe_tables]
    raises [KeyError] exactly when some codepoint has an empty entry in the
    compatibility table and none in the canonical table, and returns in
    every other case. When it returns, for every codepoint [c] of either
    table the table of leading counts holds the length of the longest run
    of non-starters at the start of the expansion used, the table of
    trailing counts the length of the longest such run at its end, a count
    of 0 is not stored, and a codepoint of neither table has no entry. On
    the tables of [_compute_fully_decomposed], whenever it returns, the
    expansion used is the compatibility entry if there is one and the
    canonical entry otherwise. *)
Theorem stream_safe_tables_spec (cf cpf : gmap Z (list Z))
    (combining_classes : gmap Z string) :
  let result := _compute_stream_safe_tables cf cpf combining_classes in
  (result = Raise KeyError <-> exists c, cpf !! c = Some [] /\ cf !! c = None) /\
  ((exists t, result = Ret t) \/ result = Raise KeyError) /\
  (forall leading trailing, result = Ret (leading, trailing) ->
     forall c,
       (c ∈ dom cf ∪ dom cpf ->
        exists expansion num_leading num_trailing,
          used_expansion cf cpf c = Some expansion /\
          leading_run combining_classes expansion num_leading /\
          trailing_run combining_classes expansion num_trailing /\
          leading !! c = sparse_entry num_leading /\
          trailing !! c = sparse_entry num_trailing) /\
       (c ∉ dom cf ∪ dom cpf -> leading !! c = None /\ trailing !! c = None)) /\
  (forall fuel canon_decomp compat_decomp t,
     _compute_fully_decomposed fuel canon_decomp compat_decomp = Ret (cf, cpf) ->
     result = Ret t ->
     forall c, used_expansion cf cpf c = spec_representative cf cpf c).
Proof.
  intros result.
  assert ((result = Raise KeyError <-> exists c, cpf !! c = Some [] /\ cf !! c = None) /\
          ((exists t, result = Ret t) \/ result = Raise KeyError)) as [Hkey Hcases].
  { unfold result, _compute_stream_safe_tables.
    set (chs := elements (dom cf ∪ dom cpf)).
    assert (forall c, c ∈ chs <-> is_Some (cf !! c) \/ is_Some (cpf !! c)) as Hchs.
    { intros c. unfold chs. by rewrite elem_of_elements, elem_of_union, !elem_of_dom. }
    destruct (decide (Exists (fun c => cpf !! c = Some [] /\ cf !! c = None) chs))
      as [Hex|Hex].
    - apply Exists_exists in Hex as (c & Hc & Hcpf & Hcf).
      assert (foldM (stream_safe_step cf cpf combining_classes) (∅, ∅) chs
              = Raise KeyError) as ->.
      { apply foldM_Raise_step with c; [done| |].
        - intros t. unfold stream_safe_step, representative, getitem. by rewrite Hcpf, Hcf.
        - intros t y _.
          destruct (stream_safe_step_outcome cf cpf combining_classes t y) as [?|[? _]]; auto. }
      split; [|by right]. split; [|done]. intros _. by exists c.
    - destruct (foldM_Ret_all (stream_safe_step cf cpf combining_classes) chs (∅, ∅))
        as [t Ht].
      { intros t y Hy. destruct (stream_safe_step_outcome cf cpf combining_classes t y)
          as [?|(_ & Hcpf & Hcf)]; [done|]. exfalso.
        destruct Hcpf as [Hcpf|Hcpf].
        - apply Hchs in Hy as [[? ?]|[? ?]]; congruence.
        - apply Hex, Exists_exists. by exists y. }
      rewrite Ht. split; [|left; by eexists]. split; [done|].
      intros (c & Hcpf & Hcf). exfalso. apply Hex, Exists_exists. exists c.
      split; [|done]. apply Hchs. right. by eexists. }
  split; [exact Hkey|]. split; [exact Hcases|]. split.
  - intros leading trailing Hss c.
    destruct (stream_safe_fold _ _ _ _ _ _ (NoDup_elements _) Hss c) as [Hout Hin].
    cbn [fst snd] in Hout, Hin. rewrite elem_of_elements in Hout, Hin. split.
    + intros Hc. destruct (Hin Hc) as (expansion & Hrep & Hl & Ht).
      exists expansion, (Z.to_nat (count_nonstarters combining_classes expansion)),
        (Z.to_nat (count_nonstarters combining_classes (reverse expansion))).
      split; [by apply representative_used|].
      split; [apply count_nonstarters_leading|].
      split; [apply trailing_run_reverse, count_nonstarters_leading|].
      rewrite Hl, Ht. cbv zeta.
      split; apply sparse_entry_lookup;
        (apply count_nonstarters_nonneg || apply lookup_empty).
    + by apply (stream_safe_keys cf cpf combining_classes).
  - intros fuel cd cpd t Hrun Hss c.
    pose proof (no_empty_compat _ _ _ _ _ _ _ Hrun Hss c) as Hne.
    unfold used_expansion, spec_representative.
    by destruct (cpf !! c) as [[|x l]|].
Qed.

Lemma stream_safe_tables_spec_witness :
  let cf : gmap Z (list Z) :=
    {[ 0xC0 := [0x41; 0x300]; 0x340 := [0x300]; 0x344 := [0x308; 0x301] ]} in
  let cpf : gmap Z (list Z) := {[ 0xA0 := [0x20]; 0x340 := [] ]} in
  let combining_classes : gmap Z string :=
    {[ 0x300 := "230"%string; 0x301 := "230"%string; 0x308 := "230"%string ]} in
  let leading : gmap Z Z := {[ 0x340 := 1; 0x344 := 2 ]} in
  let trailing : gmap Z Z := {[ 0xC0 := 1; 0x340 := 1; 0x344 := 2 ]} in
  _compute_stream_safe_tables cf cpf combining_classes = Ret (leading, trailing) /\
  (exists expansion num_leading num_trailing,
     used_expansion cf cpf 0x340 = Some expansion /\
     leading_run combining_classes expansion num_leading /\
     trailing_run combining_classes expansion num_trailing /\
     leading !! 0x340 = sparse_entry num_leading /\
     trailing !! 0x340 = sparse_entry num_trailing) /\
  _compute_stream_safe_tables cf {[ 0xA0 := [] ]} combining_classes = Raise KeyError.
Proof.
  intros cf cpf combining_classes leading trailing.
  assert (_compute_stream_safe_tables cf cpf combining_classes = Ret (leading, trailing))
    as Hss by (vm_compute; reflexivity).
  split; [exact Hss|]. split.
  - destruct (stream_safe_tables_spec cf cpf combining_classes) as (_ & _ & Htables & _).
    apply (Htables leading trailing Hss 0x340).
    apply elem_of_union. left. apply elem_of_dom. by eexists.
  - apply (stream_safe_tables_spec cf {[ 0xA0 := [] ]} combining_classes).
    exists 0xA0. split; reflexivity.
Defined.

(** ** The Hangul syllables *)

Lemma svar_step_Ret int16 names cc cd cpd (t t' : tables) line :
  svar_step int16 names cc cd cpd t line = Ret t' ->
  t' = t \/
  exists char_int parts,
    is_hangul char_int = false /\
    t' = (<[char_int := parts]> t.1, <[char_int := parts]> t.2).
Proof.
  unfold svar_step. destruct (String.eqb _ _); [intros [= <-]; by left|].
  intros (_ & _ & Hrun)%bind_Ret. revert Hrun.
  destruct (negb (String.eqb _ _)); [intros [= <-]; by left|].
  destruct (names !! _) as [char_int|]; [|intros [= <-]; by left].
  intros (_ & _ & (_ & _ & (decomp & _ & (_ & _ & ([] & Hh & (parts & _ & (_ & _ & Hret)%bind_Ret)
    %bind_Ret)%bind_Ret)%bind_Ret)%bind_Ret)%bind_Ret)%bind_Ret.
  right. exists char_int, parts. split.
  - unfold assert in Hh. by destruct (is_hangul char_int).
  - by injection Hret as <-.
Qed.

Lemma svar_fold_hangul int16 names cc cd cpd lines (t t' : tables) c :
  foldM (svar_step int16 names cc cd cpd) t lines = Ret t' ->
  is_hangul c = true -> t.1 !! c = None /\ t.2 !! c = None ->
  t'.1 !! c = None /\ t'.2 !! c = None.
Proof.
  intros Hrun Hc. revert t Hrun. induction lines as [|line lines IH]; intros t Hrun Ht;
    cbn [foldM] in Hrun.
  - by injection Hrun as <-.
  - apply bind_Ret in Hrun as (t1 & Hstep & Hrun). apply (IH t1 Hrun).
    apply svar_step_Ret in Hstep as [->|(char_int & parts & Hh & ->)]; [done|].
    cbn [fst snd]. rewrite !lookup_insert_ne by (intros ->; congruence). done.
Qed.

Lemma fully_decomposed_hangul fuel cd cpd cf cpf c :
  _compute_fully_decomposed fuel cd cpd = Ret (cf, cpf) -> is_hangul c = true ->
  cf !! c = None /\ cpf !! c = None.
Proof.
  intros (cpf0 & (e & _ & _ & Hcf & Hcpf)%loop_spec & ->)%compute_fully_decomposed_Ret Hc.
  split.
  - destruct (cf !! c) as [l|] eqn:Hl; [|done].
    apply Hcf in Hl as (_ & ? & _). congruence.
  - destruct (dedup cf cpf0 !! c) as [l|] eqn:Hl; [|done].
    apply dedup_lookup in Hl as [(_ & ? & _)%Hcpf _]. congruence.
Qed.

(** C7, as stated, fails for the composition table: with the canonical
    decomposition [0xAC01 -> [0xAC00; 0x11A8]] in the data the tables are all
    computed, and the composition table has the key [(0xAC00, 0x11A8)],
    whose first member is a Hangul syllable. *)
Lemma composition_table_hangul_key :
  let canon_decomp : gmap Z (list Z) := {[ 0xAC01 := [0xAC00; 0x11A8] ]} in
  let compat_decomp : gmap Z (list Z) := {[ 0xA0 := [0x20] ]} in
  exists canon_comp cf cpf,
    _compute_canonical_comp hex_int ∅ (map_to_list canon_decomp) = Ret canon_comp /\
    _compute_fully_decomposed 2 canon_decomp compat_decomp = Ret (cf, cpf) /\
    ~ spec_comp_keys_not_hangul canon_comp.
Proof.
  intros canon_decomp compat_decomp.
  destruct (_compute_fully_decomposed 2 canon_decomp compat_decomp)
    as [[cf cpf]| |] eqn:Hrun; [|vm_compute in Hrun; discriminate..].
  exists {[ (0xAC00, 0x11A8) := 0xAC01 ]}, cf, cpf.
  split; [by vm_compute|]. split; [done|].
  intros H. destruct (H 0xAC00 0x11A8) as [Hh _]; [by eexists|]. vm_compute in Hh. done.
Qed.

Lemma canonical_comp_entries (int16 : string -> outcome Z)
    (norm_props : gmap string (list NormProps.record))
    (canon_decomp : gmap Z (list Z)) (items : list (Z * list Z))
    (canon_comp : gmap (Z * Z) Z) :
  items ≡ₚ map_to_list canon_decomp ->
  _compute_canonical_comp int16 norm_props items = Ret canon_comp ->
  forall c1 c2 c3,
    canon_comp !! (c1, c2) = Some c3 <->
    canon_decomp !! c3 = Some [c1; c2] /\ outside_exclusions int16 norm_props c3.
Proof.
  intros Hitems Hrun c1 c2 c3.
  assert (exists cx, mapM (parse_exclusion int16) (exclusion_records norm_props) = Ret cx)
    as [cx Hparse].
  { unfold _compute_canonical_comp in Hrun.
    apply bind_Ret in Hrun as (cx & Hparse & _). by exists cx. }
  destruct (canonical_comp_intervals int16 norm_props canon_decomp items cx Hitems Hparse)
    as (_ & Htable & _).
  rewrite (Htable canon_comp Hrun c1 c2 c3), (outside_excluded _ _ _ Hparse c3). done.
Qed.

(** C7, amended: no codepoint of the Hangul syllable range
    [[0xAC00, 0xAC00 + 19*21*28)] is a key of [canon_fully_decomp], of
    [compat_fully_decomp], of [svar_decomp], of [svar_fully_decomp] or of the
    two stream-safe tables. The composition table, keyed by pairs, is built
    without a test on the Hangul range: such a codepoint is a member of one
    of its keys exactly when it is a member of the two-element raw
    canonical decomposition of a codepoint outside every interval of
    [Full_Composition_Exclusion]. *)
Theorem hangul_not_a_key (int16 : string -> outcome Z) (fuel : nat)
    (name_to_char_int : gmap string Z) (combining_classes : gmap Z string)
    (canon_decomp compat_decomp : gmap Z (list Z)) (lines : list string) (c : Z) :
  0xAC00 <= c < 0xAC00 + 19 * 21 * 28 ->
  (forall cf cpf,
     _compute_fully_decomposed fuel canon_decomp compat_decomp = Ret (cf, cpf) ->
     cf !! c = None /\ cpf !! c = None /\
     forall leading trailing,
       _compute_stream_safe_tables cf cpf combining_classes = Ret (leading, trailing) ->
       leading !! c = None /\ trailing !! c = None) /\
  (forall svar_decomp svar_fully_decomp,
     _load_standardized_variants int16 name_to_char_int combining_classes
       canon_decomp compat_decomp lines = Ret (svar_decomp, svar_fully_decomp) ->
     svar_decomp !! c = None /\ svar_fully_decomp !! c = None) /\
  (forall norm_props items canon_comp,
     items ≡ₚ map_to_list canon_decomp ->
     _compute_canonical_comp int16 norm_props items = Ret canon_comp ->
     (exists c1 c2, is_Some (canon_comp !! (c1, c2)) /\ (c = c1 \/ c = c2)) <->
     (exists c1 c2 c3,
        canon_decomp !! c3 = Some [c1; c2] /\ outside_exclusions int16 norm_props c3 /\
        (c = c1 \/ c = c2))).
Proof.
  intros Hc%is_hangul_range. split; [|split].
  - intros cf cpf Hrun.
    destruct (fully_decomposed_hangul _ _ _ _ _ _ Hrun Hc) as [Hcf Hcpf].
    split; [done|]. split; [done|]. intros leading trailing Hss.
    apply (stream_safe_keys _ _ _ _ _ c Hss).
    rewrite elem_of_union, !elem_of_dom, Hcf, Hcpf. by intros [[? ?]|[? ?]].
  - intros svar_decomp svar_fully_decomp Hrun.
    apply (svar_fold_hangul _ _ _ _ _ _ _ _ c Hrun Hc). split; apply lookup_empty.
  - intros norm_props items canon_comp Hitems Hrun.
    pose proof (canonical_comp_entries _ _ _ _ _ Hitems Hrun) as Hentries. split.
    + intros (c1 & c2 & [c3 Hk] & Hmem). apply Hentries in Hk as [Hd Hout].
      by exists c1, c2, c3.
    + intros (c1 & c2 & c3 & Hd & Hout & Hmem). exists c1, c2. split; [|done].
      exists c3. by apply Hentries.
Qed.

Lemma hangul_not_a_key_witness :
  let canon_decomp : gmap Z (list Z) := {[ 0xC0 := [0x41; 0x300]; 0xF900 := [0x8C48] ]} in
  let compat_decomp : gmap Z (list Z) := {[ 0xA0 := [0x20] ]} in
  let name_to_char_int : gmap string Z :=
    {[ "CJK COMPATIBILITY IDEOGRAPH-F900"%string := 0xF900 ]} in
  let lines := ["# header"; "8C48 FE00; CJK COMPATIBILITY IDEOGRAPH-F900;"]%string in
  let svar : gmap Z (list Z) := {[ 0xF900 := [0x8C48; 0xFE00] ]} in
  let hangul_decomp : gmap Z (list Z) := {[ 0xAC01 := [0xAC00; 0x11A8] ]} in
  _compute_fully_decomposed 2 canon_decomp compat_decomp = Ret (canon_decomp, compat_decomp) /\
  _load_standardized_variants hex_int name_to_char_int ∅ canon_decomp compat_decomp lines
  = Ret (svar, svar) /\
  (canon_decomp !! 0xAC00 = None /\ compat_decomp !! 0xAC00 = None) /\
  (svar !! 0xAC00 = None /\ svar !! 0xAC00 = None) /\
  _compute_canonical_comp hex_int ∅ (map_to_list hangul_decomp)
  = Ret {[ (0xAC00, 0x11A8) := 0xAC01 ]} /\
  exists c1 c2 c3,
    hangul_decomp !! c3 = Some [c1; c2] /\ outside_exclusions hex_int ∅ c3 /\
    (0xAC00 = c1 \/ 0xAC00 = c2).
Proof.
  intros canon_decomp compat_decomp name_to_char_int lines svar hangul_decomp.
  assert (_compute_fully_decomposed 2 canon_decomp compat_decomp
          = Ret (canon_decomp, compat_decomp)) as Hrun by (vm_compute; reflexivity).
  assert (_load_standardized_variants hex_int name_to_char_int ∅ canon_decomp
            compat_decomp lines = Ret (svar, svar)) as Hsvar by (vm_compute; reflexivity).
  assert (_compute_canonical_comp hex_int ∅ (map_to_list hangul_decomp)
          = Ret {[ (0xAC00, 0x11A8) := 0xAC01 ]}) as Hcomp by (vm_compute; reflexivity).
  split; [exact Hrun|]. split; [exact Hsvar|].
  destruct (hangul_not_a_key hex_int 2 name_to_char_int ∅ canon_decomp compat_decomp
              lines 0xAC00 ltac:(lia)) as (Htables & Hvariants & _).
  split; [|split; [exact (Hvariants svar svar Hsvar)|]].
  - destruct (Htables canon_decomp compat_decomp Hrun) as (Hcf & Hcpf & _). by split.
  - split; [exact Hcomp|].
    destruct (hangul_not_a_key hex_int 2 name_to_char_int ∅ hangul_decomp compat_decomp
                lines 0xAC00 ltac:(lia)) as (_ & _ & Hkeys).
    apply (Hkeys ∅ (map_to_list hangul_decomp) _ (reflexivity _) Hcomp).
    exists 0xAC00, 0x11A8. split; [by eexists|by left].
Defined.

(** * Further properties *)

(** ** The hash engine *)

Lemma my_hash_congr (x x' s s' n : Z) :
  x mod 2 ^ 32 = x' mod 2 ^ 32 -> s mod 2 ^ 32 = s' mod 2 ^ 32 ->
  my_hash x s n = my_hash x' s' n.
Proof.
  intros Hx Hs. unfold my_hash. rewrite !mask_32_ones, !Z.land_ones by lia.
  assert (((x + s) * C1) mod 2 ^ 32 = ((x' + s') * C1) mod 2 ^ 32) as ->.
  { rewrite (Z.mul_mod (x + s)), (Z.mul_mod (x' + s')) by lia.
    rewrite (Z.add_mod x s), (Z.add_mod x' s') by lia. by rewrite Hx, Hs. }
  assert ((x * C2) mod 2 ^ 32 = (x' * C2) mod 2 ^ 32) as ->.
  { rewrite (Z.mul_mod x), (Z.mul_mod x') by lia. by rewrite Hx. }
  done.
Qed.

Lemma process_outcome bs buckets n st :
  (exists st', process bs buckets n st = Ret st') \/
  process bs buckets n st = Raise SystemExit.
Proof.
  revert st. induction bs as [|[size h] bs IH]; intros st; [left; by eexists|].
  rewrite process_cons. destruct (size =? 0); [left; by eexists|].
  cbv zeta. destruct (salts _ !!! _ =? 0); [by right|apply IH].
Qed.

Lemma minimal_perfect_hash_outcome d :
  (exists ss ks, minimal_perfect_hash d = Ret (ss, ks)) \/
  minimal_perfect_hash d = Raise SystemExit.
Proof.
  unfold minimal_perfect_hash. cbv zeta.
  destruct (process_outcome
    (bsorted_of (fill_buckets d (Z.of_nat (length d))) (Z.of_nat (length d)))
    (fill_buckets d (Z.of_nat (length d))) (Z.of_nat (length d))
    (init_state (Z.of_nat (length d)))) as [[st ->]| ->]; [left|by right].
  by eexists _, _.
Qed.

Lemma minimal_perfect_hash_nil ss ks :
  minimal_perfect_hash [] = Ret (ss, ks) -> ss = [] /\ ks = [].
Proof. intros H. vm_compute in H. by injection H as <- <-. Qed.

(** X1. A table that [minimal_perfect_hash] returns decides membership in
    its input: for any integer [k], the slot that the two-level lookup
    (salt of the bucket of [k], then rehash with that salt) reaches holds
    [k] exactly when [k] is one of the input keys. *)
Theorem mph_lookup_decides_membership (d ss ks : list Z) (k : Z) :
  minimal_perfect_hash d = Ret (ss, ks) ->
  let n := Z.of_nat (length d) in
  ks !! Z.to_nat (my_hash k (ss !!! Z.to_nat (my_hash k 0 n)) n) = Some k <-> k ∈ d.
Proof.
  intros Hrun n. destruct d as [|k0 d0].
  { apply minimal_perfect_hash_nil in Hrun as [-> ->]. rewrite lookup_nil, elem_of_nil.
    split; [done|tauto]. }
  set (d := k0 :: d0) in *.
  destruct (minimal_perfect_hash_inv d ss ks) as (st & -> & -> & Hinv); [done..|].
  assert (0 < n) as Hn by (unfold n, d; cbn [length]; lia).
  split.
  - intros Hk. rewrite <- (result_keys_perm d st Hn Hinv). by eapply list_elem_of_lookup_2.
  - by apply (result_lookup d st Hn Hinv).
Qed.

Lemma mph_lookup_decides_membership_witness :
  minimal_perfect_hash [5; 9; 100; 257] = Ret ([3; 0; 2; 2], [100; 257; 5; 9]) /\
  ([100; 257; 5; 9] !! Z.to_nat (my_hash 9 ([3; 0; 2; 2] !!! Z.to_nat (my_hash 9 0 4)) 4)
     = Some 9 <-> 9 ∈ [5; 9; 100; 257]) /\
  ([100; 257; 5; 9] !! Z.to_nat (my_hash 7 ([3; 0; 2; 2] !!! Z.to_nat (my_hash 7 0 4)) 4)
     = Some 7 <-> 7 ∈ [5; 9; 100; 257]).
Proof.
  assert (minimal_perfect_hash [5; 9; 100; 257] = Ret ([3; 0; 2; 2], [100; 257; 5; 9])) as H
    by (vm_compute; reflexivity).
  split; [exact H|]. split.
  - exact (mph_lookup_decides_membership _ _ _ 9 H).
  - exact (mph_lookup_decides_membership _ _ _ 7 H).
Defined.

(** X2. Two entries of the input (at different positions) that are
    congruent modulo 2^32, in particular a key given twice, make the
    construction end with [exit(1)]: no salt can separate them. *)
Theorem mph_congruent_keys_exit (d : list Z) (i j : nat) (k1 k2 : Z) :
  i <> j -> d !! i = Some k1 -> d !! j = Some k2 ->
  k1 mod 2 ^ 32 = k2 mod 2 ^ 32 ->
  minimal_perfect_hash d = Raise SystemExit.
Proof.
  intros Hij Hi Hj Hcong.
  destruct (minimal_perfect_hash_outcome d) as [(ss & ks & Hrun)|Hexit]; [|done].
  exfalso.
  assert (d <> []) as Hd by (intros ->; by rewrite lookup_nil in Hi).
  destruct (minimal_perfect_hash_inv d ss ks Hd Hrun) as (st & -> & -> & Hinv).
  assert (0 < Z.of_nat (length d)) as Hn.
  { destruct d; [done|]. cbn [length]. lia. }
  pose proof (result_lookup d st Hn Hinv k1 ltac:(by eapply list_elem_of_lookup_2)) as H1.
  pose proof (result_lookup d st Hn Hinv k2 ltac:(by eapply list_elem_of_lookup_2)) as H2.
  rewrite (my_hash_congr k1 k2 0 0 _ Hcong eq_refl) in H1.
  rewrite (my_hash_congr k1 k2 _ _ _ Hcong eq_refl) in H1.
  assert (k1 = k2) as <- by congruence.
  apply Hij. eapply NoDup_lookup; [exact (result_NoDup d st Hn Hinv)|done..].
Qed.

Lemma mph_congruent_keys_exit_witness :
  minimal_perfect_hash [5; 9; 5 + 2 ^ 32] = Raise SystemExit /\
  minimal_perfect_hash [7; 7] = Raise SystemExit.
Proof.
  split.
  - apply (mph_congruent_keys_exit [5; 9; 5 + 2 ^ 32] 0 2 5 (5 + 2 ^ 32));
      [lia|reflexivity|reflexivity|reflexivity].
  - apply (mph_congruent_keys_exit [7; 7] 0 1 7 7); [lia|reflexivity..].
Defined.

Lemma place_comm salt n st k1 k2 :
  slot k1 salt n <> slot k2 salt n ->
  place salt n (place salt n st k1) k2 = place salt n (place salt n st k2) k1.
Proof.
  intros Hne. unfold place. cbn [claimed salts keys]. f_equal.
  - apply list_insert_insert_ne. congruence.
  - apply list_insert_insert_ne. congruence.
Qed.

Lemma foldl_place_perm salt n b b' :
  b ≡ₚ b' -> NoDup ((fun key => slot key salt n) <$> b) ->
  forall st, foldl (place salt n) st b = foldl (place salt n) st b'.
Proof.
  induction 1 as [|x l l' Hp IH|x y l|l l' l'' Hp1 IH1 Hp2 IH2]; intros Hnd st.
  - done.
  - cbn [foldl]. apply IH. rewrite fmap_cons in Hnd. by apply NoDup_cons in Hnd as [_ ?].
  - cbn [foldl]. f_equal. apply place_comm.
    rewrite !fmap_cons in Hnd. apply NoDup_cons in Hnd as [Hnd _].
    intros Heq. apply Hnd. rewrite Heq. left.
  - rewrite IH1 by done. apply IH2. by rewrite <- Hp1.
Qed.

Lemma salt_loop_perm candidates b b' h n st :
  0 < n -> b ≡ₚ b' ->
  salt_loop candidates b (Z.of_nat (length b)) h n st
  = salt_loop candidates b' (Z.of_nat (length b)) h n st.
Proof.
  intros Hn Hp. induction candidates as [|salt rest IH]; [done|].
  rewrite !salt_loop_cons.
  assert (forallb (fun hash => negb (claimed st !!! Z.to_nat hash))
            ((fun key => my_hash key salt n) <$> b)
          = forallb (fun hash => negb (claimed st !!! Z.to_nat hash))
            ((fun key => my_hash key salt n) <$> b')) as <-.
  { pose proof (forallb_unclaimed st salt n b) as H1.
    pose proof (forallb_unclaimed st salt n b') as H2.
    assert (Forall (fun key => claimed st !!! slot key salt n = false) b
            <-> Forall (fun key => claimed st !!! slot key salt n = false) b') as H3
      by (by rewrite Hp).
    destruct (forallb _ (_ <$> b)), (forallb _ (_ <$> b')); try done.
    - symmetry. apply H2, H3, H1. done.
    - apply H1, H3, H2. done. }
  assert ((list_to_set ((fun key => my_hash key salt n) <$> b') : gset Z)
          = list_to_set ((fun key => my_hash key salt n) <$> b)) as ->.
  { apply list_to_set_perm_L. by rewrite Hp. }
  destruct (forallb _ _); [|done].
  destruct (_ <? _) eqn:Hsz; [done|].
  apply foldl_place_perm; [done|]. apply NoDup_slots; [done|].
  apply size_list_to_set_NoDup. rewrite length_fmap. lia.
Qed.

Lemma process_perm bs buckets buckets' n st :
  0 < n ->
  (forall size h, (size, h) ∈ bs ->
     size = Z.of_nat (length (buckets !!! Z.to_nat h)) /\
     buckets !!! Z.to_nat h ≡ₚ buckets' !!! Z.to_nat h) ->
  process bs buckets n st = process bs buckets' n st.
Proof.
  intros Hn. revert st. induction bs as [|[size h] bs IH]; intros st Hbs; [done|].
  rewrite !process_cons.
  destruct (Hbs size h ltac:(left)) as [-> Hp].
  rewrite (salt_loop_perm _ _ _ _ _ _ Hn Hp).
  destruct (_ =? 0); [done|]. cbv zeta.
  destruct (_ =? 0); [done|].
  apply IH. intros size' h' Hin. apply Hbs. by right.
Qed.

Lemma fill_buckets_perm d d' n (h : nat) :
  d ≡ₚ d' -> fill_buckets d n !!! h ≡ₚ fill_buckets d' n !!! h.
Proof.
  intros Hp. destruct (decide (h < Z.to_nat n)%nat) as [Hh|Hh].
  - rewrite !fill_buckets_lookup by done. by rewrite Hp.
  - unfold fill_buckets.
    rewrite !list_lookup_total_alt, !foldl_add_key_lookup.
    rewrite (proj1 (lookup_replicate_None _ _ _)); [done|lia].
Qed.

(** X3. The outcome of [minimal_perfect_hash], the two tables or the
    [exit(1)], does not depend on the order in which the keys are given. *)
Theorem mph_input_order_irrelevant (d d' : list Z) :
  d ≡ₚ d' -> minimal_perfect_hash d = minimal_perfect_hash d'.
Proof.
  intros Hp. unfold minimal_perfect_hash. cbv zeta.
  rewrite <- (Permutation_length Hp).
  set (n := Z.of_nat (length d)).
  destruct (decide (0 < n)) as [Hn|Hn].
  2: { assert (d = []) as -> by (destruct d; [done|unfold n in Hn; cbn [length] in Hn; lia]).
       by apply Permutation_nil_l in Hp as <-. }
  assert (bucket_sizes (fill_buckets d' n) n = bucket_sizes (fill_buckets d n) n) as Hsz.
  { unfold bucket_sizes. apply list_fmap_ext. intros _ h _. cbv beta.
    by rewrite (Permutation_length (fill_buckets_perm d d' n (Z.to_nat h) Hp)). }
  unfold bsorted_of. rewrite Hsz.
  rewrite (process_perm _ (fill_buckets d n) (fill_buckets d' n) n _ Hn); [done|].
  intros size h Hin. split; [|by apply fill_buckets_perm].
  rewrite merge_sort_Permutation in Hin.
  unfold bucket_sizes in Hin. apply list_elem_of_fmap in Hin as (h' & [= -> ->] & _). done.
Qed.

Lemma mph_input_order_irrelevant_witness :
  minimal_perfect_hash [5; 9; 100; 257] = minimal_perfect_hash (reverse [5; 9; 100; 257]).
Proof.
  apply mph_input_order_irrelevant. symmetry. apply reverse_Permutation.
Defined.

Lemma salt_range_cons : salt_range = 1 :: range 2 32768.
Proof.
  unfold salt_range, range.
  replace (Z.to_nat (32768 - 1)) with (S (Z.to_nat (32768 - 2))) by lia.
  reflexivity.
Qed.

Lemma my_hash_one key salt : my_hash key salt 1 = 0.
Proof. pose proof (my_hash_range key salt 1). lia. Qed.

(** X4. The edge inputs: without keys both tables are empty, and a single
    key, whatever its value, gets the first salt tried, 1, and slot 0. *)
Theorem mph_small_inputs :
  minimal_perfect_hash [] = Ret ([], []) /\
  forall key : Z, minimal_perfect_hash [key] = Ret ([1], [key]).
Proof.
  split; [reflexivity|]. intros key.
  unfold minimal_perfect_hash. cbv zeta. change (Z.of_nat (length [key])) with 1.
  assert (fill_buckets [key] 1 = [[key]]) as ->.
  { unfold fill_buckets, add_key. cbn [foldl]. by rewrite my_hash_one. }
  assert (bsorted_of [[key]] 1 = [(1, 0)]) as -> by reflexivity.
  rewrite process_cons. cbn [Z.eqb]. cbv zeta.
  rewrite salt_range_cons, salt_loop_cons.
  change ([[key]] !!! Z.to_nat 0) with [key].
  cbn [fmap list_fmap]. rewrite my_hash_one.
  assert (forallb (fun hash => negb (claimed (init_state 1) !!! Z.to_nat hash)) [0] = true)
    as -> by reflexivity.
  assert ((Z.of_nat (size (list_to_set [0] : gset Z)) <? 1) = false) as ->
    by (vm_compute; reflexivity).
  cbn [foldl]. unfold place. rewrite my_hash_one. reflexivity.
Qed.

(** X5. [my_hash] reads its key and its salt modulo 2^32 only: adding
    multiples of 2^32 to either changes nothing, for every table size. *)
Theorem my_hash_shift (x s n a b : Z) :
  my_hash (x + a * 2 ^ 32) (s + b * 2 ^ 32) n = my_hash x s n.
Proof. apply my_hash_congr; by rewrite Z.mod_add by lia. Qed.

(** ** The decomposition resolver *)

Lemma concat_singletons (l : list Z) : concat ((fun x => [x]) <$> l) = l.
Proof. induction l as [|x l IH]; [done|]. cbn. by rewrite IH. Qed.

(** X6. What [_decompose] yields is final: every codepoint of a result is
    outside the Hangul syllables and decomposes, in the same mode, to
    itself alone, so that decomposing a result member by member gives the
    result back. *)
Theorem decompose_result_final cd cpd (compatible : bool) (c : Z) (l : list Z) :
  decomposes cd cpd compatible c l ->
  Forall (fun x => is_hangul x = false /\ decomposes cd cpd compatible x [x]) l /\
  expands cd cpd compatible l l.
Proof.
  intros [fuel Hrun].
  assert (Forall (fun x => is_hangul x = false /\ decomposes cd cpd compatible x [x]) l) as Hall.
  { apply Forall_forall. intros x Hx.
    pose proof (decompose_leaves _ _ _ _ _ _ _ Hrun Hx) as Hleaf. split.
    - destruct Hleaf as [Hascii|[? _]]; [|done].
      destruct (is_hangul x) eqn:Hh; [|done]. apply is_hangul_range in Hh. lia.
    - exists 1%nat. by apply decompose_leaf. }
  split; [done|]. exists ((fun x => [x]) <$> l). split; [|by rewrite concat_singletons].
  apply Forall2_fmap_r, Forall_Forall2_diag. eapply Forall_impl; [exact Hall|].
  by intros x [_ ?].
Qed.

Lemma decompose_result_final_witness :
  let cd : gmap Z (list Z) := {[ 0x1E69 := [0x1E63; 0x307]; 0x1E63 := [0x73; 0x323] ]} in
  decomposes cd ∅ false 0x1E69 [0x73; 0x323; 0x307] /\
  Forall (fun x => is_hangul x = false /\ decomposes cd ∅ false x [x]) [0x73; 0x323; 0x307] /\
  expands cd ∅ false [0x73; 0x323; 0x307] [0x73; 0x323; 0x307].
Proof.
  intros cd.
  assert (decomposes cd ∅ false 0x1E69 [0x73; 0x323; 0x307]) as H
    by (exists 3%nat; vm_compute; reflexivity).
  split; [exact H|]. exact (decompose_result_final cd ∅ false 0x1E69 _ H).
Defined.

(** X7. The compatibility decomposition of a codepoint is obtained from
    its canonical decomposition by decomposing each member in compatibility
    mode: the two modes never disagree on the canonical part. *)
Theorem compat_decomposition_refines_canonical cd cpd (c : Z) (l l2 : list Z) :
  decomposes cd cpd false c l -> decomposes cd cpd true c l2 ->
  expands cd cpd true l l2.
Proof.
  intros [f1 H1] [f2 H2].
  assert (_decompose (f1 `max` f2) cd cpd c false = Ret l) as H1'.
  { rewrite (decompose_mono f1 (f1 `max` f2)); [done|lia|by rewrite H1]. }
  assert (_decompose (f1 `max` f2) cd cpd c true = Ret l2) as H2'.
  { rewrite (decompose_mono f2 (f1 `max` f2)); [done|lia|by rewrite H2]. }
  pose proof (canon_then_compat _ _ _ _ _ _ H1' H2') as Hexp.
  apply expand_Ret in Hexp as (ls & Hall & ->). exists ls. split; [|done].
  eapply Forall2_impl; [exact Hall|]. intros d l' Hd.
  exists (f1 `max` f2)%nat. exact Hd.
Qed.

Lemma compat_decomposition_refines_canonical_witness :
  let cd : gmap Z (list Z) := {[ 0x1E9B := [0x17F; 0x307] ]} in
  let cpd : gmap Z (list Z) := {[ 0x17F := [0x73] ]} in
  expands cd cpd true [0x17F; 0x307] [0x73; 0x307].
Proof.
  intros cd cpd. apply (compat_decomposition_refines_canonical cd cpd 0x1E9B).
  - exists 2%nat. vm_compute. reflexivity.
  - exists 3%nat. vm_compute. reflexivity.
Defined.

Lemma decompose_member_returns fuel cd cpd compatible c d l :
  _decompose (S fuel) cd cpd c compatible = Ret l ->
  raw_member cd cpd compatible c d ->
  exists l', _decompose fuel cd cpd d compatible = Ret l'.
Proof.
  intros Hrun (Hc & decomp & Hd & Hraw). rewrite decompose_S in Hrun.
  destruct (c <=? 0x7f) eqn:Hascii; [lia|].
  apply bind_Ret in Hrun as (_ & _ & Hrun).
  assert (expand (fun d => _decompose fuel cd cpd d compatible) decomp = Ret l) as Hexp.
  { destruct Hraw as [Hcd|(Hcd & -> & Hcpd)]; rewrite Hcd in Hrun; [done|].
    assert (contains cpd c = true) as Hin by (apply contains_true; by eexists).
    rewrite Hin in Hrun. cbn [andb] in Hrun. unfold getitem in Hrun.
    by rewrite Hcpd in Hrun. }
  apply expand_Ret in Hexp as (ls & Hall & _).
  apply list_elem_of_lookup in Hd as [i Hi].
  destruct (Forall2_lookup_l _ _ _ _ _ Hall Hi) as (l' & _ & Hl'). by eexists.
Qed.

(** X8. A raw decomposition that leads back to its own codepoint, directly
    or through other decompositions, is never resolved: [_decompose]
    returns no list for that codepoint, however deep it may recurse. *)
Theorem decompose_cycle_never_returns cd cpd (compatible : bool) (c : Z) :
  tc (raw_member cd cpd compatible) c c ->
  forall l, ~ decomposes cd cpd compatible c l.
Proof.
  intros Hcycle l [fuel Hrun]. revert c l Hcycle Hrun.
  induction fuel as [|fuel IH]; intros c l Hcycle Hrun; [done|].
  inversion Hcycle as [? ? Hstep|? d ? Hstep Hback]; subst.
  - destruct (decompose_member_returns _ _ _ _ _ _ _ Hrun Hstep) as [l' Hl'].
    by eapply IH.
  - destruct (decompose_member_returns _ _ _ _ _ _ _ Hrun Hstep) as [l' Hl'].
    eapply (IH d); [|exact Hl']. eapply tc_r; [exact Hback|exact Hstep].
Qed.

Lemma decompose_cycle_never_returns_witness :
  let cd : gmap Z (list Z) := {[ 0xC0 := [0x41; 0xC1]; 0xC1 := [0xC0] ]} in
  ~ exists l, decomposes cd ∅ false 0xC0 l.
Proof.
  intros cd [l Hl]. revert l Hl. apply decompose_cycle_never_returns.
  apply tc_l with 0xC1; [|apply tc_once].
  - split; [lia|]. exists [0x41; 0xC1]. split; [|by left]. right. left.
  - split; [lia|]. exists [0xC0]. split; [|by left]. left.
Defined.

(** ** The fully decomposed tables, continued *)

Lemma decompose_not_self fuel cd cpd compatible c l :
  _decompose fuel cd cpd c compatible = Ret l ->
  0x7f < c ->
  is_Some (cd !! c) \/ (compatible = true /\ is_Some (cpd !! c)) ->
  is_self l c = false.
Proof.
  intros Hrun Hc Hraw. destruct (is_self l c) eqn:Hs; [|done].
  apply is_self_true in Hs as ->.
  destruct (decompose_leaves _ _ _ _ _ _ c Hrun ltac:(left)) as [?|(_ & Hcd & Hcpd)]; [lia|].
  destruct Hraw as [[? Hx]|[-> [? Hx]]]; [congruence|]. rewrite Hcpd in Hx; done.
Qed.

Lemma decompose_self_no_entry fuel cd cpd compatible c l :
  _decompose fuel cd cpd c compatible = Ret l -> is_self l c = false ->
  0x7f < c /\ (is_Some (cd !! c) \/ (compatible = true /\ is_Some (cpd !! c))).
Proof.
  intros Hrun Hs. destruct fuel as [|fuel]; [done|].
  destruct (decide (c <= 0x7f)) as [Hascii|Hascii].
  { rewrite decompose_leaf in Hrun by (by left). injection Hrun as <-.
    cbn in Hs. rewrite Z.eqb_refl in Hs. done. }
  split; [lia|].
  destruct (cd !! c) as [decomp|] eqn:Hcd; [left; by eexists|].
  destruct compatible.
  - destruct (cpd !! c) as [decomp|] eqn:Hcpd; [right; split; [done|by eexists]|].
    exfalso. rewrite decompose_leaf in Hrun.
    + injection Hrun as <-. cbn in Hs. rewrite Z.eqb_refl in Hs. done.
    + right. split; [|split; [exact Hcd|intros _; exact Hcpd]]. rewrite decompose_S in Hrun.
      destruct (c <=? 0x7f) eqn:E; [lia|].
      destruct (is_hangul c); [|done]. cbn in Hrun. done.
  - exfalso. rewrite decompose_leaf in Hrun.
    + injection Hrun as <-. cbn in Hs. rewrite Z.eqb_refl in Hs. done.
    + right. split; [|split; [exact Hcd|by intros ?]]. rewrite decompose_S in Hrun.
      destruct (c <=? 0x7f) eqn:E; [lia|].
      destruct (is_hangul c); [|done]. cbn in Hrun. done.
Qed.

(** X9. The keys of the tables that [_compute_fully_decomposed] returns:
    the canonical table has an entry exactly for the codepoints above 0x7F,
    outside the Hangul syllables, that have a raw canonical decomposition;
    every key of the compatibility table has a raw canonical or
    compatibility decomposition, and a codepoint with a raw compatibility
    decomposition only is always a key of it. *)
Theorem fully_decomposed_keys (fuel : nat) (cd cpd cf cpf : gmap Z (list Z)) :
  _compute_fully_decomposed fuel cd cpd = Ret (cf, cpf) ->
  (forall c, is_Some (cf !! c) <->
     0x7f < c /\ is_hangul c = false /\ is_Some (cd !! c)) /\
  (forall c, is_Some (cpf !! c) ->
     0x7f < c /\ is_hangul c = false /\ (is_Some (cd !! c) \/ is_Some (cpd !! c))) /\
  (forall c, 0x7f < c -> is_hangul c = false -> cd !! c = None -> is_Some (cpd !! c) ->
     is_Some (cpf !! c)).
Proof.
  intros Hrun. apply compute_fully_decomposed_Ret in Hrun as (cpf0 & Hloop & ->).
  destruct (loop_spec _ _ _ _ _ Hloop) as (m & Hmax & Htotal & Hcf & Hcpf0).
  assert (forall c, is_Some (cf !! c) <->
     0x7f < c /\ is_hangul c = false /\ is_Some (cd !! c)) as Hkeys.
  { intros c. split.
    - intros [l Hl]. apply Hcf in Hl as (_ & Hh & Hl & Hs).
      destruct (decompose_self_no_entry _ _ _ _ _ _ Hl Hs) as [? [?|[? _]]]; done.
    - intros (Hc & Hh & Hraw).
      destruct (Htotal c) as (canon & _ & Hcanon & _); [|done|].
      { split; [lia|]. apply Hmax. by left. }
      exists canon. apply Hcf. split; [|split; [done|split; [done|]]].
      + split; [lia|]. apply Hmax. by left.
      + eapply decompose_not_self; [done..|by left]. }
  split; [done|]. split.
  - intros c [l Hl]. apply dedup_lookup in Hl as [Hl _].
    apply Hcpf0 in Hl as (_ & Hh & Hl & Hs).
    destruct (decompose_self_no_entry _ _ _ _ _ _ Hl Hs) as [? [?|[_ ?]]]; auto.
  - intros c Hc Hh Hcd Hraw.
    destruct (Htotal c) as (_ & compat & _ & Hcompat); [|done|].
    { split; [lia|]. apply Hmax. by right. }
    exists compat. apply dedup_lookup. split.
    + apply Hcpf0. split; [|split; [done|split; [done|]]].
      * split; [lia|]. apply Hmax. by right.
      * eapply decompose_not_self; [done..|by right].
    + intros Hx. assert (is_Some (cf !! c)) as Hsome by (by eexists).
      apply Hkeys in Hsome as (_ & _ & [? ?]). congruence.
Qed.

Lemma fully_decomposed_keys_witness :
  let cd : gmap Z (list Z) := {[ 0x1E9B := [0x17F; 0x307]; 0x41 := [0x42] ]} in
  let cpd : gmap Z (list Z) := {[ 0x17F := [0x73] ]} in
  exists cf cpf,
    _compute_fully_decomposed 4 cd cpd = Ret (cf, cpf) /\
    (is_Some (cf !! 0x1E9B) <->
       0x7f < 0x1E9B /\ is_hangul 0x1E9B = false /\ is_Some (cd !! 0x1E9B)) /\
    (is_Some (cf !! 0x41) <->
       0x7f < 0x41 /\ is_hangul 0x41 = false /\ is_Some (cd !! 0x41)) /\
    is_Some (cpf !! 0x17F).
Proof.
  intros cd cpd.
  destruct (_compute_fully_decomposed 4 cd cpd) as [[cf cpf]| |] eqn:Hrun;
    [|vm_compute in Hrun; discriminate..].
  exists cf, cpf. split; [done|].
  destruct (fully_decomposed_keys 4 cd cpd cf cpf Hrun) as (Hcf & _ & Hcpf).
  split; [apply Hcf|]. split; [apply Hcf|].
  apply Hcpf; [lia|reflexivity|reflexivity|]. by eexists.
Defined.

Lemma expand_Raise rec decomp e :
  expand rec decomp = Raise e -> exists d, d ∈ decomp /\ rec d = Raise e.
Proof.
  induction decomp as [|d rest IH]; [done|]. cbn [expand].
  destruct (rec d) as [l| |] eqn:Hd; cbn.
  - destruct (expand rec rest) as [ls| |]; cbn; [done| |done].
    intros [= <-]. destruct IH as (d' & ? & ?); [done|]. exists d'. split; [by right|done].
  - intros [= <-]. exists d. split; [left|done].
  - done.
Qed.

Lemma decompose_Raise fuel cd cpd c compatible e :
  _decompose fuel cd cpd c compatible = Raise e ->
  e = AssertionError /\
  exists h, rtc (raw_member cd cpd compatible) c h /\ is_hangul h = true.
Proof.
  revert c. induction fuel as [|fuel IH]; intros c; [done|].
  rewrite decompose_S. destruct (c <=? 0x7f) eqn:Hascii; [done|].
  destruct (is_hangul c) eqn:Hh; cbn.
  { intros [= <-]. split; [done|]. by exists c. }
  assert (forall decomp,
    (cd !! c = Some decomp \/
     (cd !! c = None /\ compatible = true /\ cpd !! c = Some decomp)) ->
    expand (fun d => _decompose fuel cd cpd d compatible) decomp = Raise e ->
    e = AssertionError /\
    exists h, rtc (raw_member cd cpd compatible) c h /\ is_hangul h = true) as Hexp.
  { intros decomp Hraw Hrun. apply expand_Raise in Hrun as (d & Hd & Hrun).
    destruct (IH _ Hrun) as (-> & h & Hpath & Hhan). split; [done|].
    exists h. split; [|done]. eapply rtc_l; [|exact Hpath].
    split; [lia|]. by exists decomp. }
  destruct (cd !! c) as [decomp|] eqn:Hcd; [apply Hexp; by left|].
  destruct compatible; cbn [andb]; [|done].
  destruct (contains cpd c) eqn:Hin; [|done].
  apply contains_true in Hin as [decomp Hcpd]. unfold getitem. rewrite Hcpd. cbn.
  apply Hexp. by right.
Qed.

Lemma foldM_Raise {A B} (f : A -> B -> outcome A) (l : list B) (a : A) e :
  foldM f a l = Raise e -> exists a' x, x ∈ l /\ f a' x = Raise e.
Proof.
  revert a. induction l as [|x l IH]; intros a; [done|]. cbn [foldM].
  destruct (f a x) as [a'| |] eqn:Hf; cbn; [|intros [= <-]|done].
  - intros Hrun. destruct (IH _ Hrun) as (a'' & y & ? & ?). exists a'', y. split; [by right|done].
  - exists a, x. split; [left|done].
Qed.

Lemma max_key_outcome {V} (d : gmap Z V) :
  (d = ∅ /\ max_key d = Raise ValueError) \/ (d <> ∅ /\ exists m, max_key d = Ret m).
Proof.
  unfold max_key. destruct (elements (dom d)) as [|k ks] eqn:Hel.
  - left. split; [|done]. apply elements_empty_inv in Hel. apply leibniz_equiv in Hel.
    by apply dom_empty_inv_L.
  - right. split; [|by eexists]. intros ->. rewrite dom_empty_L, elements_empty in Hel. done.
Qed.

(** The exceptions of [_compute_fully_decomposed]: [ValueError] exactly
    when one of the two raw tables is empty, and otherwise the
    [AssertionError] of the resolver, on raw decompositions that lead to a
    Hangul syllable. *)
Lemma fully_decomposed_raises (fuel : nat) (cd cpd : gmap Z (list Z)) :
  (_compute_fully_decomposed fuel cd cpd = Raise ValueError <-> cd = ∅ \/ cpd = ∅) /\
  (forall e, _compute_fully_decomposed fuel cd cpd = Raise e -> e <> ValueError ->
     e = AssertionError /\
     exists compatible c h,
       0 <= c /\ is_hangul c = false /\
       rtc (raw_member cd cpd compatible) c h /\ is_hangul h = true).
Proof.
  assert (forall e, _compute_fully_decomposed fuel cd cpd = Raise e ->
    (e = ValueError /\ (cd = ∅ \/ cpd = ∅)) \/
    (cd <> ∅ /\ cpd <> ∅ /\ e = AssertionError /\
     exists compatible c h,
       0 <= c /\ is_hangul c = false /\
       rtc (raw_member cd cpd compatible) c h /\ is_hangul h = true)) as Hcases.
  { intros e. unfold _compute_fully_decomposed.
    destruct (fully_decomposed_loop fuel cd cpd) as [[cf cpf0]| |] eqn:Hloop; cbn; [| |done].
    { rewrite dedup_pass_Ret by (by eapply loop_subset). done. }
    intros [= <-]. unfold fully_decomposed_loop in Hloop.
    destruct (max_key_outcome cd) as [[Hcd H1]|[Hcd [m1 H1]]]; rewrite H1 in Hloop.
    { cbn in Hloop. injection Hloop as <-. left. auto. }
    cbn [mbind outcome_bind] in Hloop.
    destruct (max_key_outcome cpd) as [[Hcpd H2]|[Hcpd [m2 H2]]]; rewrite H2 in Hloop.
    { cbn in Hloop. injection Hloop as <-. left. auto. }
    cbn [mbind outcome_bind] in Hloop. right. split; [done|]. split; [done|].
    apply foldM_Raise in Hloop as (t & c & Hc & Hstep).
    apply elem_of_range in Hc. unfold decomp_step in Hstep.
    destruct (is_hangul c) eqn:Hh; [done|].
    destruct (_decompose fuel cd cpd c false) as [canon| |] eqn:Hcanon; cbn in Hstep.
    - destruct (_decompose fuel cd cpd c true) as [compat| |] eqn:Hcompat;
        cbn in Hstep; [done| |done].
      injection Hstep as <-.
      destruct (decompose_Raise _ _ _ _ _ _ Hcompat) as (-> & h & ? & ?).
      split; [done|]. exists true, c, h. repeat split; [lia|done..].
    - injection Hstep as <-.
      destruct (decompose_Raise _ _ _ _ _ _ Hcanon) as (-> & h & ? & ?).
      split; [done|]. exists false, c, h. repeat split; [lia|done..].
    - done. }
  split; [split|].
  - intros Hrun. destruct (Hcases _ Hrun) as [[_ ?]|(_ & _ & ? & _)]; done.
  - unfold _compute_fully_decomposed, fully_decomposed_loop.
    destruct (max_key_outcome cd) as [[_ Hm1]|[Hcd [m1 Hm1]]]; rewrite Hm1; [done|].
    cbn [mbind outcome_bind].
    destruct (max_key_outcome cpd) as [[_ Hm2]|[Hcpd [m2 Hm2]]]; rewrite Hm2; [done|].
    intros [?|?]; done.
  - intros e Hrun He. destruct (Hcases _ Hrun) as [[? _]|(_ & _ & ? & ?)]; done.
Qed.

Lemma expand_OutOfFuel rec decomp :
  expand rec decomp = OutOfFuel -> exists d, d ∈ decomp /\ rec d = OutOfFuel.
Proof.
  induction decomp as [|d rest IH]; [done|]. cbn [expand].
  destruct (rec d) as [l| |] eqn:Hd; cbn.
  - destruct (expand rec rest) as [ls| |]; cbn; [done|done|].
    intros _. destruct IH as (d' & ? & ?); [done|]. exists d'. split; [by right|done].
  - done.
  - intros _. exists d. split; [left|done].
Qed.

Lemma decompose_OutOfFuel fuel cd cpd c compatible :
  _decompose fuel cd cpd c compatible = OutOfFuel ->
  exists d, nsteps (raw_member cd cpd compatible) fuel c d.
Proof.
  revert c. induction fuel as [|fuel IH]; intros c; [intros _; exists c; constructor|].
  rewrite decompose_S. destruct (c <=? 0x7f) eqn:Hascii; [done|].
  destruct (is_hangul c) eqn:Hh; cbn; [done|].
  assert (forall decomp,
    (cd !! c = Some decomp \/
     (cd !! c = None /\ compatible = true /\ cpd !! c = Some decomp)) ->
    expand (fun d => _decompose fuel cd cpd d compatible) decomp = OutOfFuel ->
    exists d, nsteps (raw_member cd cpd compatible) (S fuel) c d) as Hexp.
  { intros decomp Hraw Hrun. apply expand_OutOfFuel in Hrun as (d & Hd & Hrun).
    destruct (IH _ Hrun) as (d' & Hpath). exists d'.
    eapply nsteps_l; [|exact Hpath]. split; [lia|]. by exists decomp. }
  destruct (cd !! c) as [decomp|] eqn:Hcd; [apply Hexp; by left|].
  destruct compatible; cbn [andb]; [|done].
  destruct (contains cpd c) eqn:Hin; [|done].
  apply contains_true in Hin as [decomp Hcpd]. unfold getitem. rewrite Hcpd. cbn.
  apply Hexp. by right.
Qed.

Lemma foldM_OutOfFuel {A B} (f : A -> B -> outcome A) (l : list B) (a : A) :
  foldM f a l = OutOfFuel -> exists a' x, x ∈ l /\ f a' x = OutOfFuel.
Proof.
  revert a. induction l as [|x l IH]; intros a; [done|]. cbn [foldM].
  destruct (f a x) as [a'| |] eqn:Hf; cbn; [|done|].
  - intros Hrun. destruct (IH _ Hrun) as (a'' & y & ? & ?). exists a'', y. split; [by right|done].
  - intros _. exists a, x. split; [left|done].
Qed.

(** X10. How [_compute_fully_decomposed] fails. It raises [ValueError]
    (the [max] of an empty sequence) exactly when one of the two raw tables
    is empty. With both tables non-empty, a run that does not return ends
    in the resolver, on a codepoint of the loop that is no Hangul syllable:
    with [AssertionError] only if its raw decompositions lead to a Hangul
    syllable, and by running out of recursion depth ([RecursionError], the
    outcome [OutOfFuel]) only if raw decompositions chain from it as many
    steps as the depth allowed, as cyclic data does. No [KeyError] is
    raised, and the assertion on the key sets never fails. *)
Theorem fully_decomposed_errors (fuel : nat) (cd cpd : gmap Z (list Z)) :
  (_compute_fully_decomposed fuel cd cpd = Raise ValueError <-> cd = ∅ \/ cpd = ∅) /\
  (forall e, _compute_fully_decomposed fuel cd cpd = Raise e -> e <> ValueError ->
     e = AssertionError /\
     exists compatible c h,
       0 <= c /\ is_hangul c = false /\
       rtc (raw_member cd cpd compatible) c h /\ is_hangul h = true) /\
  (_compute_fully_decomposed fuel cd cpd = OutOfFuel ->
     cd <> ∅ /\ cpd <> ∅ /\
     exists compatible c d,
       0 <= c /\ is_hangul c = false /\
       nsteps (raw_member cd cpd compatible) fuel c d).
Proof.
  destruct (fully_decomposed_raises fuel cd cpd) as [Hvalue Hassert].
  split; [exact Hvalue|]. split; [exact Hassert|].
  unfold _compute_fully_decomposed.
  destruct (fully_decomposed_loop fuel cd cpd) as [[cf cpf0]| |] eqn:Hloop; cbn; [|done|].
  { rewrite dedup_pass_Ret by (by eapply loop_subset). done. }
  intros _. unfold fully_decomposed_loop in Hloop.
  destruct (max_key_outcome cd) as [[Hcd H1]|[Hcd [m1 H1]]]; rewrite H1 in Hloop; [done|].
  cbn [mbind outcome_bind] in Hloop.
  destruct (max_key_outcome cpd) as [[Hcpd H2]|[Hcpd [m2 H2]]]; rewrite H2 in Hloop; [done|].
  cbn [mbind outcome_bind] in Hloop. split; [done|]. split; [done|].
  apply foldM_OutOfFuel in Hloop as (t & c & Hc & Hstep).
  apply elem_of_range in Hc. unfold decomp_step in Hstep.
  destruct (is_hangul c) eqn:Hh; [done|].
  destruct (_decompose fuel cd cpd c false) as [canon| |] eqn:Hcanon; cbn in Hstep.
  - destruct (_decompose fuel cd cpd c true) as [compat| |] eqn:Hcompat;
      cbn in Hstep; [done|done|].
    destruct (decompose_OutOfFuel _ _ _ _ _ Hcompat) as [d Hd].
    exists true, c, d. split; [lia|done].
  - done.
  - destruct (decompose_OutOfFuel _ _ _ _ _ Hcanon) as [d Hd].
    exists false, c, d. split; [lia|done].
Qed.

Lemma fully_decomposed_errors_witness :
  _compute_fully_decomposed 3 {[ 0xC0 := [0x41; 0x300] ]} ∅ = Raise ValueError /\
  _compute_fully_decomposed 3 {[ 0xC0 := [0xAC00] ]} {[ 0xC1 := [0x41] ]}
    = Raise AssertionError /\
  _compute_fully_decomposed 3 {[ 0xC0 := [0x41; 0xC0] ]} {[ 0xC1 := [0x41] ]} = OutOfFuel /\
  exists compatible c d,
    nsteps (raw_member {[ 0xC0 := [0x41; 0xC0] ]} {[ 0xC1 := [0x41] ]} compatible) 3 c d.
Proof.
  split; [|split].
  - apply (fully_decomposed_errors 3 {[ 0xC0 := [0x41; 0x300] ]} ∅). by right.
  - destruct (_compute_fully_decomposed 3 {[ 0xC0 := [0xAC00] ]} {[ 0xC1 := [0x41] ]})
      as [t|e|] eqn:Hrun; [vm_compute in Hrun; discriminate| |vm_compute in Hrun; discriminate].
    destruct (proj1 (proj2 (fully_decomposed_errors 3 {[ 0xC0 := [0xAC00] ]}
                              {[ 0xC1 := [0x41] ]})) e Hrun) as [-> _]; [|reflexivity].
    intros ->. vm_compute in Hrun. discriminate.
  - assert (_compute_fully_decomposed 3 {[ 0xC0 := [0x41; 0xC0] ]} {[ 0xC1 := [0x41] ]}
            = OutOfFuel) as Hrun by (vm_compute; reflexivity).
    split; [exact Hrun|].
    destruct (proj2 (proj2 (fully_decomposed_errors 3 {[ 0xC0 := [0x41; 0xC0] ]}
                              {[ 0xC1 := [0x41] ]})) Hrun)
      as (_ & _ & compatible & c & d & _ & _ & Hpath).
    by exists compatible, c, d.
Defined.

(** ** The stream-safe tables, continued *)

(** X11. [_compute_stream_safe_tables], on arbitrary tables, either returns
    or raises [KeyError], and it raises exactly when some codepoint has an
    empty compatibility entry and no canonical entry: the empty list is
    false for [or], and the fallback [canon_fully_decomp[c]] misses. *)
Theorem stream_safe_key_error (cf cpf : gmap Z (list Z)) (cc : gmap Z string) :
  (_compute_stream_safe_tables cf cpf cc = Raise KeyError <->
   exists c, cpf !! c = Some [] /\ cf !! c = None) /\
  ((exists t, _compute_stream_safe_tables cf cpf cc = Ret t) \/
   _compute_stream_safe_tables cf cpf cc = Raise KeyError).
Proof.
  unfold _compute_stream_safe_tables.
  set (chs := elements (dom cf ∪ dom cpf)).
  assert (forall c, c ∈ chs <-> is_Some (cf !! c) \/ is_Some (cpf !! c)) as Hchs.
  { intros c. unfold chs. by rewrite elem_of_elements, elem_of_union, !elem_of_dom. }
  destruct (decide (Exists (fun c => cpf !! c = Some [] /\ cf !! c = None) chs)) as [Hex|Hex].
  - apply Exists_exists in Hex as (c & Hc & Hcpf & Hcf).
    assert (foldM (stream_safe_step cf cpf cc) (∅, ∅) chs = Raise KeyError) as ->.
    { apply foldM_Raise_step with c; [done| |].
      - intros t. unfold stream_safe_step, representative, getitem. by rewrite Hcpf, Hcf.
      - intros t y _. destruct (stream_safe_step_outcome cf cpf cc t y) as [?|[? _]]; auto. }
    split; [|by right]. split; [|done]. intros _. by exists c.
  - destruct (foldM_Ret_all (stream_safe_step cf cpf cc) chs (∅, ∅)) as [t Ht].
    { intros t y Hy. destruct (stream_safe_step_outcome cf cpf cc t y)
        as [?|(_ & Hcpf & Hcf)]; [done|]. exfalso.
      destruct Hcpf as [Hcpf|Hcpf].
      - apply Hchs in Hy as [[? ?]|[? ?]]; congruence.
      - apply Hex, Exists_exists. by exists y. }
    rewrite Ht. split; [|left; by eexists]. split; [done|].
    intros (c & Hcpf & Hcf). exfalso. apply Hex, Exists_exists. exists c.
    split; [|done]. apply Hchs. right. by eexists.
Qed.

Lemma count_nonstarters_le cc l : count_nonstarters cc l <= Z.of_nat (length l).
Proof.
  induction l as [|d l IH]; [done|]. cbn [count_nonstarters length].
  destruct (contains cc d); cbn [negb]; lia.
Qed.

Lemma count_nonstarters_full cc l :
  count_nonstarters cc l = Z.of_nat (length l) <-> Forall (nonstarter cc) l.
Proof.
  induction l as [|d l IH]; [by split|]. cbn [count_nonstarters length].
  pose proof (count_nonstarters_le cc l). pose proof (count_nonstarters_nonneg cc l).
  rewrite Forall_cons. unfold nonstarter at 1. rewrite <- contains_true.
  destruct (contains cc d); cbn [negb].
  - rewrite <- IH. split; [intros ?; split; [done|lia]|intros [_ ?]; lia].
  - split; [lia|]. by intros [? _].
Qed.

(** X12. The two counts of a codepoint, read with 0 for a missing entry,
    lie between 0 and the length of the expansion used, no stored count is
    0, and the leading count reaches that length exactly when the trailing
    count does, which is when every member of the expansion is a
    non-starter. *)
Theorem stream_safe_counts (cf cpf : gmap Z (list Z)) (cc : gmap Z string)
    (leading trailing : gmap Z Z) (c : Z) :
  _compute_stream_safe_tables cf cpf cc = Ret (leading, trailing) ->
  is_Some (cf !! c) \/ is_Some (cpf !! c) ->
  exists decomposed,
    representative cf cpf c = Ret decomposed /\
    let len := Z.of_nat (length decomposed) in
    let a := default 0 (leading !! c) in
    let b := default 0 (trailing !! c) in
    0 <= a <= len /\ 0 <= b <= len /\
    leading !! c <> Some 0 /\ trailing !! c <> Some 0 /\
    (a = len <-> Forall (nonstarter cc) decomposed) /\
    (b = len <-> Forall (nonstarter cc) decomposed).
Proof.
  intros Hrun Hc. unfold _compute_stream_safe_tables in Hrun.
  pose proof (stream_safe_fold _ _ _ _ _ _ (NoDup_elements _) Hrun c) as [_ Hin].
  destruct Hin as (decomposed & Hrep & Hlead & Htrail).
  { by rewrite elem_of_elements, elem_of_union, !elem_of_dom. }
  cbn [fst snd] in Hlead, Htrail. rewrite lookup_empty in Hlead, Htrail.
  exists decomposed. split; [done|]. cbv zeta in *.
  pose proof (count_nonstarters_le cc decomposed) as Hle1.
  pose proof (count_nonstarters_nonneg cc decomposed) as Hge1.
  pose proof (count_nonstarters_le cc (reverse decomposed)) as Hle2.
  pose proof (count_nonstarters_nonneg cc (reverse decomposed)) as Hge2.
  pose proof (count_nonstarters_full cc decomposed) as Hfull1.
  pose proof (count_nonstarters_full cc (reverse decomposed)) as Hfull2.
  rewrite Forall_reverse in Hfull2. rewrite length_reverse in Hle2, Hfull2.
  assert (default 0 (leading !! c) = count_nonstarters cc decomposed) as Ha.
  { rewrite Hlead. destruct (Z.ltb_spec 0 (count_nonstarters cc decomposed)); cbn; lia. }
  assert (default 0 (trailing !! c) = count_nonstarters cc (reverse decomposed)) as Hb.
  { rewrite Htrail.
    destruct (Z.ltb_spec 0 (count_nonstarters cc (reverse decomposed))); cbn; lia. }
  rewrite Ha, Hb. split; [lia|]. split; [lia|]. split; [|split; [|done]].
  - rewrite Hlead. destruct (Z.ltb_spec 0 (count_nonstarters cc decomposed)); [|done].
    intros [= ?]. lia.
  - rewrite Htrail.
    destruct (Z.ltb_spec 0 (count_nonstarters cc (reverse decomposed))); [|done].
    intros [= ?]. lia.
Qed.

Lemma stream_safe_counts_witness :
  let cf : gmap Z (list Z) := {[ 0x344 := [0x308; 0x301]; 0xC0 := [0x41; 0x300] ]} in
  let cc : gmap Z string := {[ 0x308 := "230"%string; 0x301 := "230"%string;
                                0x300 := "230"%string ]} in
  (exists decomposed, representative cf ∅ 0x344 = Ret decomposed /\
     Forall (nonstarter cc) decomposed) /\
  (exists decomposed, representative cf ∅ 0xC0 = Ret decomposed /\
     ~ Forall (nonstarter cc) decomposed).
Proof.
  intros cf cc.
  destruct (_compute_stream_safe_tables cf ∅ cc) as [[leading trailing]| |] eqn:Hrun;
    [|vm_compute in Hrun; discriminate..].
  assert (leading !! 0x344 = Some 2 /\ leading !! 0xC0 = None) as [H1 H2].
  { vm_compute in Hrun. injection Hrun as <- <-. split; reflexivity. }
  split.
  - destruct (stream_safe_counts cf ∅ cc leading trailing 0x344 Hrun) as (l & Hl & H).
    { left. by eexists. }
    exists l. split; [done|]. cbv zeta in H. destruct H as (_ & _ & _ & _ & Hfull & _).
    apply Hfull. rewrite H1. vm_compute in Hl. injection Hl as <-. reflexivity.
  - destruct (stream_safe_counts cf ∅ cc leading trailing 0xC0 Hrun) as (l & Hl & H).
    { left. by eexists. }
    exists l. split; [done|]. cbv zeta in H. destruct H as (_ & _ & _ & _ & Hfull & _).
    intros Hall. apply Hfull in Hall. rewrite H2 in Hall.
    vm_compute in Hl. injection Hl as <-. discriminate.
Defined.

(** ** The generated tables *)

Import Emit.

Lemma elem_of_dict_keys {V} (d : gmap Z V) (x : Z) : x ∈ dict_keys d <-> is_Some (d !! x).
Proof.
  unfold dict_keys. rewrite list_elem_of_fmap. split.
  - intros ([k v] & -> & Hin). apply elem_of_map_to_list in Hin. by eexists.
  - intros [v Hv]. exists (x, v). split; [done|]. by apply elem_of_map_to_list.
Qed.

Lemma mph_tables d ss ks :
  minimal_perfect_hash d = Ret (ss, ks) ->
  length ss = length d /\
  (forall x, mph_lookup ss ks x = Some x <-> x ∈ d) /\
  (forall x k, mph_lookup ss ks x = Some k -> k ∈ d).
Proof.
  intros Hrun. destruct d as [|k0 d0].
  { vm_compute in Hrun. injection Hrun as <- <-. split; [done|]. split.
    - intros x. unfold mph_lookup. rewrite lookup_nil, elem_of_nil. split; [done|tauto].
    - intros x k. unfold mph_lookup. by rewrite lookup_nil. }
  set (d := k0 :: d0) in *.
  destruct (minimal_perfect_hash_inv d ss ks) as (st & -> & -> & Hinv); [done..|].
  assert (0 < Z.of_nat (length d)) as Hn by (unfold d; cbn [length]; lia).
  assert (length (salts st) = length d) as Hlen.
  { pose proof (inv_salts _ _ _ _ Hinv). lia. }
  split; [done|]. unfold mph_lookup. rewrite Hlen. split.
  - intros x. split.
    + intros Hk. rewrite <- (result_keys_perm d st Hn Hinv). by eapply list_elem_of_lookup_2.
    + by apply (result_lookup d st Hn Hinv).
  - intros x k Hk. rewrite <- (result_keys_perm d st Hn Hinv). by eapply list_elem_of_lookup_2.
Qed.

Lemma gen_mph_data_Ret {V} (d : list Z) (f : Z -> outcome V) salt (kv : list V) :
  gen_mph_data d f = Ret (salt, kv) ->
  exists ks, minimal_perfect_hash d = Ret (salt, ks) /\
             Forall2 (fun k v => f k = Ret v) ks kv.
Proof.
  unfold gen_mph_data.
  destruct (minimal_perfect_hash d) as [[ss ks]| |]; cbn; [|done..].
  destruct (mapM f ks) as [kv'| |] eqn:Hkv; cbn; [|done..].
  intros [= <- <-]. exists ks. split; [done|]. by apply mapM_Ret.
Qed.

Lemma gen_mph_data_lookup {V} (d : list Z) (f : Z -> outcome V) salt (kv : list V) :
  gen_mph_data d f = Ret (salt, kv) ->
  forall x,
    (x ∈ d -> exists v, f x = Ret v /\ mph_lookup salt kv x = Some v) /\
    (forall v, mph_lookup salt kv x = Some v ->
       exists k, k ∈ d /\ f k = Ret v /\ (x ∈ d -> k = x)).
Proof.
  intros Hrun x. apply gen_mph_data_Ret in Hrun as (ks & Hrun & Hkv).
  destruct (mph_tables _ _ _ Hrun) as (_ & Hkey & Hany).
  unfold mph_lookup in *. split.
  - intros Hx. apply Hkey in Hx.
    destruct (Forall2_lookup_l _ _ _ _ _ Hkv Hx) as (v & Hv & Hf). by exists v.
  - intros v Hv. destruct (Forall2_lookup_r _ _ _ _ _ Hkv Hv) as (k & Hk & Hf).
    exists k. split; [by eapply Hany|]. split; [done|].
    intros Hx. apply Hkey in Hx. congruence.
Qed.

Lemma dict_table_lookup {V} (table : gmap Z V) salt (kv : list (Z * V)) :
  gen_mph_data (dict_keys table) (fun k => v ← getitem table k; Ret (k, v)) = Ret (salt, kv) ->
  (forall x v, mph_lookup salt kv x = Some (x, v) <-> table !! x = Some v) /\
  (forall k v, (k, v) ∈ kv -> table !! k = Some v).
Proof.
  intros Hrun.
  assert (forall k e, (v ← getitem table k; Ret (k, v)) = Ret e ->
            k = e.1 /\ table !! k = Some e.2) as Hcb.
  { intros k e. unfold getitem. destruct (table !! k); cbn; [|done]. by intros [= <-]. }
  split.
  - intros x v. destruct (gen_mph_data_lookup _ _ _ _ Hrun x) as [Hin Hout]. split.
    + intros Hx. destruct (Hout _ Hx) as (k & _ & Hk & _).
      apply Hcb in Hk as [-> Hk]. done.
    + intros Hx. destruct Hin as (e & He & Hlook).
      { apply elem_of_dict_keys. by eexists. }
      rewrite Hlook. f_equal. unfold getitem in He. rewrite Hx in He. cbn in He. congruence.
  - intros k v Hin. apply gen_mph_data_Ret in Hrun as (ks & _ & Hkv).
    apply list_elem_of_lookup in Hin as [i Hi].
    destruct (Forall2_lookup_r _ _ _ _ _ Hkv Hi) as (k' & _ & Hk').
    apply Hcb in Hk' as [-> ?]. done.
Qed.

(** X13. The three hash tables that [gen_decomposition_tables] writes
    answer the lookup they are written for: in each of them, the slot
    reached from a codepoint [x] holds an entry with key [x] exactly when
    the source table has [x], and that entry carries the decomposition of
    [x]. *)
Theorem gen_decomposition_tables_lookup (canon_decomp compat_decomp svar_decomp : gmap Z (list Z))
    (r : list (list Z * list (Z * list Z))) :
  gen_decomposition_tables canon_decomp compat_decomp svar_decomp = Ret r ->
  exists canonical compatibility svar,
    r = [canonical; compatibility; svar] /\
    (forall x l, mph_lookup canonical.1 canonical.2 x = Some (x, l)
                 <-> canon_decomp !! x = Some l) /\
    (forall x l, mph_lookup compatibility.1 compatibility.2 x = Some (x, l)
                 <-> compat_decomp !! x = Some l) /\
    (forall x l, mph_lookup svar.1 svar.2 x = Some (x, l) <-> svar_decomp !! x = Some l).
Proof.
  unfold gen_decomposition_tables. intros Hrun. apply mapM_Ret in Hrun.
  inversion Hrun as [|? [s1 kv1] ? r1 H1 Hrun1]; subst.
  inversion Hrun1 as [|? [s2 kv2] ? r2 H2 Hrun2]; subst.
  inversion Hrun2 as [|? [s3 kv3] ? r3 H3 Hrun3]; subst.
  inversion Hrun3; subst.
  exists (s1, kv1), (s2, kv2), (s3, kv3). split; [done|]. cbn [fst snd].
  split; [|split].
  - by apply dict_table_lookup.
  - by apply dict_table_lookup.
  - by apply dict_table_lookup.
Qed.

Lemma gen_decomposition_tables_lookup_witness :
  exists canonical compatibility svar,
    gen_decomposition_tables {[ 0xC0 := [0x41; 0x300]; 0xC1 := [0x41; 0x301] ]}
      {[ 0xA0 := [0x20] ]} ∅ = Ret [canonical; compatibility; svar] /\
    mph_lookup canonical.1 canonical.2 0xC1 = Some (0xC1, [0x41; 0x301]) /\
    mph_lookup compatibility.1 compatibility.2 0xC1 <> Some (0xC1, [0x41; 0x301]).
Proof.
  destruct (gen_decomposition_tables {[ 0xC0 := [0x41; 0x300]; 0xC1 := [0x41; 0x301] ]}
              {[ 0xA0 := [0x20] ]} ∅) as [r| |] eqn:Hrun; [|vm_compute in Hrun; discriminate..].
  destruct (gen_decomposition_tables_lookup _ _ _ r Hrun)
    as (canonical & compatibility & svar & -> & H1 & H2 & _).
  exists canonical, compatibility, svar. split; [done|]. split.
  - apply H1. reflexivity.
  - intros Hx. apply H2 in Hx. discriminate.
Defined.

Lemma unpack_8 (v k : Z) :
  0 <= v < 256 ->
  Z.shiftr (Z.lor v (Z.shiftl k 8)) 8 = k /\ Z.land (Z.lor v (Z.shiftl k 8)) 0xFF = v.
Proof.
  intros Hv. split.
  - rewrite Z.shiftr_lor, Z.shiftr_shiftl_l, Z.shiftr_div_pow2 by lia.
    rewrite Z.div_small by lia. cbn. by rewrite Z.shiftl_0_r.
  - rewrite Z.land_lor_distr_l. change 0xFF with (Z.ones 8). rewrite !Z.land_ones by lia.
    rewrite Z.shiftl_mul_pow2, Z.mod_mul, Z.mod_small by lia. apply Z.lor_0_r.
Qed.

(** X14. The packed entries [int(class) | (k << 8)] of
    [gen_combining_class] give back the table: when every class it reads
    lies in 0..255, the slot reached from a codepoint [x] that has a class
    holds an entry whose upper bits are [x] and whose low byte is the
    class, and the slot reached from any other codepoint holds an entry
    with other upper bits. *)
Theorem gen_combining_class_lookup (int10 : string -> outcome Z)
    (combining_classes : gmap Z string) (salt kv : list Z) :
  gen_combining_class int10 combining_classes = Ret (salt, kv) ->
  (forall k cc class, combining_classes !! k = Some cc -> int10 cc = Ret class ->
     0 <= class < 256) ->
  forall x,
    (forall cc, combining_classes !! x = Some cc ->
       exists e, mph_lookup salt kv x = Some e /\
                 Z.shiftr e 8 = x /\ int10 cc = Ret (Z.land e 0xFF)) /\
    (combining_classes !! x = None ->
       forall e, mph_lookup salt kv x = Some e -> Z.shiftr e 8 <> x).
Proof.
  unfold gen_combining_class. intros Hrun Hbyte x.
  assert (forall k e,
    (cc ← getitem combining_classes k; class ← int10 cc; Ret (Z.lor class (Z.shiftl k 8)))
      = Ret e ->
    exists cc class, combining_classes !! k = Some cc /\ int10 cc = Ret class /\
                     e = Z.lor class (Z.shiftl k 8)) as Hcb.
  { intros k e. unfold getitem. destruct (combining_classes !! k) as [cc|]; cbn; [|done].
    destruct (int10 cc) as [class| |] eqn:Hcl; cbn; [|done..]. intros [= <-]. by exists cc, class. }
  destruct (gen_mph_data_lookup _ _ _ _ Hrun x) as [Hin Hout]. split.
  - intros cc Hcc. destruct Hin as (e & He & Hlook).
    { apply elem_of_dict_keys. by eexists. }
    apply Hcb in He as (cc' & class & Hcc' & Hclass & ->).
    assert (cc' = cc) as -> by congruence.
    destruct (unpack_8 class x (Hbyte _ _ _ Hcc Hclass)) as [Hk Hv].
    eexists. split; [done|]. split; [done|]. by rewrite Hv.
  - intros Hnone e He. destruct (Hout _ He) as (k & _ & Hk & _).
    apply Hcb in Hk as (cc & class & Hcc & Hclass & ->).
    destruct (unpack_8 class k (Hbyte _ _ _ Hcc Hclass)) as [-> _]. congruence.
Qed.

Lemma gen_combining_class_lookup_witness :
  let cc : gmap Z string := {[ 0x300 := "230"%string; 0x334 := "1"%string ]} in
  exists salt kv e,
    gen_combining_class dec_int cc = Ret (salt, kv) /\
    mph_lookup salt kv 0x334 = Some e /\ Z.shiftr e 8 = 0x334 /\
    dec_int "1" = Ret (Z.land e 0xFF).
Proof.
  intros cc.
  destruct (gen_combining_class dec_int cc) as [[salt kv]| |] eqn:Hrun;
    [|vm_compute in Hrun; discriminate..].
  assert (forall k s class, cc !! k = Some s -> dec_int s = Ret class -> 0 <= class < 256)
    as Hbyte.
  { intros k s class Hk Hclass.
    assert (s = "230"%string \/ s = "1"%string) as [-> | ->].
    { unfold cc in Hk. apply lookup_insert_Some in Hk as [[_ <-]|[_ Hk]]; [by left|].
      apply lookup_singleton_Some in Hk as [_ <-]. by right. }
    - vm_compute in Hclass. injection Hclass as <-. lia.
    - vm_compute in Hclass. injection Hclass as <-. lia. }
  destruct (gen_combining_class_lookup dec_int cc salt kv Hrun Hbyte 0x334) as [Hin _].
  destruct (Hin "1"%string) as (e & He & Hkey & Hclass); [reflexivity|].
  exists salt, kv, e. split; [reflexivity|]. split; [exact He|]. split; [exact Hkey|exact Hclass].
Defined.

#[local] Instance tuple_le_total : Total tuple_le.
Proof. intros [a1 a2] [b1 b2]. unfold tuple_le. cbn. lia. Qed.

#[local] Instance tuple_le_trans : Transitive tuple_le.
Proof. intros [a1 a2] [b1 b2] [c1 c2]. unfold tuple_le. cbn. lia. Qed.

Lemma StronglySorted_filter {A} (R : relation A) (P : A -> Prop) `{!forall x, Decision (P x)}
    (l : list A) :
  StronglySorted R l -> StronglySorted R (filter P l).
Proof.
  induction 1 as [|x l Hs IH Hall]; [constructor|]. rewrite filter_cons.
  destruct (decide (P x)); [|done]. constructor; [done|].
  apply Forall_forall. intros y Hy. apply list_elem_of_filter in Hy as [_ Hy].
  by eapply Forall_forall in Hall.
Qed.

Lemma StronglySorted_strict {A} (R R' : relation A) (l : list A) :
  StronglySorted R l ->
  (forall (i j : nat) a b, l !! i = Some a -> l !! j = Some b -> (i < j)%nat -> R a b -> R' a b) ->
  StronglySorted R' l.
Proof.
  induction 1 as [|x l Hs IH Hall]; intros Himp; [constructor|]. constructor.
  - apply IH. intros i j a b Hi Hj Hij. by apply (Himp (S i) (S j)); [..|lia].
  - apply Forall_forall. intros y Hy. apply list_elem_of_lookup in Hy as [j Hj].
    apply (Himp 0%nat (S j)); [done|done|lia|].
    eapply Forall_forall in Hall; [done|]. by eapply list_elem_of_lookup_2.
Qed.

(** X15. What [gen_stream_safe] writes: the arms of the [match] are the
    entries of [leading], in strictly ascending order of the codepoint;
    and when every count of [trailing] lies in 0..255, the slot reached
    from a codepoint [x] of [trailing] holds an entry whose upper bits are
    [x] and whose low byte is its count, while the slot reached from any
    other codepoint holds an entry with other upper bits. *)
Theorem gen_stream_safe_lookup (leading trailing : gmap Z Z)
    (arms : list (Z * Z)) (salt kv : list Z) :
  gen_stream_safe leading trailing = Ret (arms, (salt, kv)) ->
  (forall k v, trailing !! k = Some v -> 0 <= v < 256) ->
  (forall char num, (char, num) ∈ arms <-> leading !! char = Some num) /\
  StronglySorted (fun a b => a.1 < b.1) arms /\
  forall x,
    (forall v, trailing !! x = Some v ->
       exists e, mph_lookup salt kv x = Some e /\ Z.shiftr e 8 = x /\ Z.land e 0xFF = v) /\
    (trailing !! x = None ->
       forall e, mph_lookup salt kv x = Some e -> Z.shiftr e 8 <> x).
Proof.
  unfold gen_stream_safe. cbv zeta. intros Hrun Hbyte.
  destruct (gen_mph_data (dict_keys trailing) _) as [[salt' kv']| |] eqn:Hgen;
    cbn in Hrun; [|done..].
  injection Hrun as <- <- <-.
  assert (forall k e,
    (v ← getitem trailing k; Ret (Z.lor v (Z.shiftl k 8))) = Ret e ->
    exists v, trailing !! k = Some v /\ e = Z.lor v (Z.shiftl k 8)) as Hcb.
  { intros k e. unfold getitem. destruct (trailing !! k) as [v|]; cbn; [|done].
    intros [= <-]. by exists v. }
  split; [|split].
  - intros char num. rewrite merge_sort_Permutation. apply elem_of_map_to_list.
  - eapply StronglySorted_strict; [apply (StronglySorted_merge_sort tuple_le); apply _|].
    intros i j [c1 n1] [c2 n2] Hi Hj Hij Hle. cbn.
    assert (c1 <> c2); [|unfold tuple_le in Hle; cbn in Hle; lia].
    intros <-.
    pose proof (NoDup_fst_map_to_list leading) as Hnd.
    rewrite <- (merge_sort_Permutation tuple_le) in Hnd.
    assert (i = j); [|lia].
    eapply NoDup_lookup; [exact Hnd|by rewrite list_lookup_fmap, Hi|by rewrite list_lookup_fmap, Hj].
  - intros x. destruct (gen_mph_data_lookup _ _ _ _ Hgen x) as [Hin Hout]. split.
    + intros v Hv. destruct Hin as (e & He & Hlook).
      { apply elem_of_dict_keys. by eexists. }
      apply Hcb in He as (v' & Hv' & ->). assert (v' = v) as -> by congruence.
      destruct (unpack_8 v x (Hbyte _ _ Hv)) as [? ?]. by eexists.
    + intros Hnone e He. destruct (Hout _ He) as (k & _ & Hk & _).
      apply Hcb in Hk as (v & Hv & ->).
      destruct (unpack_8 v k (Hbyte _ _ Hv)) as [-> _]. congruence.
Qed.

Lemma gen_stream_safe_lookup_witness :
  let leading : gmap Z Z := {[ 0x344 := 2; 0x340 := 1 ]} in
  let trailing : gmap Z Z := {[ 0x344 := 2; 0xC0 := 1 ]} in
  exists arms salt kv e,
    gen_stream_safe leading trailing = Ret (arms, (salt, kv)) /\
    StronglySorted (fun a b => a.1 < b.1) arms /\
    mph_lookup salt kv 0xC0 = Some e /\ Z.shiftr e 8 = 0xC0 /\ Z.land e 0xFF = 1.
Proof.
  intros leading trailing.
  destruct (gen_stream_safe leading trailing) as [[arms [salt kv]]| |] eqn:Hrun;
    [|vm_compute in Hrun; discriminate..].
  assert (forall k v, trailing !! k = Some v -> 0 <= v < 256) as Hbyte.
  { intros k v Hk. unfold trailing in Hk.
    apply lookup_insert_Some in Hk as [[_ <-]|[_ Hk]]; [lia|].
    apply lookup_singleton_Some in Hk as [_ <-]. lia. }
  destruct (gen_stream_safe_lookup leading trailing arms salt kv Hrun Hbyte)
    as (_ & Hsorted & Hlook).
  destruct (Hlook 0xC0) as [Hin _].
  destruct (Hin 1) as (e & He & Hkey & Hval); [reflexivity|].
  exists arms, salt, kv, e. split; [reflexivity|]. split; [exact Hsorted|].
  split; [exact He|]. split; [exact Hkey|exact Hval].
Defined.

#[local] Instance item_le_total : Total item_le.
Proof. intros [[a1 a2] a3] [[b1 b2] b3]. unfold item_le. cbn. lia. Qed.

#[local] Instance item_le_trans : Transitive item_le.
Proof. intros [[a1 a2] a3] [[b1 b2] b3] [[c1 c2] c3]. unfold item_le. cbn. lia. Qed.

Lemma unpack_16 (c1 c2 : Z) :
  0 <= c2 < 0x10000 ->
  Z.shiftr (Z.lor (Z.shiftl c1 16) c2) 16 = c1 /\
  Z.land (Z.lor (Z.shiftl c1 16) c2) 0xFFFF = c2.
Proof.
  intros Hc. split.
  - rewrite Z.shiftr_lor, Z.shiftr_shiftl_l, Z.shiftr_div_pow2 by lia.
    rewrite Z.div_small by lia. cbn. rewrite Z.shiftl_0_r. apply Z.lor_0_r.
  - rewrite Z.land_lor_distr_l. change 0xFFFF with (Z.ones 16). rewrite !Z.land_ones by lia.
    rewrite Z.shiftl_mul_pow2, Z.mod_mul, Z.mod_small by lia. apply Z.lor_0_l.
Qed.

Lemma table_fold_sound (items : list (Z * Z * Z)) (m : gmap Z Z) k c3 :
  foldl table_step m items !! k = Some c3 ->
  m !! k = Some c3 \/
  exists c1 c2, (c1, c2, c3) ∈ items /\ c1 < 0x10000 /\ c2 < 0x10000 /\
                k = Z.lor (Z.shiftl c1 16) c2.
Proof.
  revert m. induction items as [|[[c1 c2] c] items IH]; intros m; [by left|].
  cbn [foldl]. intros Hk. destruct (IH _ Hk) as [Hm|(d1 & d2 & Hin & ?)].
  - unfold table_step in Hm.
    destruct (c1 <? 0x10000) eqn:H1; [destruct (c2 <? 0x10000) eqn:H2|]; cbn [andb] in Hm;
      [|by left..].
    destruct (decide (Z.lor (Z.shiftl c1 16) c2 = k)) as [<-|Hne].
    + rewrite lookup_insert_eq in Hm. injection Hm as ->.
      right. exists c1, c2. split; [left|]. lia.
    + rewrite lookup_insert_ne in Hm by done. by left.
  - right. exists d1, d2. split; [by right|done].
Qed.

Lemma table_fold_complete (items : list (Z * Z * Z)) (m : gmap Z Z) c1 c2 c3 :
  NoDup items.*1 -> (c1, c2, c3) ∈ items ->
  0 <= c1 < 0x10000 -> 0 <= c2 < 0x10000 ->
  foldl table_step m items !! Z.lor (Z.shiftl c1 16) c2 = Some c3.
Proof.
  intros Hnd Hin H1 H2. revert m Hnd Hin.
  induction items as [|[[d1 d2] d3] items IH] using rev_ind; intros m Hnd Hin;
    [by apply elem_of_nil in Hin|].
  rewrite foldl_snoc. rewrite fmap_app in Hnd. apply NoDup_app in Hnd as (Hnd & Hfresh & _).
  apply elem_of_app in Hin as [Hin|Hin].
  - unfold table_step at 1.
    destruct ((d1 <? 0x10000) && (d2 <? 0x10000)) eqn:Hbmp; [|by apply IH].
    rewrite lookup_insert_ne; [by apply IH|].
    intros Heq. apply (Hfresh (c1, c2)).
    + apply list_elem_of_fmap. by exists (c1, c2, c3).
    + assert (0 <= Z.lor (Z.shiftl d1 16) d2) as Hnn.
      { rewrite Heq. apply Z.lor_nonneg. split; [apply Z.shiftl_nonneg|]; lia. }
      apply Z.lor_nonneg in Hnn as [Hd1 Hd2]. apply Z.shiftl_nonneg in Hd1.
      apply andb_true_iff in Hbmp as [Hb1 Hb2].
      destruct (unpack_16 d1 d2 ltac:(lia)) as [E1 E2].
      destruct (unpack_16 c1 c2 ltac:(lia)) as [F1 F2].
      rewrite Heq, F1 in E1. rewrite Heq, F2 in E2. subst d1 d2. cbn. left.
  - apply list_elem_of_singleton in Hin. injection Hin as <- <- <-.
    unfold table_step.
    assert ((c1 <? 0x10000) && (c2 <? 0x10000) = true) as ->.
    { apply andb_true_iff. split; apply Z.ltb_lt; lia. }
    apply lookup_insert_eq.
Qed.

(** X16. What [gen_composition_table] writes for a composition table
    [canon_comp]. For a pair of codepoints below 0x10000 (and not
    negative), the slot reached from [(c1 << 16) | c2] holds that key with
    a codepoint [c3] exactly when [canon_comp] sends the pair to [c3].
    Every entry of the hash table stems from a pair with both members
    below 0x10000, and the arms of [composition_table_astral] are, in
    ascending order, the entries of [canon_comp] with both members at or
    above 0x10000: a pair with one member on each side of 0x10000 is
    written nowhere. *)
Theorem gen_composition_table_lookup (canon_comp : gmap (Z * Z) Z)
    (items : list (Z * Z * Z)) (salt : list Z) (kv : list (Z * Z))
    (astral : list (Z * Z * Z)) :
  items ≡ₚ map_to_list canon_comp ->
  gen_composition_table items = Ret (salt, kv, astral) ->
  (forall c1 c2 c3, 0 <= c1 < 0x10000 -> 0 <= c2 < 0x10000 ->
     let k := Z.lor (Z.shiftl c1 16) c2 in
     mph_lookup salt kv k = Some (k, c3) <-> canon_comp !! (c1, c2) = Some c3) /\
  (forall k c3, (k, c3) ∈ kv ->
     exists c1 c2, canon_comp !! (c1, c2) = Some c3 /\ c1 < 0x10000 /\ c2 < 0x10000 /\
                   k = Z.lor (Z.shiftl c1 16) c2) /\
  (forall c1 c2 c3, (c1, c2, c3) ∈ astral <->
     canon_comp !! (c1, c2) = Some c3 /\ 0x10000 <= c1 /\ 0x10000 <= c2) /\
  StronglySorted item_le astral.
Proof.
  intros Hitems. unfold gen_composition_table. cbv zeta.
  set (table := foldl table_step ∅ items).
  destruct (minimal_perfect_hash (dict_keys table)) as [r0| |]; cbn; [|done..].
  destruct (gen_mph_data (dict_keys table) _) as [[salt' kv']| |] eqn:Hgen; cbn; [|done..].
  intros [= <- <- <-].
  assert (forall c1 c2 c3, (c1, c2, c3) ∈ items <-> canon_comp !! (c1, c2) = Some c3) as Hin.
  { intros c1 c2 c3. rewrite Hitems. apply elem_of_map_to_list. }
  assert (NoDup items.*1) as Hnd.
  { rewrite Hitems. apply NoDup_fst_map_to_list. }
  destruct (dict_table_lookup table salt' kv' Hgen) as [Hlook Hentries].
  split; [|split; [|split]].
  - intros c1 c2 c3 H1 H2. set (k := Z.lor (Z.shiftl c1 16) c2). rewrite Hlook. split.
    + intros Hk. destruct (table_fold_sound _ _ _ _ Hk) as [Hm|(d1 & d2 & Hd & Hb1 & Hb2 & Heq)].
      { by rewrite lookup_empty in Hm. }
      assert (0 <= Z.lor (Z.shiftl d1 16) d2) as Hnn.
      { rewrite <- Heq. apply Z.lor_nonneg. split; [apply Z.shiftl_nonneg|]; lia. }
      apply Z.lor_nonneg in Hnn as [Hd1 Hd2]. apply Z.shiftl_nonneg in Hd1.
      destruct (unpack_16 d1 d2 ltac:(lia)) as [E1 E2].
      destruct (unpack_16 c1 c2 ltac:(lia)) as [F1 F2].
      fold k in F1, F2. rewrite <- Heq, F1 in E1. rewrite <- Heq, F2 in E2. subst d1 d2.
      by apply Hin.
    + intros Hc. apply table_fold_complete; [done|by apply Hin|done..].
  - intros k c3 Hk. apply Hentries in Hk.
    destruct (table_fold_sound _ _ _ _ Hk) as [Hm|(c1 & c2 & Hc & ?)].
    { by rewrite lookup_empty in Hm. }
    exists c1, c2. split; [by apply Hin|done].
  - intros c1 c2 c3. rewrite list_elem_of_filter, merge_sort_Permutation, Hin.
    unfold is_astral. cbn. rewrite andb_true_iff, !Z.leb_le. tauto.
  - apply StronglySorted_filter. apply StronglySorted_merge_sort; apply _.
Qed.

Lemma gen_composition_table_lookup_witness :
  let canon_comp : gmap (Z * Z) Z :=
    {[ (0x41, 0x300) := 0xC0; (0x11099, 0x110BA) := 0x1109A; (0x41, 0x1D165) := 0x1D15E ]} in
  exists salt kv astral,
    gen_composition_table (map_to_list canon_comp) = Ret (salt, kv, astral) /\
    mph_lookup salt kv 0x410300 = Some (0x410300, 0xC0) /\
    (0x11099, 0x110BA, 0x1109A) ∈ astral /\
    ((0x41, 0x1D165, 0x1D15E) ∉ astral) /\
    (forall k, (k, 0x1D15E) ∉ kv).
Proof.
  intros canon_comp.
  destruct (gen_composition_table (map_to_list canon_comp)) as [[[salt kv] astral]| |] eqn:Hrun;
    [|vm_compute in Hrun; discriminate..].
  destruct (gen_composition_table_lookup canon_comp (map_to_list canon_comp) salt kv astral
              (reflexivity _) Hrun) as (Hbmp & Hkv & Hastral & _).
  exists salt, kv, astral. split; [reflexivity|]. split; [|split; [|split]].
  - apply (Hbmp 0x41 0x300 0xC0); [lia|lia|reflexivity].
  - apply Hastral. split; [reflexivity|lia].
  - intros Hx. apply Hastral in Hx. lia.
  - intros k Hx. apply Hkv in Hx as (c1 & c2 & Hc & H1 & H2 & _).
    unfold canon_comp in Hc.
    apply lookup_insert_Some in Hc as [[_ [=]]|[_ Hc]].
    apply lookup_insert_Some in Hc as [[_ [=]]|[_ Hc]].
    apply lookup_singleton_Some in Hc as [[= <- <-] _]. lia.
Defined.

(** ** The pipeline from the raw tables to the stream-safe tables *)

(** X17. A codepoint above 0x7F, outside the Hangul syllables, whose raw
    compatibility decomposition is the empty list and which has no raw
    canonical decomposition, is fatal for the pipeline: when
    [_compute_fully_decomposed] returns its tables,
    [_compute_stream_safe_tables] raises [KeyError] on them. *)
Theorem empty_compat_decomposition_key_error (fuel : nat) (cd cpd cf cpf : gmap Z (list Z))
    (cc : gmap Z string) (c : Z) :
  0x7f < c -> is_hangul c = false -> cd !! c = None -> cpd !! c = Some [] ->
  _compute_fully_decomposed fuel cd cpd = Ret (cf, cpf) ->
  cpf !! c = Some [] /\ cf !! c = None /\
  _compute_stream_safe_tables cf cpf cc = Raise KeyError.
Proof.
  intros Hc Hh Hcd Hcpd Hrun.
  apply compute_fully_decomposed_Ret in Hrun as (cpf0 & Hloop & ->).
  destruct (loop_spec _ _ _ _ _ Hloop) as (m & Hmax & Htotal & Hcf & Hcpf0).
  assert (0 <= c <= m) as Hrange.
  { split; [lia|]. apply Hmax. right. by eexists. }
  destruct (Htotal c Hrange Hh) as (canon & compat & Hcanon & Hcompat).
  destruct fuel as [|fuel]; [done|].
  assert (compat = []) as ->.
  { rewrite decompose_S in Hcompat. destruct (c <=? 0x7f) eqn:E; [lia|].
    rewrite Hh, Hcd in Hcompat. cbn in Hcompat.
    assert (contains cpd c = true) as Hin by (apply contains_true; by eexists).
    rewrite Hin in Hcompat. unfold getitem in Hcompat. rewrite Hcpd in Hcompat.
    cbn in Hcompat. by injection Hcompat as <-. }
  assert (canon = [c]) as ->.
  { rewrite decompose_leaf in Hcanon; [by injection Hcanon as <-|].
    right. split; [exact Hh|]. split; [exact Hcd|intros [=]]. }
  assert (cf !! c = None) as Hcfc.
  { destruct (cf !! c) as [l|] eqn:Hl; [|done]. apply Hcf in Hl as (_ & _ & Hl & Hs).
    rewrite Hcanon in Hl. injection Hl as <-. cbn in Hs. by rewrite Z.eqb_refl in Hs. }
  assert (dedup cf cpf0 !! c = Some []) as Hcpfc.
  { apply dedup_lookup. split; [|by rewrite Hcfc]. apply Hcpf0.
    split; [exact Hrange|]. split; [exact Hh|]. split; [exact Hcompat|reflexivity]. }
  split; [done|]. split; [done|].
  unfold _compute_stream_safe_tables. apply foldM_Raise_step with c.
  - apply elem_of_elements, elem_of_union. right. apply elem_of_dom. by eexists.
  - intros t. unfold stream_safe_step, representative, getitem. by rewrite Hcpfc, Hcfc.
  - intros t y _. destruct (stream_safe_step_outcome cf (dedup cf cpf0) cc t y) as [?|[? _]]; auto.
Qed.

Lemma empty_compat_decomposition_key_error_witness :
  let cd : gmap Z (list Z) := {[ 0xC0 := [0x41; 0x300] ]} in
  let cpd : gmap Z (list Z) := {[ 0xA0 := [] ]} in
  exists cf cpf,
    _compute_fully_decomposed 3 cd cpd = Ret (cf, cpf) /\
    _compute_stream_safe_tables cf cpf ∅ = Raise KeyError.
Proof.
  intros cd cpd.
  destruct (_compute_fully_decomposed 3 cd cpd) as [[cf cpf]| |] eqn:Hrun;
    [|vm_compute in Hrun; discriminate..].
  exists cf, cpf. split; [reflexivity|].
  apply (empty_compat_decomposition_key_error 3 cd cpd cf cpf ∅ 0xA0);
    [lia|reflexivity|reflexivity|reflexivity|exact Hrun].
Defined.

(** ** Ingestion of the normalization properties, continued *)

Lemma norm_props_step_record props line :
  norm_props_step props line = Raise AssertionError \/
  norm_props_step props line
  = Ret (match norm_record line with
         | Some (p, r) => <[p := default [] (props !! p) ++ [r]]> props
         | None => props
         end).
Proof.
  unfold norm_props_step, norm_record.
  destruct (length _ <? 2)%nat; [by right|].
  destruct (length _ <=? 3)%nat; cbn; [|by left].
  destruct (Text.partition ".." _) as [low high]. by right.
Qed.

Lemma records_of_snoc prop lines line :
  records_of prop (lines ++ [line])
  = records_of prop lines ++
    match norm_record line with
    | Some (p, r) => if String.eqb p prop then [r] else []
    | None => []
    end.
Proof.
  unfold records_of. rewrite omap_app. f_equal. cbn.
  destruct (norm_record line) as [[p r]|]; [|done]. by destruct (String.eqb p prop).
Qed.

Lemma load_norm_props_records lines props0 props :
  foldM norm_props_step props0 lines = Ret props ->
  forall prop, default [] (props !! prop) = default [] (props0 !! prop) ++ records_of prop lines.
Proof.
  revert props0. induction lines as [|line lines IH]; intros props0 Hrun prop.
  - injection Hrun as <-. by rewrite app_nil_r.
  - cbn [foldM] in Hrun. apply bind_Ret in Hrun as (props1 & Hstep & Hrun).
    rewrite (IH _ Hrun prop). change (line :: lines) with ([line] ++ lines).
    unfold records_of. rewrite omap_app, app_assoc. f_equal.
    destruct (norm_props_step_record props0 line) as [Hfail|Hok]; [congruence|].
    rewrite Hok in Hstep. injection Hstep as <-. cbn.
    destruct (norm_record line) as [[p r]|]; [|by rewrite app_nil_r].
    destruct (String.eqb_spec p prop) as [->|Hne].
    + by rewrite lookup_insert_eq.
    + rewrite lookup_insert_ne by done. by rewrite app_nil_r.
Qed.

(** X18. What [_load_norm_props] returns files the records under their
    property in the order of the lines: the list of a property is made of
    the records of the lines (with two or three fields) that name it,
    first line first, and a property that no line names has no entry. *)
Theorem load_norm_props_order (lines : list string)
    (props : gmap string (list NormProps.record)) :
  _load_norm_props lines = Ret props ->
  forall prop,
    default [] (props !! prop) = records_of prop lines /\
    (props !! prop = None <-> records_of prop lines = []).
Proof.
  unfold _load_norm_props. intros Hrun prop.
  pose proof (load_norm_props_records _ _ _ Hrun prop) as Hrec.
  rewrite lookup_empty in Hrec. cbn in Hrec. split; [done|].
  assert (forall lines props0 props,
    foldM norm_props_step props0 lines = Ret props ->
    (forall p, props0 !! p <> Some []) -> forall p, props !! p <> Some []) as Hne.
  { clear. induction lines as [|line lines IH]; intros props0 props Hrun Hinv.
    - by injection Hrun as <-.
    - cbn [foldM] in Hrun. apply bind_Ret in Hrun as (props1 & Hstep & Hrun).
      apply (IH _ _ Hrun). intros p.
      destruct (norm_props_step_record props0 line) as [Hfail|Hok]; [congruence|].
      rewrite Hok in Hstep. injection Hstep as <-.
      destruct (norm_record line) as [[q r]|]; [|apply Hinv].
      destruct (decide (q = p)) as [->|Hqp].
      + rewrite lookup_insert_eq. intros [= Habs]. by destruct (default [] (props0 !! p)).
      + rewrite lookup_insert_ne by done. apply Hinv. }
  split.
  - intros Hnone. by rewrite <- Hrec, Hnone.
  - intros Hnil. rewrite Hnil in Hrec. destruct (props !! prop) as [l|] eqn:Hl; [|done].
    cbn in Hrec. subst l. exfalso. eapply (Hne _ _ _ Hrun); [|exact Hl].
    intros p. by rewrite lookup_empty.
Qed.

Lemma load_norm_props_order_witness :
  let lines := ["00C0..00C5 ; NFD_QC; N # Lu"; "# comment"; "0340 ; NFC_QC; N";
                "0341 ; NFD_QC; N"]%string in
  exists props,
    _load_norm_props lines = Ret props /\
    default [] (props !! "NFD_QC"%string)
    = [("00C0", "00C5", Some "N"); ("0341", "", Some "N")]%string /\
    props !! "NFKC_QC"%string = None.
Proof.
  intros lines.
  destruct (_load_norm_props lines) as [props| |] eqn:Hrun;
    [|vm_compute in Hrun; discriminate..].
  exists props. split; [reflexivity|].
  split.
  - transitivity (records_of "NFD_QC" lines).
    + exact (proj1 (load_norm_props_order lines props Hrun "NFD_QC"%string)).
    + vm_compute. reflexivity.
  - apply (load_norm_props_order lines props Hrun "NFKC_QC"%string).
    vm_compute. reflexivity.
Defined.

(** ** The standardized variants, continued *)

Lemma assert_Ret (b : bool) (u : unit) : assert b = Ret u -> b = true.
Proof. by destruct b. Qed.

Lemma check_parts_Ret cd cpd (parts : list Z) (u u' : unit) :
  foldM (check_part cd cpd) u parts = Ret u' ->
  Forall (fun c => cd !! c = None /\ cpd !! c = None) parts.
Proof.
  revert u. induction parts as [|c parts IH]; intros u Hrun; [constructor|].
  cbn [foldM] in Hrun. apply bind_Ret in Hrun as (u1 & Hstep & Hrun).
  constructor; [|by eapply IH].
  unfold check_part in Hstep. apply bind_Ret in Hstep as (u2 & H1 & H2).
  apply assert_Ret, negb_true_iff, contains_false in H1.
  apply assert_Ret, negb_true_iff, contains_false in H2. done.
Qed.

(** The entry that a line of StandardizedVariants.txt adds. *)
Lemma svar_step_entry int16 names cc cd cpd (t t' : tables) line :
  svar_step int16 names cc cd cpd t line = Ret t' ->
  t' = t \/
  exists char_int parts description x,
    names !! description = Some char_int /\
    cc !! char_int = None /\ cpd !! char_int = None /\ cd !! char_int = Some [x] /\
    is_hangul char_int = false /\
    Forall (fun c => cd !! c = None /\ cpd !! c = None) parts /\
    t' = (<[char_int := parts]> t.1, <[char_int := parts]> t.2).
Proof.
  unfold svar_step. destruct (String.eqb _ _); [intros [= <-]; by left|].
  intros (_ & _ & Hrun)%bind_Ret. revert Hrun.
  destruct (negb (String.eqb _ _)); [intros [= <-]; by left|].
  destruct (names !! _) as [char_int|] eqn:Hname; [|intros [= <-]; by left].
  intros (u1 & Hcc & (u2 & Hcpd & (decomp & Hcd & (u3 & Hlen & (u4 & Hh &
    (parts & _ & (u5 & Hparts & Hret)%bind_Ret)%bind_Ret)%bind_Ret)%bind_Ret)%bind_Ret)
    %bind_Ret)%bind_Ret.
  apply assert_Ret, negb_true_iff, contains_false in Hcc.
  apply assert_Ret, negb_true_iff, contains_false in Hcpd.
  apply assert_Ret, negb_true_iff in Hh.
  apply assert_Ret, Nat.eqb_eq in Hlen.
  unfold getitem in Hcd. destruct (cd !! char_int) as [decomp'|] eqn:Hd; [|done].
  injection Hcd as ->. destruct decomp as [|x [|? ?]]; [done| |done].
  right. eexists char_int, parts, _, x. injection Hret as <-.
  split; [exact Hname|]. split; [exact Hcc|]. split; [exact Hcpd|]. split; [exact Hd|].
  split; [exact Hh|]. split; [by eapply check_parts_Ret|reflexivity].
Qed.

(** X19. The tables that [_load_standardized_variants] returns are equal,
    and every key of them is the codepoint of a name of UnicodeData.txt
    that has no combining class, no compatibility decomposition, a
    canonical decomposition of length 1, and is no Hangul syllable; the
    codepoints of its variation sequence have no raw decomposition of
    either kind. *)
Theorem standardized_variants_invariant (int16 : string -> outcome Z)
    (names : gmap string Z) (cc : gmap Z string) (cd cpd : gmap Z (list Z))
    (lines : list string) (svar_decomp svar_fully_decomp : gmap Z (list Z)) :
  _load_standardized_variants int16 names cc cd cpd lines
    = Ret (svar_decomp, svar_fully_decomp) ->
  svar_decomp = svar_fully_decomp /\
  forall char_int parts, svar_decomp !! char_int = Some parts ->
    (exists description, names !! description = Some char_int) /\
    cc !! char_int = None /\ cpd !! char_int = None /\
    (exists x, cd !! char_int = Some [x]) /\
    is_hangul char_int = false /\
    Forall (fun c => cd !! c = None /\ cpd !! c = None) parts.
Proof.
  unfold _load_standardized_variants.
  set (good := fun (t : tables) =>
    t.1 = t.2 /\
    forall char_int parts, t.1 !! char_int = Some parts ->
      (exists description, names !! description = Some char_int) /\
      cc !! char_int = None /\ cpd !! char_int = None /\
      (exists x, cd !! char_int = Some [x]) /\
      is_hangul char_int = false /\
      Forall (fun c => cd !! c = None /\ cpd !! c = None) parts).
  assert (forall lines t t',
    foldM (svar_step int16 names cc cd cpd) t lines = Ret t' -> good t -> good t') as Hfold.
  { clear lines. induction lines as [|line lines IH]; intros t t' Hrun Hgood.
    - by injection Hrun as <-.
    - cbn [foldM] in Hrun. apply bind_Ret in Hrun as (t1 & Hstep & Hrun).
      apply (IH _ _ Hrun).
      apply svar_step_entry in Hstep
        as [->|(c & parts & d & x & Hname & Hcc & Hcpd & Hcd & Hh & Hparts & ->)]; [done|].
      destruct Hgood as [Heq Hgood]. split; cbn [fst snd]; [by rewrite Heq|].
      intros c' parts' Hc'. destruct (decide (c = c')) as [<-|Hne].
      + rewrite lookup_insert_eq in Hc'. injection Hc' as <-.
        split; [by exists d|]. split; [done|]. split; [done|]. split; [by exists x|done].
      + rewrite lookup_insert_ne in Hc' by done. by apply Hgood. }
  intros Hrun. apply (Hfold _ _ _ Hrun). split; [done|].
  intros c parts Hc. cbn [fst] in Hc. by rewrite lookup_empty in Hc.
Qed.

Lemma standardized_variants_invariant_witness :
  let names : gmap string Z := {[ "CJK COMPATIBILITY IDEOGRAPH-F900"%string := 0xF900 ]} in
  let cd : gmap Z (list Z) := {[ 0xF900 := [0x8C48] ]} in
  let lines := ["# StandardizedVariants";
                "8C48 FE00; CJK COMPATIBILITY IDEOGRAPH-F900;";
                "0030 FE00; short diagonal stroke form; # DIGIT ZERO"]%string in
  exists svar_decomp,
    _load_standardized_variants hex_int names ∅ cd ∅ lines = Ret (svar_decomp, svar_decomp) /\
    svar_decomp !! 0xF900 = Some [0x8C48; 0xFE00] /\
    Forall (fun c => cd !! c = None) [0x8C48; 0xFE00].
Proof.
  intros names cd lines.
  destruct (_load_standardized_variants hex_int names ∅ cd ∅ lines) as [[sv svf]| |] eqn:Hrun;
    [|vm_compute in Hrun; discriminate..].
  destruct (standardized_variants_invariant hex_int names ∅ cd ∅ lines sv svf Hrun)
    as [<- Hinv].
  assert (sv !! 0xF900 = Some [0x8C48; 0xFE00]) as Hkey.
  { vm_compute in Hrun. injection Hrun as <- _. reflexivity. }
  exists sv. split; [reflexivity|]. split; [exact Hkey|].
  destruct (Hinv _ _ Hkey) as (_ & _ & _ & _ & _ & Hparts).
  eapply Forall_impl; [exact Hparts|]. by intros c [? _].
Defined.

(** ** Ingestion of UnicodeData.txt *)

Section unicode_data.

Import UnicodeDataTxt.

Variable int16 : string -> outcome Z.

Lemma unicode_data_step_Ret (data data' : unicode_data) (line : string) :
  unicode_data_step int16 data line = Ret data' ->
  length (Text.split ";" line) = 15%nat /\
  exists c,
    line_of int16 c line /\
    name_to_char_int data' = <[Text.strip (field 1 line) := c]> (name_to_char_int data) /\
    combining_classes data'
    = (if negb (String.eqb (field 3 line) "0") then <[c := field 3 line]> (combining_classes data)
       else combining_classes data) /\
    general_category_mark data'
    = (if is_mark (field 2 line) then general_category_mark data ++ [c]
       else general_category_mark data) /\
    ((exists l, line_decomposition int16 true line l /\
        compat_decomp data' = <[c := l]> (compat_decomp data) /\
        canon_decomp data' = canon_decomp data) \/
     (exists l, line_decomposition int16 false line l /\
        compat_decomp data' = compat_decomp data /\
        canon_decomp data' = <[c := l]> (canon_decomp data)) \/
     (field 5 line = ""%string /\
        compat_decomp data' = compat_decomp data /\
        canon_decomp data' = canon_decomp data)).
Proof.
  unfold unicode_data_step, line_of, line_decomposition, field. cbv zeta.
  intros (u & Hlen & Hrun)%bind_Ret. apply assert_Ret, Nat.eqb_eq in Hlen.
  split; [done|].
  apply bind_Ret in Hrun as (c & Hc & Hrun). exists c. split; [done|].
  apply bind_Ret in Hrun as ([compat' canon'] & Hdec & Hrun). injection Hrun as <-.
  cbn [name_to_char_int combining_classes general_category_mark compat_decomp canon_decomp
       fst snd].
  split; [done|]. split; [done|]. split; [done|].
  destruct (String.prefix "<" _) eqn:Hpre.
  - apply bind_Ret in Hdec as (l & Hl & [= <- <-]). left. by exists l.
  - destruct (String.eqb_spec (Text.split ";" line !!! 5%nat) "") as [Hempty|Hne];
      cbn [negb] in Hdec.
    + injection Hdec as <- <-. right. right. done.
    + apply bind_Ret in Hdec as (l & Hl & [= <- <-]). right. left. by exists l.
Qed.

(** X20. [_load_unicode_data] skips nothing: when it returns, every line
    of the text, blank and comment lines included, has exactly 15 fields
    and a first field that [int(_, 16)] reads. *)
Theorem load_unicode_data_lines (lines : list string) (data : unicode_data) :
  _load_unicode_data int16 lines = Ret data ->
  Forall (fun line => length (Text.split ";" line) = 15%nat /\ exists c, line_of int16 c line)
    lines.
Proof.
  unfold _load_unicode_data. generalize (UnicodeData ∅ ∅ ∅ ∅ []).
  induction lines as [|line lines IH]; intros data0 Hrun; [constructor|].
  cbn [foldM] in Hrun. apply bind_Ret in Hrun as (data1 & Hstep & Hrun).
  constructor; [|by eapply IH].
  apply unicode_data_step_Ret in Hstep as (Hlen & c & Hc & _). split; [done|by exists c].
Qed.

Lemma is_mark_spec (category : string) :
  is_mark category = true <-> category ∈ ["M"; "Mn"; "Mc"; "Me"]%string.
Proof.
  unfold is_mark. split.
  - intros [Hm|Hin]%orb_true_iff.
    + apply String.eqb_eq in Hm as ->. left.
    + apply bool_decide_eq_true in Hin.
      destruct (expanded_categories !! category) as [l|] eqn:Hl;
        [|by apply elem_of_nil in Hin].
      unfold expanded_categories in Hl. apply elem_of_list_to_map_2 in Hl. cbn in Hin.
      repeat (apply elem_of_cons in Hl as [[= -> ->]|Hl];
              [first [solve [repeat constructor]
                     |exfalso;
                      repeat (apply elem_of_cons in Hin as [Hin|Hin]; [discriminate Hin|]);
                      by apply elem_of_nil in Hin]|]).
      by apply elem_of_nil in Hl.
  - intros Hin. repeat (apply elem_of_cons in Hin as [->|Hin]; [vm_compute; reflexivity|]).
    by apply elem_of_nil in Hin.
Qed.

Lemma load_fold_marks (lines : list string) (data0 data : unicode_data) :
  foldM (unicode_data_step int16) data0 lines = Ret data ->
  forall c, c ∈ general_category_mark data <->
    c ∈ general_category_mark data0 \/
    exists line, line ∈ lines /\ line_of int16 c line /\
                 field 2 line ∈ ["M"; "Mn"; "Mc"; "Me"]%string.
Proof.
  revert data0. induction lines as [|line lines IH]; intros data0 Hrun c.
  - injection Hrun as <-. split; [by left|].
    intros [?|(line0 & Hx & _)]; [done|by apply elem_of_nil in Hx].
  - cbn [foldM] in Hrun. apply bind_Ret in Hrun as (data1 & Hstep & Hrun).
    rewrite (IH _ Hrun c).
    apply unicode_data_step_Ret in Hstep as (_ & c' & Hc' & _ & _ & Hmarks & _).
    rewrite Hmarks. pose proof (is_mark_spec (field 2 line)) as Hspec.
    destruct (is_mark (field 2 line)).
    + rewrite elem_of_app, list_elem_of_singleton. split.
      * intros [[? | ->] | (l & ? & ?)]; [by left| |].
        -- right. exists line. split; [left|]. split; [done|by apply Hspec].
        -- right. exists l. split; [by right|done].
      * intros [?|(l & [-> | ?]%elem_of_cons & Hl & ?)]; [by left; left| |].
        -- left. right. unfold line_of in *. congruence.
        -- right. by exists l.
    + split.
      * intros [?|(l & ? & ?)]; [by left|]. right. exists l. split; [by right|done].
      * intros [?|(l & [-> | ?]%elem_of_cons & Hl & Hcat)]; [by left| |].
        -- apply Hspec in Hcat. done.
        -- right. by exists l.
Qed.

(** X21. The list [general_category_mark] holds exactly the codepoints of
    the lines whose category field is [M], [Mn], [Mc] or [Me]. *)
Theorem general_category_mark_spec (lines : list string) (data : unicode_data) :
  _load_unicode_data int16 lines = Ret data ->
  forall c, c ∈ general_category_mark data <->
    exists line, line ∈ lines /\ line_of int16 c line /\
                 field 2 line ∈ ["M"; "Mn"; "Mc"; "Me"]%string.
Proof.
  intros Hrun c. rewrite (load_fold_marks _ _ _ Hrun c). cbn. split; [|by right].
  intros [Hx|?]; [by apply elem_of_nil in Hx|done].
Qed.

Lemma line_decomposition_kind b b' line l l' :
  line_decomposition int16 b line l -> line_decomposition int16 b' line l' -> b = b' /\ l = l'.
Proof.
  unfold line_decomposition. cbv zeta.
  destruct b, b'; intros H1 H2; destruct H1 as [Hp1 H1], H2 as [Hp2 H2];
    try congruence.
  - split; [done|]. congruence.
  - split; [done|]. destruct H1 as [_ H1], H2 as [_ H2]. congruence.
Qed.

Lemma line_decomposition_nonempty b line l :
  line_decomposition int16 b line l -> field 5 line <> ""%string.
Proof.
  unfold line_decomposition. cbv zeta. destruct b.
  - intros [Hp _] Hempty. rewrite Hempty in Hp. done.
  - by intros (_ & ? & _).
Qed.

Lemma step_table b (data data' : unicode_data) line :
  unicode_data_step int16 data line = Ret data' ->
  exists c,
    line_of int16 c line /\
    (forall c', c' <> c -> raw_table b data' !! c' = raw_table b data !! c') /\
    (forall l, line_decomposition int16 b line l -> raw_table b data' !! c = Some l) /\
    (forall l, raw_table b data' !! c = Some l ->
       raw_table b data !! c = Some l \/ line_decomposition int16 b line l).
Proof.
  intros Hstep.
  apply unicode_data_step_Ret in Hstep as (_ & c & Hc & _ & _ & _ & Hcases).
  exists c. split; [done|].
  destruct Hcases as [(l0 & Hl0 & Hcompat & Hcanon)|[(l0 & Hl0 & Hcompat & Hcanon)
                     |(Hempty & Hcompat & Hcanon)]];
    unfold raw_table; rewrite Hcompat, Hcanon.
  - destruct b.
    + split; [intros c' ?; by rewrite lookup_insert_ne|]. rewrite lookup_insert_eq. split.
      * intros l Hl. destruct (line_decomposition_kind _ _ _ _ _ Hl Hl0) as [_ ->]. done.
      * intros l [= <-]. by right.
    + split; [done|]. split; [|by left].
      intros l Hl. by destruct (line_decomposition_kind _ _ _ _ _ Hl Hl0).
  - destruct b.
    + split; [done|]. split; [|by left].
      intros l Hl. by destruct (line_decomposition_kind _ _ _ _ _ Hl Hl0).
    + split; [intros c' ?; by rewrite lookup_insert_ne|]. rewrite lookup_insert_eq. split.
      * intros l Hl. destruct (line_decomposition_kind _ _ _ _ _ Hl Hl0) as [_ ->]. done.
      * intros l [= <-]. by right.
  - split; [by destruct b|]. split; [|by left].
    intros l Hl. by apply line_decomposition_nonempty in Hl.
Qed.

Lemma load_fold_sound b (lines : list string) (data0 data : unicode_data) c l :
  foldM (unicode_data_step int16) data0 lines = Ret data ->
  raw_table b data !! c = Some l ->
  raw_table b data0 !! c = Some l \/
  exists line, line ∈ lines /\ line_of int16 c line /\ line_decomposition int16 b line l.
Proof.
  revert data0. induction lines as [|line lines IH]; intros data0 Hrun Hl.
  - injection Hrun as <-. by left.
  - cbn [foldM] in Hrun. apply bind_Ret in Hrun as (data1 & Hstep & Hrun).
    destruct (IH _ Hrun Hl) as [H1|(line' & ? & ?)].
    + destruct (step_table b _ _ _ Hstep) as (c' & Hc' & Hframe & _ & Hsound).
      destruct (decide (c = c')) as [->|Hne].
      * destruct (Hsound _ H1) as [?|?]; [by left|].
        right. exists line. split; [left|done].
      * left. by rewrite <- Hframe.
    + right. exists line'. split; [by right|done].
Qed.

Lemma load_fold_frame b (lines : list string) (data0 data : unicode_data) c :
  foldM (unicode_data_step int16) data0 lines = Ret data ->
  (forall line, line ∈ lines -> ~ line_of int16 c line) ->
  raw_table b data !! c = raw_table b data0 !! c.
Proof.
  revert data0. induction lines as [|line lines IH]; intros data0 Hrun Hnot.
  - by injection Hrun as <-.
  - cbn [foldM] in Hrun. apply bind_Ret in Hrun as (data1 & Hstep & Hrun).
    rewrite (IH _ Hrun) by (intros line' ?; apply Hnot; by right).
    destruct (step_table b _ _ _ Hstep) as (c' & Hc' & Hframe & _).
    apply Hframe. intros ->. apply (Hnot line); [left|done].
Qed.

Lemma load_fold_complete b (lines : list string) (data0 data : unicode_data) line c l :
  foldM (unicode_data_step int16) data0 lines = Ret data ->
  distinct_codepoints int16 lines ->
  line ∈ lines -> line_of int16 c line -> line_decomposition int16 b line l ->
  raw_table b data !! c = Some l.
Proof.
  revert data0. induction lines as [|line0 lines IH]; intros data0 Hrun Hdist Hin Hc Hl.
  { by apply elem_of_nil in Hin. }
  cbn [foldM] in Hrun. apply bind_Ret in Hrun as (data1 & Hstep & Hrun).
  assert (distinct_codepoints int16 lines) as Hdist'.
  { intros i j l1 l2 c0 Hi Hj H1 H2.
    assert (S i = S j) by (by eapply (Hdist (S i) (S j))). lia. }
  apply elem_of_cons in Hin as [->|Hin]; [|by eapply IH].
  rewrite (load_fold_frame b _ _ _ c Hrun).
  - destruct (step_table b _ _ _ Hstep) as (c' & Hc' & _ & Hset & _).
    assert (c' = c) as -> by (unfold line_of in *; congruence). by apply Hset.
  - intros line' Hin' Hc'. apply list_elem_of_lookup in Hin' as [j Hj].
    assert (0%nat = S j) by (by eapply (Hdist 0%nat (S j))). lia.
Qed.

(** X22. Every entry of the two raw decomposition tables stems from a
    line: [canon_decomp[c]] is the decomposition field of a line of [c]
    that does not start with [<], read as hexadecimal numbers, and
    [compat_decomp[c]] is the field of a line of [c] that starts with [<],
    read without its first word (the tag). *)
Theorem unicode_data_decompositions_sound (lines : list string) (data : unicode_data) :
  _load_unicode_data int16 lines = Ret data ->
  forall c l,
    (canon_decomp data !! c = Some l ->
     exists line, line ∈ lines /\ line_of int16 c line /\
                  line_decomposition int16 false line l) /\
    (compat_decomp data !! c = Some l ->
     exists line, line ∈ lines /\ line_of int16 c line /\
                  line_decomposition int16 true line l).
Proof.
  intros Hrun c l. split; intros Hl.
  - destruct (load_fold_sound false _ _ _ c l Hrun Hl) as [Hx|?]; [|done].
    cbn in Hx. by rewrite lookup_empty in Hx.
  - destruct (load_fold_sound true _ _ _ c l Hrun Hl) as [Hx|?]; [|done].
    cbn in Hx. by rewrite lookup_empty in Hx.
Qed.

(** X23. When no two lines are of the same codepoint, the two raw tables
    are exactly what the lines say: [canon_decomp[c]] is [l] exactly when
    the line of [c] gives the canonical decomposition [l], likewise for
    [compat_decomp], and no codepoint has an entry in both tables. *)
Theorem unicode_data_decompositions_distinct (lines : list string) (data : unicode_data) :
  _load_unicode_data int16 lines = Ret data ->
  distinct_codepoints int16 lines ->
  (forall c l, canon_decomp data !! c = Some l <->
     exists line, line ∈ lines /\ line_of int16 c line /\
                  line_decomposition int16 false line l) /\
  (forall c l, compat_decomp data !! c = Some l <->
     exists line, line ∈ lines /\ line_of int16 c line /\
                  line_decomposition int16 true line l) /\
  (forall c, canon_decomp data !! c = None \/ compat_decomp data !! c = None).
Proof.
  intros Hrun Hdist.
  assert (forall b c l, raw_table b data !! c = Some l <->
     exists line, line ∈ lines /\ line_of int16 c line /\
                  line_decomposition int16 b line l) as Hspec.
  { intros b c l. split.
    - intros Hl. destruct (load_fold_sound b _ _ _ c l Hrun Hl) as [Hx|?]; [|done].
      destruct b; cbn in Hx; by rewrite lookup_empty in Hx.
    - intros (line & Hin & Hc & Hl). by eapply load_fold_complete. }
  split; [exact (Hspec false)|]. split; [exact (Hspec true)|].
  intros c. destruct (canon_decomp data !! c) as [l|] eqn:Hcanon; [|by left].
  destruct (compat_decomp data !! c) as [l'|] eqn:Hcompat; [|by right]. exfalso.
  apply (Hspec false) in Hcanon as (line & Hin & Hc & Hl).
  apply (Hspec true) in Hcompat as (line' & Hin' & Hc' & Hl').
  apply list_elem_of_lookup in Hin as [i Hi]. apply list_elem_of_lookup in Hin' as [j Hj].
  assert (i = j) as -> by (by eapply Hdist).
  assert (line = line') as -> by congruence.
  by destruct (line_decomposition_kind _ _ _ _ _ Hl Hl').
Qed.

Lemma load_fold_classes (lines : list string) (data0 data : unicode_data) c cc :
  foldM (unicode_data_step int16) data0 lines = Ret data ->
  combining_classes data !! c = Some cc ->
  combining_classes data0 !! c = Some cc \/
  (cc <> "0"%string /\ exists line, line ∈ lines /\ line_of int16 c line /\ field 3 line = cc).
Proof.
  revert data0. induction lines as [|line lines IH]; intros data0 Hrun Hcc.
  - injection Hrun as <-. by left.
  - cbn [foldM] in Hrun. apply bind_Ret in Hrun as (data1 & Hstep & Hrun).
    destruct (IH _ Hrun Hcc) as [H1|(? & line' & ? & ?)].
    + apply unicode_data_step_Ret in Hstep as (_ & c' & Hc' & _ & Hclasses & _).
      rewrite Hclasses in H1.
      destruct (String.eqb_spec (field 3 line) "0") as [Hzero|Hne]; cbn [negb] in H1;
        [by left|].
      destruct (decide (c' = c)) as [->|Hcc'].
      * rewrite lookup_insert_eq in H1. injection H1 as <-.
        right. split; [done|]. exists line. split; [left|done].
      * rewrite lookup_insert_ne in H1 by done. by left.
    + right. split; [done|]. exists line'. split; [by right|done].
Qed.

(** X24. [combining_classes] never holds the class [0]: each of its
    entries is the class field, different from the text [0], of a line of
    its codepoint. *)
Theorem unicode_data_classes_sound (lines : list string) (data : unicode_data) :
  _load_unicode_data int16 lines = Ret data ->
  forall c cc, combining_classes data !! c = Some cc ->
    cc <> "0"%string /\
    exists line, line ∈ lines /\ line_of int16 c line /\ field 3 line = cc.
Proof.
  intros Hrun c cc Hcc.
  destruct (load_fold_classes _ _ _ c cc Hrun Hcc) as [Hx|?]; [|done].
  cbn in Hx. by rewrite lookup_empty in Hx.
Qed.

End unicode_data.

Lemma sample_lines_run :
  exists data, UnicodeDataTxt._load_unicode_data hex_int sample_lines = Ret data /\
    UnicodeDataTxt.canon_decomp data !! 0xC0 = Some [0x41; 0x300] /\
    UnicodeDataTxt.compat_decomp data !! 0xA0 = Some [0x20] /\
    UnicodeDataTxt.combining_classes data !! 0x300 = Some "230"%string /\
    UnicodeDataTxt.general_category_mark data = [0x300].
Proof.
  destruct (UnicodeDataTxt._load_unicode_data hex_int sample_lines) as [data| |] eqn:Hrun;
    [|vm_compute in Hrun; discriminate..].
  exists data. split; [reflexivity|].
  vm_compute in Hrun. injection Hrun as <-. repeat split; reflexivity.
Qed.

Lemma sample_lines_distinct : distinct_codepoints hex_int sample_lines.
Proof.
  intros i j line line' c Hi Hj Hc Hc'. unfold line_of in Hc, Hc'.
  destruct i as [|[|[|i]]]; cbn in Hi; [..|done]; injection Hi as <-;
    (destruct j as [|[|[|j]]]; cbn in Hj; [..|done]; injection Hj as <-);
    vm_compute in Hc, Hc'; congruence.
Qed.

Lemma load_unicode_data_lines_witness :
  Forall (fun line => length (Text.split ";" line) = 15%nat /\
                      exists c, line_of hex_int c line) sample_lines.
Proof.
  destruct sample_lines_run as (data & Hrun & _).
  exact (load_unicode_data_lines hex_int sample_lines data Hrun).
Defined.

Lemma general_category_mark_spec_witness :
  exists line, line ∈ sample_lines /\ line_of hex_int 0x300 line /\
               field 2 line ∈ ["M"; "Mn"; "Mc"; "Me"]%string.
Proof.
  destruct sample_lines_run as (data & Hrun & _ & _ & _ & Hmark).
  apply (general_category_mark_spec hex_int sample_lines data Hrun 0x300).
  rewrite Hmark. left.
Defined.

Lemma unicode_data_decompositions_sound_witness :
  exists line, line ∈ sample_lines /\ line_of hex_int 0xA0 line /\
               line_decomposition hex_int true line [0x20].
Proof.
  destruct sample_lines_run as (data & Hrun & _ & Hcompat & _).
  exact (proj2 (unicode_data_decompositions_sound hex_int sample_lines data Hrun 0xA0 [0x20])
           Hcompat).
Defined.

Lemma unicode_data_decompositions_distinct_witness :
  exists data, UnicodeDataTxt._load_unicode_data hex_int sample_lines = Ret data /\
    (UnicodeDataTxt.canon_decomp data !! 0xC0 = None \/
     UnicodeDataTxt.compat_decomp data !! 0xC0 = None).
Proof.
  destruct sample_lines_run as (data & Hrun & _).
  exists data. split; [exact Hrun|].
  exact (proj2 (proj2 (unicode_data_decompositions_distinct hex_int sample_lines data Hrun
                         sample_lines_distinct)) 0xC0).
Defined.

Lemma unicode_data_classes_sound_witness :
  "230"%string <> "0"%string /\
  exists line, line ∈ sample_lines /\ line_of hex_int 0x300 line /\
               field 3 line = "230"%string.
Proof.
  destruct sample_lines_run as (data & Hrun & _ & _ & Hcc & _).
  exact (unicode_data_classes_sound hex_int sample_lines data Hrun 0x300 "230" Hcc).
Defined.
